(** * dropflow: block formatting and float placement core

    A shallow embedding of the layout core of dropflow
    ([src/util.ts], [binarySearch]; the flow layout file, classes
    [MarginCollapseCollection], [BlockFormattingContext], [FloatSide],
    [FloatContext], [BlockContainerArea], [BlockContainer]) together with
    the properties its specification states about it.

    Numbers.  A JavaScript number is modelled by an integer ([Z]): the code
    only adds, subtracts, negates, compares and takes maxima, all of which
    are exact on integers.  Rounding and the infinities are outside the
    model.  Reading an array outside its bounds yields [undefined], and
    arithmetic on [undefined] yields [NaN]; the operations of the code do
    not tell the two apart (every comparison with either is false, every sum
    or maximum with either is [NaN]), so both are the single value [None] of
    [num := option Z]. *)

From Equations Require Import Equations.
From stdpp Require Import base list gmap strings.
From Stdlib Require Import ZArith Lia.

Open Scope Z_scope.

(** ** JavaScript arrays and numbers *)

Module JS.

(** [a[i]]: [None] is [undefined] (index negative or past the end). *)
Definition get {A} (a : list A) (i : Z) : option A :=
  if i <? 0 then None else a !! Z.to_nat i.

(** [a.length] *)
Definition len {A} (a : list A) : Z := Z.of_nat (length a).

(** [v < x] and [v > x] for [v] possibly [undefined]: the comparison
    converts [undefined] to [NaN] and is then false. *)
Definition lt_undef (v : option Z) (x : Z) : bool :=
  match v with Some y => y <? x | None => false end.

Definition gt_undef (v : option Z) (x : Z) : bool :=
  match v with Some y => x <? y | None => false end.

(** [v !== x] for a number [x] *)
Definition neq_undef (v : option Z) (x : Z) : bool :=
  match v with Some y => negb (y =? x) | None => true end.

(** A number that may be [NaN] (or [undefined], which every operation
    below first converts to [NaN]). *)
Definition num := option Z.

Definition nadd (a b : num) : num :=
  match a, b with Some x, Some y => Some (x + y) | _, _ => None end.

Definition nsub (a b : num) : num :=
  match a, b with Some x, Some y => Some (x - y) | _, _ => None end.

Definition nneg (a : num) : num :=
  match a with Some x => Some (- x) | None => None end.

(** [Math.max(a, b)]: [NaN] as soon as one argument is. *)
Definition nmax (a b : num) : num :=
  match a, b with Some x, Some y => Some (Z.max x y) | _, _ => None end.

(** [a > b], [a <= b]: false as soon as one side is [NaN]. *)
Definition ngt (a b : num) : bool :=
  match a, b with Some x, Some y => y <? x | _, _ => false end.

Definition nle (a b : num) : bool :=
  match a, b with Some x, Some y => x <=? y | _, _ => false end.

(** [a === 0] *)
Definition is_zero (a : num) : bool :=
  match a with Some x => x =? 0 | None => false end.

(** [a[i]] in an array of numbers: a missing element reads as
    [undefined]. *)
Definition geti (a : list num) (i : Z) : num :=
  match get a i with Some v => v | None => None end.

(** [a.splice(start, 0, x)]: a negative [start] counts from the end, and
    the position is clamped to the array. *)
Definition splice_position {A} (start : Z) (a : list A) : Z :=
  if start <? 0 then Z.max (len a + start) 0 else Z.min start (len a).

Definition splice_insert {A} (start : Z) (x : A) (a : list A) : list A :=
  let k := splice_position start a in
  take (Z.to_nat k) a ++ x :: drop (Z.to_nat k) a.

(** [a[i] = v] in an array of numbers.  Past the end the array grows, the
    elements in between being holes, which read as [undefined].  At a
    negative index JavaScript adds a property that is no element: the
    elements and the length stay as they are.  The model does not record
    the property: the only writes of the code at an index that may be
    negative are those of the loop of [FloatSide.placeFloat], where the
    count read at a negative index is never [0], so that the values stored
    there are sums with [undefined] or [NaN], that is [NaN], which is what
    a read at a negative index yields in the model. *)
Definition seti (i : Z) (v : num) (a : list num) : list num :=
  if i <? 0 then a
  else if i <? len a then <[Z.to_nat i := v]> a
  else a ++ replicate (Z.to_nat (i - len a)) None ++ [v].

End JS.

(** ** [binarySearch] ([src/util.ts]) *)

Definition inspect {A} (a : A) : {b | a = b} := exist _ a eq_refl.

(** The [while (true)] loop of [binarySearch], on the loop variables [l] and
    [r]; [i] is [Math.floor((l+r)/2)].  The recursion is well founded on the
    width [r - l + 1] of the interval. *)
Equations? binarySearch_loop (a : list Z) (x : Z) (l r : Z) : Z
  by wf (Z.to_nat (r - l + 1)) lt :=
  binarySearch_loop a x l r
    with inspect (JS.lt_undef (JS.get a ((l + r) / 2)) x) := {
    | exist _ true _ with inspect (r <? (l + r) / 2 + 1) := {
        | exist _ true _ := (l + r) / 2 + 1
        | exist _ false Hgo := binarySearch_loop a x ((l + r) / 2 + 1) r }
    | exist _ false _
        with inspect (JS.gt_undef (JS.get a ((l + r) / 2)) x) := {
        | exist _ true _ with inspect ((l + r) / 2 - 1 <? l) := {
            | exist _ true _ := (l + r) / 2
            | exist _ false Hgo := binarySearch_loop a x l ((l + r) / 2 - 1) }
        | exist _ false _ := (l + r) / 2 } }.
Proof.
  all: apply Z.ltb_ge in Hgo; Z.div_mod_to_equations; lia.
Qed.

Definition binarySearch (a : list Z) (x : Z) : Z :=
  binarySearch_loop a x 0 (JS.len a - 1).

(** A list of numbers is strictly increasing. *)
Definition strictly_increasing (a : list Z) : Prop :=
  ∀ (i j : nat) (y z : Z),
    (i < j)%nat → a !! i = Some y → a !! j = Some z → y < z.

Fixpoint strictly_increasingb (a : list Z) : bool :=
  match a with
  | y :: t =>
      match t with
      | z :: _ => (y <? z) && strictly_increasingb t
      | [] => true
      end
  | [] => true
  end.

(** The position at which [x] should be inserted into [a]: every element
    before [i] is smaller than [x], and the element at [i], if there is one,
    is at least [x]. *)
Definition insertion_position (a : list Z) (x : Z) (i : Z) : Prop :=
  0 ≤ i ≤ JS.len a ∧
  (∀ j y, 0 ≤ j < i → JS.get a j = Some y → y < x) ∧
  (∀ y, JS.get a i = Some y → x ≤ y).

(** ** [MarginCollapseCollection] *)

Module MarginCollapseCollection.

Record t := { positive : Z; negative : Z }.

(** [add(margin)]; the method updates the collection in place and returns
    it, the model returns the updated collection. *)
Definition add (margin : Z) (c : t) : t :=
  if margin <? 0
  then {| positive := positive c; negative := Z.max (negative c) (- margin) |}
  else {| positive := Z.max (positive c) margin; negative := negative c |}.

(** [new MarginCollapseCollection(initialMargin)] *)
Definition new (initialMargin : Z) : t :=
  add initialMargin {| positive := 0; negative := 0 |}.

(** [new MarginCollapseCollection()]: the parameter defaults to [0]. *)
Definition fresh : t := new 0.

Definition get (c : t) : Z := positive c - negative c.

Definition clone (c : t) : t :=
  {| positive := positive c; negative := negative c |}.

(** [add] called on the margins of [ms] from first to last. *)
Definition add_all (ms : list Z) (c : t) : t :=
  foldl (λ c m, add m c) c ms.

End MarginCollapseCollection.

(** The greatest element of a list, [0] if it has none. *)
Definition max_or_zero (l : list Z) : Z := foldr Z.max 0 l.

(** The collapsed margin of CSS: the greatest of the non-negative margins
    minus the greatest magnitude of the negative ones. *)
Definition collapsed_margin (ms : list Z) : Z :=
  max_or_zero (filter (λ m, 0 ≤ m) ms) -
  max_or_zero (Z.opp <$> filter (λ m, m < 0) ms).

(** ** Mutable state and exceptions

    A method that updates objects in place is a function from the state
    before the call to a result and the state after it; the result is
    either a returned value or a thrown exception, and in both cases the
    state is the one reached when the method was left. *)

Inductive result (A : Type) : Type :=
| Ok (a : A)
| Throw (msg : string).
Arguments Ok {A} a.
Arguments Throw {A} msg.

Definition M (S A : Type) : Type := S → result A * S.

Definition ret {S A} (a : A) : M S A := λ s, (Ok a, s).

Definition throw {S A} (msg : string) : M S A := λ s, (Throw msg, s).

Definition bind {S A B} (m : M S A) (k : A → M S B) : M S B :=
  λ s, match m s with
       | (Ok a, s') => k a s'
       | (Throw msg, s') => (Throw msg, s')
       end.

Definition gets {S A} (f : S → A) : M S A := λ s, (Ok (f s), s).

Definition modify {S} (f : S → S) : M S unit := λ s, (Ok tt, f s).

Notation "x <- m ;; k" := (bind m (λ x, k))
  (at level 100, m at next level, right associativity).

Notation "'when' c 'then' m" := (if c then m else ret tt)
  (at level 95, c at level 94).

(** ** Styles, areas and boxes *)

Inductive Float := float_none | float_left | float_right.
Inductive Clear := clear_none | clear_left | clear_right | clear_both.
Inductive WritingMode := horizontal_tb | vertical_lr | vertical_rl.

#[global] Instance Float_eq_dec : EqDecision Float.
Proof. solve_decision. Defined.

#[global] Instance Clear_eq_dec : EqDecision Clear.
Proof. solve_decision. Defined.

(** A used length: a number of pixels, or the keyword [auto]. *)
Inductive Length := auto | px (v : Z).

(** The used values the layout reads through the accessors of [Style]
    ([style.getMarginBlockStart(box)] and the like; the class is in
    [style.js], which is not part of the core): the fields are the
    accessors' results for the box that carries the style. *)
Record Style := {
  float : Float;
  clear : Clear;
  writingMode : WritingMode;
  marginBlockStart : Length;
  marginBlockEnd : Length;
  marginLineLeft : Length;
  marginLineRight : Length;
  paddingBlockStart : Z;
  paddingBlockEnd : Z;
  paddingLineLeft : Z;
  paddingLineRight : Z;
  borderBlockStartWidth : Z;
  borderBlockEndWidth : Z;
  borderLineLeftWidth : Z;
  borderLineRightWidth : Z;
  blockSize : Length;
  inlineSize : Length
}.

(** Objects are referred to by identifiers; two references are the same
    object exactly when the identifiers are equal. *)
Definition BoxId := nat.
Definition AreaId := nat.

(** [BlockContainerArea]; [a_blockContainer] is [None] for an area without
    an owning box (the test [!this.blockContainer]). *)
Record BlockContainerArea := {
  a_parent : option AreaId;
  a_blockContainer : option BoxId;
  a_blockStart : Z;
  a_blockSize : Z;
  a_lineLeft : JS.num;
  a_inlineSize : Z
}.

(** The children of a block container: block containers, or one inline
    formatting context, of which the layout reads [hasText()]. *)
Inductive Children :=
| ChildBlocks (cs : list BoxId)
| ChildIfc (hasText : bool).

(** [BlockContainer]; the three flags are the bits of [attrs] the core
    reads. *)
Record BlockContainer := {
  style : Style;
  isInline : bool;
  isBfcRoot : bool;
  isFloat : bool;
  children : Children;
  borderArea : AreaId;
  paddingArea : AreaId;
  contentArea : AreaId;
  containingBlock : option AreaId
}.

(** The objects of a layout: every identifier denotes an object, as every
    reference of the program does. *)
Record World := {
  boxes : BoxId → BlockContainer;
  areas : AreaId → BlockContainerArea
}.

Definition set_area (a : AreaId) (v : BlockContainerArea) (w : World) : World :=
  {| boxes := boxes w;
     areas := λ a', if decide (a' = a) then v else areas w a' |}.

Definition with_blockStart (v : Z) (r : BlockContainerArea) :=
  {| a_parent := a_parent r; a_blockContainer := a_blockContainer r;
     a_blockStart := v; a_blockSize := a_blockSize r;
     a_lineLeft := a_lineLeft r; a_inlineSize := a_inlineSize r |}.

Definition with_blockSize (v : Z) (r : BlockContainerArea) :=
  {| a_parent := a_parent r; a_blockContainer := a_blockContainer r;
     a_blockStart := a_blockStart r; a_blockSize := v;
     a_lineLeft := a_lineLeft r; a_inlineSize := a_inlineSize r |}.

Definition with_lineLeft (v : JS.num) (r : BlockContainerArea) :=
  {| a_parent := a_parent r; a_blockContainer := a_blockContainer r;
     a_blockStart := a_blockStart r; a_blockSize := a_blockSize r;
     a_lineLeft := v; a_inlineSize := a_inlineSize r |}.

Definition is_horizontal (wm : WritingMode) : bool :=
  match wm with horizontal_tb => true | _ => false end.

(** The getter [writingMode] of a block container: that of its containing
    block, which is the writing mode of the style of the box that owns the
    area. *)
Definition box_writingMode (b : BoxId) : M World WritingMode :=
  w <- gets id ;;
  match containingBlock (boxes w b) with
  | None => throw "Cannot access writing mode: containing block never set"
  | Some cb =>
      match a_blockContainer (areas w cb) with
      | None => throw "TypeError: the area has no block container"
      | Some owner => ret (writingMode (style (boxes w owner)))
      end
  end.

(** The getter [writingMode] of an area *)
Definition area_writingMode (a : AreaId) : M World WritingMode :=
  w <- gets id ;;
  match a_blockContainer (areas w a) with
  | None => throw "TypeError: the area has no block container"
  | Some owner => ret (writingMode (style (boxes w owner)))
  end.

Definition blockSizeForWritingMode (a : AreaId) (wm : WritingMode)
  : M World Z :=
  w <- gets id ;;
  match a_blockContainer (areas w a) with
  | None => ret (a_blockSize (areas w a))
  | Some owner =>
      owm <- box_writingMode owner ;;
      if negb (eqb (is_horizontal owm) (is_horizontal wm))
      then ret (a_inlineSize (areas w a))
      else ret (a_blockSize (areas w a))
  end.

Definition inlineSizeForWritingMode (a : AreaId) (wm : WritingMode)
  : M World Z :=
  w <- gets id ;;
  match a_blockContainer (areas w a) with
  | None => ret (a_inlineSize (areas w a))
  | Some owner =>
      owm <- box_writingMode owner ;;
      if negb (eqb (is_horizontal owm) (is_horizontal wm))
      then ret (a_blockSize (areas w a))
      else ret (a_inlineSize (areas w a))
  end.

Definition setBlockPosition (b : BoxId) (position : Z) : M World unit :=
  w <- gets id ;;
  match containingBlock (boxes w b) with
  | None => throw "Inline layout called too early: no containing block"
  | Some _ =>
      let a := borderArea (boxes w b) in
      modify (set_area a (with_blockStart position (areas w a)))
  end.

Definition setInlinePosition (b : BoxId) (lineLeft : JS.num) : M World unit :=
  w <- gets id ;;
  match containingBlock (boxes w b) with
  | None => throw "Inline layout called too early: no containing block"
  | Some _ =>
      let a := borderArea (boxes w b) in
      modify (set_area a (with_lineLeft lineLeft (areas w a)))
  end.

Definition setBlockSize (b : BoxId) (size : Z) : M World unit :=
  w <- gets id ;;
  let box := boxes w b in
  match containingBlock box with
  | None => throw "Inline layout called too early: no containing block"
  | Some _ =>
      _ <- modify (λ w, set_area (contentArea box)
                          (with_blockSize size (areas w (contentArea box))) w) ;;
      _ <- (when negb (bool_decide (contentArea box = paddingArea box)) then
              modify (λ w, set_area (paddingArea box)
                (with_blockSize
                   (size + paddingBlockStart (style box)
                         + paddingBlockEnd (style box))
                   (areas w (paddingArea box))) w)) ;;
      when negb (bool_decide (paddingArea box = borderArea box)) then
        modify (λ w, set_area (borderArea box)
          (with_blockSize
             (a_blockSize (areas w (paddingArea box))
                + borderBlockStartWidth (style box)
                + borderBlockEndWidth (style box))
             (areas w (borderArea box))) w)
  end.

(** The result of [getMarginsAutoIsZero()] *)
Record Margins := {
  m_blockStart : Z;
  m_lineRight : Z;
  m_blockEnd : Z;
  m_lineLeft : Z
}.

Definition auto_is_zero (l : Length) : Z :=
  match l with auto => 0 | px v => v end.

Definition getMarginsAutoIsZero (box : BlockContainer) : Margins :=
  {| m_blockStart := auto_is_zero (marginBlockStart (style box));
     m_lineRight := auto_is_zero (marginLineRight (style box));
     m_blockEnd := auto_is_zero (marginBlockEnd (style box));
     m_lineLeft := auto_is_zero (marginLineLeft (style box)) |}.

Definition isBlockLevel (box : BlockContainer) : bool := negb (isInline box).

Definition isBlockContainerOfInlines (box : BlockContainer) : bool :=
  match children box with ChildIfc _ => true | ChildBlocks _ => false end.

Definition isBlockContainerOfBlockContainers (box : BlockContainer) : bool :=
  negb (isBlockContainerOfInlines box).

Definition canCollapseThrough (box : BlockContainer) : bool :=
  if match blockSize (style box) with
     | auto => false
     | px v => negb (v =? 0)
     end
  then false
  else match children box with
       | ChildIfc hasText => negb hasText
       | ChildBlocks cs => bool_decide (cs = [])
       end.

(** The result of [getContainingBlockToContent()] *)
Record Insets := {
  i_blockStart : Z;
  i_lineLeft : JS.num;
  i_lineRight : JS.num
}.

Definition getContainingBlockToContent (b : BoxId) : M World Insets :=
  w <- gets id ;;
  let box := boxes w b in
  match containingBlock box with
  | None => throw "Box has no containing block"
  | Some cb =>
      wm <- box_writingMode b ;;
      inlineSize <- inlineSizeForWritingMode cb wm ;;
      let bLineLeft := a_lineLeft (areas w (borderArea box)) in
      let blockStart :=
        borderBlockStartWidth (style box) + paddingBlockStart (style box) in
      wm' <- box_writingMode b ;;
      cInlineSize <- inlineSizeForWritingMode (contentArea box) wm' ;;
      let lineLeft :=
        JS.nadd (JS.nadd bLineLeft (Some (borderLineLeftWidth (style box))))
                (Some (paddingLineLeft (style box))) in
      let lineRight :=
        JS.nsub (JS.nsub (Some inlineSize) lineLeft) (Some cInlineSize) in
      ret {| i_blockStart := blockStart;
             i_lineLeft := lineLeft;
             i_lineRight := lineRight |}
  end.

(** A method of an object [T] that also reaches the boxes and areas runs on
    the pair of the object and the world. *)
Definition this {T} : M (T * World) T := gets fst.

Definition update {T} (f : T → T) : M (T * World) unit :=
  modify (λ s, (f s.1, s.2)).

Definition in_world {T A} (m : M World A) : M (T * World) A :=
  λ s, let '(r, w) := m s.2 in (r, (s.1, w)).

(** A method of a part [U] of [T], called from a method of [T] *)
Definition within {T U A} (part : T → U) (put : U → T → T)
    (m : M (U * World) A) : M (T * World) A :=
  λ s, let '(r, (u, w)) := m (part s.1, s.2) in (r, (put u s.1, w)).

(** ** [IfcVacancy] *)

Record IfcVacancy := {
  leftOffset : JS.num;
  rightOffset : JS.num;
  v_blockOffset : Z;
  v_inlineSize : JS.num;
  leftFloatCount : JS.num;
  rightFloatCount : JS.num
}.

(** ** [FloatSide] *)

(** The loop of [getEndTrack]:
    [while (end < blockOffsets.length && blockOffsets[end] < blockPosition) end++] *)
Equations? getEndTrack_loop (offsets : list Z) (blockPosition : Z) (end_ : Z)
  : Z by wf (Z.to_nat (JS.len offsets - end_)) lt :=
  getEndTrack_loop offsets blockPosition end_
    with inspect ((end_ <? JS.len offsets)
                  && JS.lt_undef (JS.get offsets end_) blockPosition) := {
    | exist _ true Hgo := getEndTrack_loop offsets blockPosition (end_ + 1)
    | exist _ false _ := end_ }.
Proof.
  apply andb_true_iff in Hgo as [Hgo _]. apply Z.ltb_lt in Hgo. lia.
Qed.

Module FloatSide.

Record t := {
  items : list BoxId;
  shelfBlockOffset : Z;
  shelfTrackIndex : Z;
  blockOffsets : list Z;
  inlineSizes : list JS.num;
  inlineOffsets : list JS.num;
  floatCounts : list JS.num
}.

(** [new FloatSide(blockOffset)] *)
Definition new (blockOffset : Z) : t :=
  {| items := [];
     shelfBlockOffset := blockOffset;
     shelfTrackIndex := 0;
     blockOffsets := [blockOffset];
     inlineSizes := [Some 0];
     inlineOffsets := [Some 0];
     floatCounts := [Some 0] |}.

Definition initialize (blockOffset : Z) (s : t) : t :=
  {| items := items s;
     shelfBlockOffset := blockOffset;
     shelfTrackIndex := shelfTrackIndex s;
     blockOffsets := [blockOffset];
     inlineSizes := inlineSizes s;
     inlineOffsets := inlineOffsets s;
     floatCounts := floatCounts s |}.

Definition getSizeOfTracks (s : t) (start end_ : Z) (inlineOffset : JS.num)
  : JS.num :=
  foldl (λ max i,
           if JS.ngt (JS.geti (floatCounts s) i) (Some 0)
           then JS.nmax max
                  (JS.nsub (JS.nadd inlineOffset (JS.geti (inlineSizes s) i))
                           (JS.geti (inlineOffsets s) i))
           else max)
        (Some 0) (seqZ start (end_ - start)).

Definition getOverflow (s : t) : JS.num :=
  getSizeOfTracks s 0 (JS.len (inlineSizes s)) (Some 0).

Definition getFloatCountOfTracks (s : t) (start end_ : Z) : JS.num :=
  foldl (λ max i, JS.nmax max (JS.geti (floatCounts s) i))
        (Some 0) (seqZ start (end_ - start)).

Definition getEndTrack (s : t) (start blockOffset blockSize : Z) : Z :=
  getEndTrack_loop (blockOffsets s) (blockOffset + blockSize) (start + 1).

(** [getTrackRange(blockOffset, blockSize)]; the second parameter defaults
    to [0]. *)
Definition getTrackRange (s : t) (blockOffset blockSize : Z) : Z * Z :=
  let start := binarySearch (blockOffsets s) blockOffset in
  let start :=
    if JS.neq_undef (JS.get (blockOffsets s) start) blockOffset
    then start - 1 else start in
  (start, getEndTrack s start blockOffset blockSize).

Definition getOccupiedSpace (s : t) (blockOffset blockSize : Z)
    (inlineOffset : JS.num) : JS.num :=
  if bool_decide (items s = []) then Some 0 else
  let '(start, end_) := getTrackRange s blockOffset blockSize in
  getSizeOfTracks s start end_ inlineOffset.

(** [this.shelfBlockOffset = blockOffset;
     [this.shelfTrackIndex] = this.getTrackRange(this.shelfBlockOffset)] *)
Definition set_shelf (blockOffset : Z) (s : t) : t :=
  {| items := items s;
     shelfBlockOffset := blockOffset;
     shelfTrackIndex := (getTrackRange s blockOffset 0).1;
     blockOffsets := blockOffsets s;
     inlineSizes := inlineSizes s;
     inlineOffsets := inlineOffsets s;
     floatCounts := floatCounts s |}.

(** [boxStart(blockOffset)]: the shelf is set to [blockOffset], whether
    that is above or below the place where it was. *)
Definition boxStart (blockOffset : Z) (s : t) : t := set_shelf blockOffset s.

Definition dropShelf (blockOffset : Z) (s : t) : t :=
  if shelfBlockOffset s <? blockOffset then set_shelf blockOffset s else s.

(** [getNextTrackOffset()] and [getBottom()]: [None] is [undefined]. *)
Definition getNextTrackOffset (s : t) : option Z :=
  if shelfTrackIndex s + 1 <? JS.len (blockOffsets s)
  then JS.get (blockOffsets s) (shelfTrackIndex s + 1)
  else JS.get (blockOffsets s) (shelfTrackIndex s).

Definition getBottom (s : t) : option Z :=
  JS.get (blockOffsets s) (JS.len (blockOffsets s) - 1).

Definition splitTrack (trackIndex blockOffset : Z) (s : t) : t :=
  let size := JS.geti (inlineSizes s) trackIndex in
  let offset := JS.geti (inlineOffsets s) trackIndex in
  let count := JS.geti (floatCounts s) trackIndex in
  {| items := items s;
     shelfBlockOffset := shelfBlockOffset s;
     shelfTrackIndex := shelfTrackIndex s;
     blockOffsets := JS.splice_insert (trackIndex + 1) blockOffset (blockOffsets s);
     inlineSizes := JS.splice_insert trackIndex size (inlineSizes s);
     inlineOffsets := JS.splice_insert trackIndex offset (inlineOffsets s);
     floatCounts := JS.splice_insert trackIndex count (floatCounts s) |}.

Definition splitIfShelfDropped (s : t) : t :=
  if JS.neq_undef (JS.get (blockOffsets s) (shelfTrackIndex s))
                  (shelfBlockOffset s)
  then
    let s := splitTrack (shelfTrackIndex s) (shelfBlockOffset s) s in
    {| items := items s;
       shelfBlockOffset := shelfBlockOffset s;
       shelfTrackIndex := shelfTrackIndex s + 1;
       blockOffsets := blockOffsets s;
       inlineSizes := inlineSizes s;
       inlineOffsets := inlineOffsets s;
       floatCounts := floatCounts s |}
  else s.

(** The body of the loop of [placeFloat] over the tracks the float
    covers; [width] is [box.borderArea.width]. *)
Definition occupy (cbOffset : JS.num) (marginOffset width marginEnd : Z)
    (s : t) (track : Z) : t :=
  if JS.is_zero (JS.geti (floatCounts s) track)
  then
    {| items := items s;
       shelfBlockOffset := shelfBlockOffset s;
       shelfTrackIndex := shelfTrackIndex s;
       blockOffsets := blockOffsets s;
       inlineSizes :=
         JS.seti track (Some (marginOffset + width + marginEnd)) (inlineSizes s);
       inlineOffsets := JS.seti track (JS.nneg cbOffset) (inlineOffsets s);
       floatCounts :=
         JS.seti track (JS.nadd (JS.geti (floatCounts s) track) (Some 1))
                 (floatCounts s) |}
  else
    {| items := items s;
       shelfBlockOffset := shelfBlockOffset s;
       shelfTrackIndex := shelfTrackIndex s;
       blockOffsets := blockOffsets s;
       inlineSizes :=
         JS.seti track
           (JS.nadd (JS.nadd (JS.nadd (JS.nadd
              (JS.geti (inlineOffsets s) track) cbOffset)
              (Some marginOffset)) (Some width)) (Some marginEnd))
           (inlineSizes s);
       inlineOffsets := inlineOffsets s;
       floatCounts :=
         JS.seti track (JS.nadd (JS.geti (floatCounts s) track) (Some 1))
                 (floatCounts s) |}.

Definition push_item (b : BoxId) (s : t) : t :=
  {| items := items s ++ [b];
     shelfBlockOffset := shelfBlockOffset s;
     shelfTrackIndex := shelfTrackIndex s;
     blockOffsets := blockOffsets s;
     inlineSizes := inlineSizes s;
     inlineOffsets := inlineOffsets s;
     floatCounts := floatCounts s |}.

Definition placeFloat (b : BoxId) (vacancy : IfcVacancy)
    (cbLineLeft cbLineRight : JS.num) : M (t * World) unit :=
  box <- in_world (gets (λ w, boxes w b)) ;;
  if bool_decide (float (style box) = float_none)
  then throw "Tried to place float:none" else
  s <- this ;;
  if negb (v_blockOffset vacancy =? shelfBlockOffset s)
  then throw "Assertion failed" else
  _ <- update splitIfShelfDropped ;;
  s <- this ;;
  let startTrack := shelfTrackIndex s in
  let margins := getMarginsAutoIsZero box in
  border <- in_world (gets (λ w, areas w (borderArea box))) ;;
  let blockSize :=
    a_blockSize border + m_blockStart margins + m_blockEnd margins in
  let blockEndOffset := shelfBlockOffset s + blockSize in
  endTrack <-
    (if 0 <? blockSize then
       let endTrack := getEndTrack s startTrack (shelfBlockOffset s) blockSize in
       _ <- (when JS.neq_undef (JS.get (blockOffsets s) endTrack) blockEndOffset
             then update (splitTrack (endTrack - 1) blockEndOffset)) ;;
       ret endTrack
     else ret startTrack) ;;
  let isLeft := bool_decide (float (style box) = float_left) in
  let cbOffset := if isLeft then leftOffset vacancy else rightOffset vacancy in
  let cbLineSide := if isLeft then cbLineLeft else cbLineRight in
  let marginOffset := if isLeft then m_lineLeft margins else m_lineRight margins in
  let marginEnd := if isLeft then m_lineRight margins else m_lineLeft margins in
  _ <- (if isLeft then
          in_world (setInlinePosition b
            (JS.nadd (JS.nsub cbOffset cbLineSide) (Some marginOffset)))
        else
          match containingBlock box with
          | None => throw "The box has no containing block"
          | Some cb =>
              wm <- in_world (area_writingMode cb) ;;
              inlineSize <- in_world (inlineSizeForWritingMode cb wm) ;;
              wm' <- in_world (area_writingMode cb) ;;
              size <- in_world (inlineSizeForWritingMode (borderArea box) wm') ;;
              in_world (setInlinePosition b
                (JS.nsub (JS.nsub (JS.nadd (JS.nsub cbOffset cbLineSide)
                   (Some inlineSize)) (Some marginOffset)) (Some size)))
          end) ;;
  width <- in_world (gets (λ w, a_inlineSize (areas w (borderArea box)))) ;;
  _ <- update (λ s, foldl (occupy cbOffset marginOffset width marginEnd) s
                      (seqZ startTrack (endTrack - startTrack))) ;;
  update (push_item b).

End FloatSide.

(** ** [FloatContext] *)

(** What a float context reads of the block formatting context it belongs
    to, through its reference [bfc]. *)
Record BfcView := {
  bfc_inlineSize : Z;
  bfc_cbBlockStart : Z;
  bfc_cbLineLeft : JS.num;
  bfc_cbLineRight : JS.num
}.

(** What [postLine] reads of a [Linebox]: [line.blockOffset] and
    [line.height()]. *)
Record Linebox := {
  l_blockOffset : Z;
  l_height : Z
}.

Inductive Side := Left | Right.

Module FloatContext.

Record t := {
  leftFloats : FloatSide.t;
  rightFloats : FloatSide.t;
  misfits : list BoxId
}.

(** [new FloatContext(bfc, blockOffset)] *)
Definition new (blockOffset : Z) : t :=
  {| leftFloats := FloatSide.new blockOffset;
     rightFloats := FloatSide.new blockOffset;
     misfits := [] |}.

Definition side (sd : Side) (f : t) : FloatSide.t :=
  match sd with Left => leftFloats f | Right => rightFloats f end.

Definition put_side (sd : Side) (s : FloatSide.t) (f : t) : t :=
  match sd with
  | Left => {| leftFloats := s; rightFloats := rightFloats f;
               misfits := misfits f |}
  | Right => {| leftFloats := leftFloats f; rightFloats := s;
                misfits := misfits f |}
  end.

Definition opposite (sd : Side) : Side :=
  match sd with Left => Right | Right => Left end.

Definition set_misfits (q : list BoxId) (f : t) : t :=
  {| leftFloats := leftFloats f; rightFloats := rightFloats f; misfits := q |}.

Definition boxStart (bfc : BfcView) (f : t) : t :=
  {| leftFloats := FloatSide.boxStart (bfc_cbBlockStart bfc) (leftFloats f);
     rightFloats := FloatSide.boxStart (bfc_cbBlockStart bfc) (rightFloats f);
     misfits := misfits f |}.

Definition getVacancyForLine (bfc : BfcView) (f : t) (blockOffset blockSize : Z)
  : IfcVacancy :=
  let leftInlineSpace :=
    FloatSide.getOccupiedSpace (leftFloats f) blockOffset blockSize
      (JS.nneg (bfc_cbLineLeft bfc)) in
  let rightInlineSpace :=
    FloatSide.getOccupiedSpace (rightFloats f) blockOffset blockSize
      (JS.nneg (bfc_cbLineRight bfc)) in
  let leftOffset := JS.nadd (bfc_cbLineLeft bfc) leftInlineSpace in
  let rightOffset := JS.nadd (bfc_cbLineRight bfc) rightInlineSpace in
  let inlineSize :=
    JS.nsub (JS.nsub (Some (bfc_inlineSize bfc)) leftOffset) rightOffset in
  {| leftOffset := leftOffset; rightOffset := rightOffset;
     v_blockOffset := blockOffset; v_inlineSize := inlineSize;
     leftFloatCount := Some 0; rightFloatCount := Some 0 |}.

(** [getVacancyForBox(box)]; [float] is [box.style.float] and [height] is
    [box.borderArea.height]. *)
Definition getVacancyForBox (bfc : BfcView) (f : t) (float : Float) (height : Z)
  : IfcVacancy :=
  let isLeft := bool_decide (float = float_left) in
  let floats := if isLeft then leftFloats f else rightFloats f in
  let oppositeFloats := if isLeft then rightFloats f else leftFloats f in
  let inlineOffset :=
    if isLeft then JS.nneg (bfc_cbLineLeft bfc)
    else JS.nneg (bfc_cbLineRight bfc) in
  let oppositeInlineOffset :=
    if isLeft then JS.nneg (bfc_cbLineRight bfc)
    else JS.nneg (bfc_cbLineLeft bfc) in
  let blockOffset := FloatSide.shelfBlockOffset floats in
  let blockSize := height in
  let startTrack := FloatSide.shelfTrackIndex floats in
  let endTrack := FloatSide.getEndTrack floats startTrack blockOffset blockSize in
  let inlineSpace :=
    FloatSide.getSizeOfTracks floats startTrack endTrack inlineOffset in
  let '(oppositeStartTrack, oppositeEndTrack) :=
    FloatSide.getTrackRange oppositeFloats blockOffset blockSize in
  let oppositeInlineSpace :=
    FloatSide.getSizeOfTracks oppositeFloats oppositeStartTrack
      oppositeEndTrack oppositeInlineOffset in
  let leftOffset :=
    JS.nadd (bfc_cbLineLeft bfc)
            (if isLeft then inlineSpace else oppositeInlineSpace) in
  let rightOffset :=
    JS.nadd (bfc_cbLineRight bfc)
            (if bool_decide (float = float_right)
             then inlineSpace else oppositeInlineSpace) in
  let inlineSize :=
    JS.nsub (JS.nsub (Some (bfc_inlineSize bfc)) leftOffset) rightOffset in
  let floatCount :=
    FloatSide.getFloatCountOfTracks floats startTrack endTrack in
  let oppositeFloatCount :=
    FloatSide.getFloatCountOfTracks oppositeFloats oppositeStartTrack
      oppositeEndTrack in
  let leftFloatCount := if isLeft then floatCount else oppositeFloatCount in
  let rightFloatCount := if isLeft then oppositeFloatCount else floatCount in
  {| leftOffset := leftOffset; rightOffset := rightOffset;
     v_blockOffset := blockOffset; v_inlineSize := inlineSize;
     leftFloatCount := leftFloatCount; rightFloatCount := rightFloatCount |}.

Definition getLeftBottom (f : t) : option Z := FloatSide.getBottom (leftFloats f).

Definition getRightBottom (f : t) : option Z :=
  FloatSide.getBottom (rightFloats f).

Definition getBothBottom (f : t) : JS.num :=
  JS.nmax (FloatSide.getBottom (leftFloats f))
          (FloatSide.getBottom (rightFloats f)).

(** [side.dropShelf(v)] for [v] possibly [undefined]: then the test
    [blockOffset > this.shelfBlockOffset] is false. *)
Definition dropShelf_to (v : option Z) (s : FloatSide.t) : FloatSide.t :=
  match v with
  | Some blockOffset => FloatSide.dropShelf blockOffset s
  | None => s
  end.

Definition placeFloat (bfc : BfcView) (lineWidth : Z) (lineIsEmpty : bool)
    (b : BoxId) : M (t * World) unit :=
  box <- in_world (gets (λ w, boxes w b)) ;;
  if bool_decide (float (style box) = float_none)
  then throw "Attempted to place float: none" else
  f <- this ;;
  if negb (bool_decide (misfits f = []))
  then update (λ f, set_misfits (misfits f ++ [b]) f) else
  let isLeft := bool_decide (float (style box) = float_left) in
  let sd := if isLeft then Left else Right in
  _ <- (when bool_decide (clear (style box) = clear_left)
             || bool_decide (clear (style box) = clear_both)
        then update (λ f, put_side sd
               (dropShelf_to (FloatSide.getBottom (leftFloats f)) (side sd f)) f)) ;;
  _ <- (when bool_decide (clear (style box) = clear_right)
             || bool_decide (clear (style box) = clear_both)
        then update (λ f, put_side sd
               (dropShelf_to (FloatSide.getBottom (rightFloats f)) (side sd f)) f)) ;;
  f <- this ;;
  border <- in_world (gets (λ w, areas w (borderArea box))) ;;
  let vacancy :=
    getVacancyForBox bfc f (float (style box)) (a_blockSize border) in
  let margins := getMarginsAutoIsZero box in
  let inlineMargin := m_lineLeft margins + m_lineRight margins in
  if JS.nle (Some (a_inlineSize border + inlineMargin))
            (JS.nsub (v_inlineSize vacancy) (Some lineWidth))
     || (lineIsEmpty && JS.is_zero (leftFloatCount vacancy)
                     && JS.is_zero (rightFloatCount vacancy))
  then
    _ <- in_world (setBlockPosition b
           (FloatSide.shelfBlockOffset (side sd f) + m_blockStart margins
              - bfc_cbBlockStart bfc)) ;;
    within (side sd) (put_side sd)
      (FloatSide.placeFloat b vacancy (bfc_cbLineLeft bfc) (bfc_cbLineRight bfc))
  else
    _ <- (if JS.ngt (Some (a_inlineSize border + inlineMargin))
                    (v_inlineSize vacancy)
          then
            let count :=
              if isLeft then leftFloatCount vacancy
              else rightFloatCount vacancy in
            let oppositeCount :=
              if isLeft then rightFloatCount vacancy
              else leftFloatCount vacancy in
            if JS.ngt count (Some 0) then
              update (λ f, put_side sd
                (dropShelf_to (FloatSide.getNextTrackOffset (side sd f))
                   (side sd f)) f)
            else if JS.ngt oppositeCount (Some 0) then
              let trackIndex :=
                (FloatSide.getTrackRange (side (opposite sd) f)
                   (FloatSide.shelfBlockOffset (side sd f)) 0).2 in
              if trackIndex
                   =? JS.len (FloatSide.blockOffsets (side (opposite sd) f))
              then throw "assertion failed"
              else
                update (λ f, put_side sd
                  (dropShelf_to
                     (JS.get (FloatSide.blockOffsets (side (opposite sd) f))
                             trackIndex)
                     (side sd f)) f)
            else ret tt
          else ret tt) ;;
    update (λ f, set_misfits (misfits f ++ [b]) f).

(** [for (const box of misfits) this.placeFloat(0, true, box)] *)
Fixpoint retry (bfc : BfcView) (queue : list BoxId) : M (t * World) unit :=
  match queue with
  | [] => ret tt
  | b :: queue =>
      _ <- placeFloat bfc 0 true b ;;
      retry bfc queue
  end.

(** The body of the loop of [consumeMisfits] *)
Definition consumeMisfits_round (bfc : BfcView) : M (t * World) unit :=
  f <- this ;;
  _ <- update (set_misfits []) ;;
  retry bfc (misfits f).

(** [consumeMisfits()]: [while (this.misfits.length) { ... }].  [None] when
    the loop has not been left after [fuel] rounds. *)
Fixpoint consumeMisfits (fuel : nat) (bfc : BfcView) (s : t * World)
  : option (result unit * (t * World)) :=
  if bool_decide (misfits s.1 = []) then Some (Ok tt, s) else
  match fuel with
  | O => None
  | S fuel =>
      match consumeMisfits_round bfc s with
      | (Ok _, s') => consumeMisfits fuel bfc s'
      | (Throw msg, s') => Some (Throw msg, s')
      end
  end.

Definition dropShelf (blockOffset : Z) (f : t) : t :=
  {| leftFloats := FloatSide.dropShelf blockOffset (leftFloats f);
     rightFloats := FloatSide.dropShelf blockOffset (rightFloats f);
     misfits := misfits f |}.

Definition postLine (fuel : nat) (bfc : BfcView) (line : Linebox)
    (didBreak : bool) (s : t * World) : option (result unit * (t * World)) :=
  let f :=
    if didBreak || negb (bool_decide (misfits s.1 = []))
    then dropShelf (bfc_cbBlockStart bfc + l_blockOffset line + l_height line) s.1
    else s.1 in
  consumeMisfits fuel bfc (f, s.2).

Definition preTextContent (fuel : nat) (bfc : BfcView) (s : t * World)
  : option (result unit * (t * World)) :=
  consumeMisfits fuel bfc s.

End FloatContext.

(** ** [BlockFormattingContext] *)

(** [a[k] += v] on a stack of numbers; [None] when [k] is not an index of
    [a]. *)
Definition add_at (k : Z) (v : Z) (a : list Z) : option (list Z) :=
  match JS.get a k with
  | Some x => Some (<[Z.to_nat k := x + v]> a)
  | None => None
  end.

(** [a.pop()]: the last element and the elements before it. *)
Definition pop (a : list Z) : option (Z * list Z) :=
  match last a with
  | Some x => Some (x, take (length a - 1) a)
  | None => None
  end.

Module BlockFormattingContext.

Inductive StackItem :=
| Start (b : BoxId)
| Post (b : BoxId).

Inductive Last := last_start | last_end.

Record Margin := {
  m_level : Z;
  collection : MarginCollapseCollection.t;
  clearanceAtLevel : option Z
}.

Record t := mk {
  inlineSize : Z;
  fctx : option FloatContext.t;
  stack : list StackItem;
  cbBlockStart : Z;
  cbLineLeft : JS.num;
  cbLineRight : JS.num;
  sizeStack : list Z;
  offsetStack : list Z;
  last : option Last;
  level : Z;
  hypotheticals : gmap nat Z;
  margin : Margin
}.

(** [new BlockFormattingContext(inlineSize)] *)
Definition new (inlineSize : Z) : t :=
  {| inlineSize := inlineSize;
     fctx := None;
     stack := [];
     cbBlockStart := 0;
     cbLineLeft := Some 0;
     cbLineRight := Some 0;
     sizeStack := [0];
     offsetStack := [0];
     last := None;
     level := 0;
     hypotheticals := ∅;
     margin := {| m_level := 0;
                  collection := MarginCollapseCollection.fresh;
                  clearanceAtLevel := None |} |}.

Definition set_fctx v (b : t) :=
  mk (inlineSize b) v (stack b) (cbBlockStart b) (cbLineLeft b) (cbLineRight b)
     (sizeStack b) (offsetStack b) (last b) (level b) (hypotheticals b) (margin b).
Definition set_stack v (b : t) :=
  mk (inlineSize b) (fctx b) v (cbBlockStart b) (cbLineLeft b) (cbLineRight b)
     (sizeStack b) (offsetStack b) (last b) (level b) (hypotheticals b) (margin b).
Definition set_cbBlockStart v (b : t) :=
  mk (inlineSize b) (fctx b) (stack b) v (cbLineLeft b) (cbLineRight b)
     (sizeStack b) (offsetStack b) (last b) (level b) (hypotheticals b) (margin b).
Definition set_cbLineLeft v (b : t) :=
  mk (inlineSize b) (fctx b) (stack b) (cbBlockStart b) v (cbLineRight b)
     (sizeStack b) (offsetStack b) (last b) (level b) (hypotheticals b) (margin b).
Definition set_cbLineRight v (b : t) :=
  mk (inlineSize b) (fctx b) (stack b) (cbBlockStart b) (cbLineLeft b) v
     (sizeStack b) (offsetStack b) (last b) (level b) (hypotheticals b) (margin b).
Definition set_sizeStack v (b : t) :=
  mk (inlineSize b) (fctx b) (stack b) (cbBlockStart b) (cbLineLeft b) (cbLineRight b)
     v (offsetStack b) (last b) (level b) (hypotheticals b) (margin b).
Definition set_offsetStack v (b : t) :=
  mk (inlineSize b) (fctx b) (stack b) (cbBlockStart b) (cbLineLeft b) (cbLineRight b)
     (sizeStack b) v (last b) (level b) (hypotheticals b) (margin b).
Definition set_last v (b : t) :=
  mk (inlineSize b) (fctx b) (stack b) (cbBlockStart b) (cbLineLeft b) (cbLineRight b)
     (sizeStack b) (offsetStack b) v (level b) (hypotheticals b) (margin b).
Definition set_level v (b : t) :=
  mk (inlineSize b) (fctx b) (stack b) (cbBlockStart b) (cbLineLeft b) (cbLineRight b)
     (sizeStack b) (offsetStack b) (last b) v (hypotheticals b) (margin b).
Definition set_hypotheticals v (b : t) :=
  mk (inlineSize b) (fctx b) (stack b) (cbBlockStart b) (cbLineLeft b) (cbLineRight b)
     (sizeStack b) (offsetStack b) (last b) (level b) v (margin b).
Definition set_margin v (b : t) :=
  mk (inlineSize b) (fctx b) (stack b) (cbBlockStart b) (cbLineLeft b) (cbLineRight b)
     (sizeStack b) (offsetStack b) (last b) (level b) (hypotheticals b) v.

(** What the float context reads through its reference to this context *)
Definition view (b : t) : BfcView :=
  {| bfc_inlineSize := inlineSize b;
     bfc_cbBlockStart := cbBlockStart b;
     bfc_cbLineLeft := cbLineLeft b;
     bfc_cbLineRight := cbLineRight b |}.

(** The stacks [sizeStack] and [offsetStack] hold numbers; where the
    program would index one of them outside its bounds, or pop an empty
    one, and go on with [undefined], the model stops with this exception. *)
Definition outside_the_model {S A} : M S A :=
  throw "outside the model: a stack was read outside its bounds".

(** The body of the loop of [positionBlockContainers], with the local
    variables [passedMarginLevel] and [levelNeedsPostOffset]; [net] is the
    constant [margin] of the method. *)
Definition position_item (net : Z) (locals : bool * Z) (item : StackItem)
  : M (t * World) (bool * Z) :=
  let '(passedMarginLevel, levelNeedsPostOffset) := locals in
  match item with
  | Post b =>
      bfc <- this ;;
      box <- in_world (gets (λ w, boxes w b)) ;;
      match pop (sizeStack bfc), pop (offsetStack bfc) with
      | Some (childSize, sizes), Some (offset, offsets) =>
          _ <- update (set_sizeStack sizes) ;;
          _ <- update (set_offsetStack offsets) ;;
          let level := JS.len sizes - 1 in
          _ <- (when match blockSize (style box) with
                     | auto => true | px _ => false end
                     && isBlockContainerOfBlockContainers box
                     && negb (isBfcRoot box)
                then in_world (setBlockSize b childSize)) ;;
          wm <- in_world (box_writingMode b) ;;
          blockSize <- in_world (blockSizeForWritingMode (borderArea box) wm) ;;
          match add_at level blockSize sizes with
          | None => outside_the_model
          | Some sizes =>
              _ <- update (set_sizeStack sizes) ;;
              _ <- update (set_cbBlockStart (offset + blockSize)) ;;
              if level <? levelNeedsPostOffset then
                _ <- update (λ bfc, set_cbBlockStart (cbBlockStart bfc + net) bfc) ;;
                ret (passedMarginLevel, levelNeedsPostOffset - 1)
              else ret (passedMarginLevel, levelNeedsPostOffset)
          end
      | _, _ => outside_the_model
      end
  | Start b =>
      bfc <- this ;;
      let hypothetical := hypotheticals bfc !! b in
      let level := JS.len (sizeStack bfc) - 1 in
      match JS.get (sizeStack bfc) level with
      | None => outside_the_model
      | Some blockOffset =>
          let passedMarginLevel :=
            if negb passedMarginLevel then m_level (margin bfc) =? level
            else passedMarginLevel in
          let blockOffset :=
            if negb passedMarginLevel then blockOffset + net
            else blockOffset in
          let blockOffset :=
            match hypothetical with
            | Some h => blockOffset - (net - h)
            | None => blockOffset
            end in
          _ <- in_world (setBlockPosition b blockOffset) ;;
          _ <- update (λ bfc, set_sizeStack (sizeStack bfc ++ [0]) bfc) ;;
          _ <- update (λ bfc, set_offsetStack
                                (offsetStack bfc ++ [cbBlockStart bfc]) bfc) ;;
          ret (passedMarginLevel, levelNeedsPostOffset)
      end
  end.

Fixpoint position_items (net : Z) (locals : bool * Z)
    (items : list StackItem) : M (t * World) unit :=
  match items with
  | [] => ret tt
  | item :: items =>
      locals <- position_item net locals item ;;
      position_items net locals items
  end.

Definition positionBlockContainers : M (t * World) unit :=
  bfc <- this ;;
  let net := MarginCollapseCollection.get (collection (margin bfc)) in
  let passedMarginLevel :=
    m_level (margin bfc) =? JS.len (offsetStack bfc) - 1 in
  let levelNeedsPostOffset := JS.len (offsetStack bfc) - 1 in
  match add_at (m_level (margin bfc)) net (sizeStack bfc) with
  | None => outside_the_model
  | Some sizes =>
      _ <- update (set_sizeStack sizes) ;;
      _ <- update (set_cbBlockStart (cbBlockStart bfc + net)) ;;
      _ <- position_items net (passedMarginLevel, levelNeedsPostOffset)
             (stack bfc) ;;
      update (set_stack [])
  end.

Definition ensureFloatContext (blockOffset : Z) (bfc : t) : t :=
  match fctx bfc with
  | Some _ => bfc
  | None => set_fctx (Some (FloatContext.new blockOffset)) bfc
  end.

Definition new_margin (level : Z) (c : MarginCollapseCollection.t)
    (clearanceAtLevel : option Z) : Margin :=
  {| m_level := level; collection := c; clearanceAtLevel := clearanceAtLevel |}.

Definition margin_add (v : Z) (m : Margin) : Margin :=
  new_margin (m_level m) (MarginCollapseCollection.add v (collection m))
    (clearanceAtLevel m).

Section text_layout.

(** The text subsystem is not part of the core: [ifc.doTextLayout(ctx)]
    for the inline formatting context of a box is any computation on this
    context and the world that ends with [ifc.paragraph.height]. *)
Variable ifc_doTextLayout : BoxId → M (t * World) Z.

(** [BlockContainer.doTextLayout(ctx)] *)
Definition doTextLayout (b : BoxId) : M (t * World) unit :=
  box <- in_world (gets (λ w, boxes w b)) ;;
  if negb (isBlockContainerOfInlines box)
  then throw "Children are block containers" else
  height <- ifc_doTextLayout b ;;
  when match blockSize (style box) with auto => true | px _ => false end
  then in_world (setBlockSize b height).

(** [Math.max(floatBottom, v)] for the bottom [v] of a side *)
Definition max_bottom (floatBottom : Z) (v : option Z) : M (t * World) Z :=
  match v with
  | Some x => ret (Z.max floatBottom x)
  | None => outside_the_model
  end.

Definition boxStart (b : BoxId) : M (t * World) unit :=
  box <- in_world (gets (λ w, boxes w b)) ;;
  insets <- in_world (getContainingBlockToContent b) ;;
  let paddingBlockStart := paddingBlockStart (style box) in
  let borderBlockStartWidth := borderBlockStartWidth (style box) in
  match marginBlockStart (style box) with
  | auto => throw "The value accessed here has not been reduced to a used value"
  | px marginBlockStart =>
      bfc <- this ;;
      floatBottom <-
        match fctx bfc with
        | Some f =>
            if bool_decide (clear (style box) = clear_left)
               || bool_decide (clear (style box) = clear_both)
            then max_bottom 0 (FloatContext.getLeftBottom f) else ret 0
        | None => ret 0
        end ;;
      floatBottom <-
        match fctx bfc with
        | Some f =>
            if bool_decide (clear (style box) = clear_right)
               || bool_decide (clear (style box) = clear_both)
            then max_bottom floatBottom (FloatContext.getRightBottom f)
            else ret floatBottom
        | None => ret floatBottom
        end ;;
      let clearance :=
        if negb (bool_decide (clear (style box) = clear_none)) then
          let hypo :=
            MarginCollapseCollection.get
              (MarginCollapseCollection.add marginBlockStart
                 (MarginCollapseCollection.clone (collection (margin bfc)))) in
          Z.max 0 (floatBottom - (cbBlockStart bfc + hypo))
        else 0 in
      let adjoinsPrevious := clearance =? 0 in
      let adjoinsNext :=
        (paddingBlockStart =? 0) && (borderBlockStartWidth =? 0) in
      if negb (isBlockLevel box) then throw "Inline encountered" else
      _ <- (if adjoinsPrevious then
              update (λ bfc, set_margin (margin_add marginBlockStart (margin bfc)) bfc)
            else
              _ <- positionBlockContainers ;;
              bfc <- this ;;
              let c := floatBottom - cbBlockStart bfc in
              update (set_margin
                (new_margin (level bfc) (MarginCollapseCollection.new c)
                   (if canCollapseThrough box then Some (level bfc) else None)))) ;;
      _ <- update (set_last (Some last_start)) ;;
      _ <- update (λ bfc, set_level (level bfc + 1) bfc) ;;
      _ <- update (λ bfc, set_cbLineLeft
                            (JS.nadd (cbLineLeft bfc) (i_lineLeft insets)) bfc) ;;
      _ <- update (λ bfc, set_cbLineRight
                            (JS.nadd (cbLineRight bfc) (i_lineRight insets)) bfc) ;;
      _ <- update (λ bfc, set_stack (stack bfc ++ [Start b]) bfc) ;;
      _ <- (when isBlockContainerOfInlines box then
              update (λ bfc, set_cbBlockStart
                (cbBlockStart bfc
                   + (i_blockStart insets
                      + MarginCollapseCollection.get (collection (margin bfc))))
                bfc)) ;;
      _ <- update (λ bfc,
             match fctx bfc with
             | Some f => set_fctx (Some (FloatContext.boxStart (view bfc) f)) bfc
             | None => bfc
             end) ;;
      _ <- (when isBlockContainerOfInlines box then
              (_ <- doTextLayout b ;;
               update (λ bfc, set_cbBlockStart
                 (cbBlockStart bfc
                    - (i_blockStart insets
                       + MarginCollapseCollection.get (collection (margin bfc))))
                 bfc))) ;;
      when negb adjoinsNext then
        (_ <- positionBlockContainers ;;
         update (λ bfc, set_margin
           (new_margin (level bfc) MarginCollapseCollection.fresh None) bfc))
  end.

Definition boxEnd (b : BoxId) : M (t * World) unit :=
  box <- in_world (gets (λ w, boxes w b)) ;;
  insets <- in_world (getContainingBlockToContent b) ;;
  let paddingBlockEnd := paddingBlockEnd (style box) in
  let borderBlockEndWidth := borderBlockEndWidth (style box) in
  bfc <- this ;;
  let adjoins :=
    (paddingBlockEnd =? 0) && (borderBlockEndWidth =? 0)
    && match clearanceAtLevel (margin bfc) with
       | None => true
       | Some l => l <? level bfc
       end in
  match marginBlockEnd (style box) with
  | auto => throw "The value accessed here has not been reduced to a used value"
  | px marginBlockEnd =>
      if negb (isBlockLevel box) then throw "Inline encountered" else
      let adjoins :=
        if adjoins then
          match last bfc with
          | Some last_start => canCollapseThrough box
          | _ => match blockSize (style box) with
                 | auto => true | px _ => false end
          end
        else adjoins in
      _ <- update (λ bfc, set_stack (stack bfc ++ [Post b]) bfc) ;;
      _ <- update (λ bfc, set_level (level bfc - 1) bfc) ;;
      _ <- update (λ bfc, set_cbLineLeft
                            (JS.nsub (cbLineLeft bfc) (i_lineLeft insets)) bfc) ;;
      _ <- update (λ bfc, set_cbLineRight
                            (JS.nsub (cbLineRight bfc) (i_lineRight insets)) bfc) ;;
      _ <- (when negb adjoins then
              (_ <- positionBlockContainers ;;
               update (λ bfc, set_margin
                 (new_margin (level bfc) MarginCollapseCollection.fresh None) bfc))) ;;
      _ <- update (λ bfc,
             match last bfc with
             | Some last_start =>
                 set_hypotheticals
                   (<[b := MarginCollapseCollection.get (collection (margin bfc))]>
                      (hypotheticals bfc)) bfc
             | _ => bfc
             end) ;;
      _ <- update (λ bfc, set_margin (margin_add marginBlockEnd (margin bfc)) bfc) ;;
      _ <- update (λ bfc,
             if level bfc <? m_level (margin bfc)
             then set_margin (new_margin (level bfc) (collection (margin bfc))
                                (clearanceAtLevel (margin bfc))) bfc
             else bfc) ;;
      update (set_last (Some last_end))
  end.

Definition finalize (b : BoxId) : M (t * World) unit :=
  box <- in_world (gets (λ w, boxes w b)) ;;
  if negb (isBfcRoot box) then throw "This is for bfc roots only" else
  _ <- positionBlockContainers ;;
  match blockSize (style box) with
  | px _ => ret tt
  | auto =>
      lineboxHeight <-
        (if isBlockContainerOfInlines box then
           wm <- in_world (box_writingMode b) ;;
           in_world (blockSizeForWritingMode (contentArea box) wm)
         else ret 0) ;;
      bfc <- this ;;
      match match fctx bfc with
            | Some f => FloatContext.getBothBottom f
            | None => Some 0
            end with
      | Some bothBottom =>
          in_world (setBlockSize b
            (Z.max (Z.max lineboxHeight (cbBlockStart bfc)) bothBottom))
      | None => outside_the_model
      end
  end.

End text_layout.

End BlockFormattingContext.

(** ** The collapse-through scenario

    A root of a block formatting context (box [0]) has one child, the
    parent (box [1]), whose only child is an empty block (box [2]); no box
    has borders or padding, so the three areas of a box are one object
    (area [n] for box [n]), and every block size is [auto].  Area [3] is
    the initial containing block.  The world is the one [layoutBlockBox]
    has built when it calls [boxStart]: containing blocks are assigned, the
    inline sizes are resolved to the width of the containing block, and the
    childless box has got the block size [0]
    ([doBlockBoxModelForBlockBox]). *)

Definition plain_style (marginTop marginBottom : Z) : Style :=
  {| float := float_none; clear := clear_none; writingMode := horizontal_tb;
     marginBlockStart := px marginTop; marginBlockEnd := px marginBottom;
     marginLineLeft := px 0; marginLineRight := px 0;
     paddingBlockStart := 0; paddingBlockEnd := 0;
     paddingLineLeft := 0; paddingLineRight := 0;
     borderBlockStartWidth := 0; borderBlockEndWidth := 0;
     borderLineLeftWidth := 0; borderLineRightWidth := 0;
     blockSize := auto; inlineSize := auto |}.

Definition plain_box (s : Style) (bfcRoot : bool) (cs : list BoxId)
    (area : AreaId) (cb : AreaId) : BlockContainer :=
  {| style := s; isInline := false; isBfcRoot := bfcRoot; isFloat := false;
     children := ChildBlocks cs;
     borderArea := area; paddingArea := area; contentArea := area;
     containingBlock := Some cb |}.

Definition plain_area (parent : option AreaId) (owner : BoxId) (width : Z)
  : BlockContainerArea :=
  {| a_parent := parent; a_blockContainer := Some owner;
     a_blockStart := 0; a_blockSize := 0;
     a_lineLeft := Some 0; a_inlineSize := width |}.

Definition collapse_through_world : World :=
  {| boxes := λ b,
       match b with
       | 1%nat => plain_box (plain_style 10 0) false [2%nat] 1%nat 0%nat
       | 2%nat => plain_box (plain_style 20 5) false [] 2%nat 1%nat
       | _ => plain_box (plain_style 0 0) true [1%nat] 0%nat 3%nat
       end;
     areas := λ a,
       match a with
       | 1%nat => plain_area (Some 0%nat) 1%nat 300
       | 2%nat => plain_area (Some 1%nat) 2%nat 300
       | 3%nat => plain_area None 0%nat 300
       | _ => plain_area (Some 3%nat) 0%nat 300
       end |}.

(** The calls [layoutBlockBox] makes on the context of the root while it
    lays out the parent, followed by the [finalize] of the root. *)
Definition collapse_through_layout
    (ifc_doTextLayout : BoxId → M (BlockFormattingContext.t * World) Z)
  : M (BlockFormattingContext.t * World) unit :=
  _ <- BlockFormattingContext.boxStart ifc_doTextLayout 1%nat ;;
  _ <- BlockFormattingContext.boxStart ifc_doTextLayout 2%nat ;;
  _ <- BlockFormattingContext.boxEnd 2%nat ;;
  _ <- BlockFormattingContext.boxEnd 1%nat ;;
  BlockFormattingContext.finalize 0%nat.

(** ** Tracks, invariants and reachable states of a float side *)

(** Track [i] contains the block offset [x]: its top is at or above [x]
    and the top of the next track, if there is one, is below [x].  The
    index [-1] stands for the space above the first track. *)
Definition track_contains (offsets : list Z) (i : Z) (x : Z) : Prop :=
  -1 ≤ i < JS.len offsets ∧
  (∀ y, JS.get offsets i = Some y → y ≤ x) ∧
  (∀ y, JS.get offsets (i + 1) = Some y → x < y).

(** [e] is the first index after [start] whose track has its top at or
    below the position [pos] on the block axis (that is, top [>= pos]), or
    the number of tracks when there is none. *)
Definition first_track_from (offsets : list Z) (start : Z) (pos : Z) (e : Z)
  : Prop :=
  start < e ≤ JS.len offsets ∧
  (∀ j, start < j < e → ∃ y, JS.get offsets j = Some y ∧ y < pos) ∧
  (∀ y, JS.get offsets e = Some y → pos ≤ y).

(** The four arrays of tracks have the same length. *)
Definition same_lengths (s : FloatSide.t) : Prop :=
  JS.len (FloatSide.blockOffsets s) = JS.len (FloatSide.inlineSizes s) ∧
  JS.len (FloatSide.blockOffsets s) = JS.len (FloatSide.inlineOffsets s) ∧
  JS.len (FloatSide.blockOffsets s) = JS.len (FloatSide.floatCounts s).

(** The shelf lies in the track [shelfTrackIndex]. *)
Definition shelf_on_track (s : FloatSide.t) : Prop :=
  track_contains (FloatSide.blockOffsets s) (FloatSide.shelfTrackIndex s)
    (FloatSide.shelfBlockOffset s).

(** The invariant of a float side *)
Definition well_formed (s : FloatSide.t) : Prop :=
  FloatSide.blockOffsets s ≠ [] ∧
  strictly_increasing (FloatSide.blockOffsets s) ∧
  same_lengths s ∧
  shelf_on_track s.

(** [floatCounts[i] > 0] implies [inlineSizes[i] > 0], for every index. *)
Definition count_implies_width (s : FloatSide.t) : Prop :=
  ∀ i, JS.ngt (JS.geti (FloatSide.floatCounts s) i) (Some 0) = true →
       JS.ngt (JS.geti (FloatSide.inlineSizes s) i) (Some 0) = true.

(** The states of a float side in the course of a layout: it is created,
    and then [boxStart], [dropShelf], [splitIfShelfDropped] and
    [placeFloat] are called on it, with any arguments; [placeFloat] leaves
    a state behind also when it throws.  [P] restricts the placements. *)
Inductive reachable_with
    (P : FloatSide.t → World → BoxId → IfcVacancy → Prop)
  : FloatSide.t → Prop :=
| reach_new blockOffset :
    reachable_with P (FloatSide.new blockOffset)
| reach_boxStart s blockOffset :
    reachable_with P s → reachable_with P (FloatSide.boxStart blockOffset s)
| reach_dropShelf s blockOffset :
    reachable_with P s → reachable_with P (FloatSide.dropShelf blockOffset s)
| reach_splitIfShelfDropped s :
    reachable_with P s → reachable_with P (FloatSide.splitIfShelfDropped s)
| reach_placeFloat s w b vacancy cbLineLeft cbLineRight :
    reachable_with P s → P s w b vacancy →
    reachable_with P
      (FloatSide.placeFloat b vacancy cbLineLeft cbLineRight (s, w)).2.1.

Definition reachable : FloatSide.t → Prop :=
  reachable_with (λ _ _ _ _, True).

(** [box.borderArea.width] plus the two inline margins of the box *)
Definition margin_box_width (w : World) (b : BoxId) : Z :=
  let box := boxes w b in
  a_inlineSize (areas w (borderArea box))
  + m_lineLeft (getMarginsAutoIsZero box)
  + m_lineRight (getMarginsAutoIsZero box).

(** The [cbOffset] of [placeFloat]: the offset of the vacancy on the side
    of the float *)
Definition vacancy_offset (w : World) (b : BoxId) (vacancy : IfcVacancy)
  : JS.num :=
  if bool_decide (float (style (boxes w b)) = float_left)
  then leftOffset vacancy else rightOffset vacancy.

(** A placement of a float whose margin box has a positive inline size, at
    an offset that is not before the offset recorded in any track that
    holds floats. *)
Definition wide_placement (s : FloatSide.t) (w : World) (b : BoxId)
    (vacancy : IfcVacancy) : Prop :=
  0 < margin_box_width w b ∧
  ∀ i, JS.ngt (JS.geti (FloatSide.floatCounts s) i) (Some 0) = true →
       JS.nle (Some 0)
         (JS.nadd (JS.geti (FloatSide.inlineOffsets s) i)
                  (vacancy_offset w b vacancy)) = true.

(** ** Boxes with a containing block *)

(** The getter [writingMode] of box [b] returns: the box has a containing
    block, and the area has its block container. *)
Definition writing_mode_known (w : World) (b : BoxId) : Prop :=
  ∃ cb owner,
    containingBlock (boxes w b) = Some cb ∧
    a_blockContainer (areas w cb) = Some owner.

(** The box has a containing block.  For a float that is not a left
    float, [placeFloat] also measures the containing block and the border
    area of the box in the writing mode of the containing block; the
    containing block is then assumed to be as [assignContainingBlocks]
    assigns it, going down the tree: an area of a box that has got its own
    containing block before. *)
Definition has_containing_block (w : World) (b : BoxId) : Prop :=
  ∃ cb,
    containingBlock (boxes w b) = Some cb ∧
    (float (style (boxes w b)) ≠ float_left →
     (∃ owner, a_blockContainer (areas w cb) = Some owner
               ∧ writing_mode_known w owner) ∧
     (∀ owner, a_blockContainer (areas w (borderArea (boxes w b))) = Some owner →
               writing_mode_known w owner)).

(** ** The steps of [FloatSide.placeFloat]

    The method, once its two tests are passed, splits tracks, then sets
    the inline position of the box, then records the float in the tracks
    it covers.  The three steps are named here; [placeFloat_steps] puts them
    together, and is shown to be [FloatSide.placeFloat]. *)

(** [blockSize]: the block size of the margin box of the float *)
Definition float_blockSize (w : World) (b : BoxId) : Z :=
  let box := boxes w b in
  a_blockSize (areas w (borderArea box))
  + m_blockStart (getMarginsAutoIsZero box)
  + m_blockEnd (getMarginsAutoIsZero box).

(** The side after the splits, and [endTrack] *)
Definition placeFloat_split (blockSize : Z) (s : FloatSide.t)
  : FloatSide.t * Z :=
  let s1 := FloatSide.splitIfShelfDropped s in
  let startTrack := FloatSide.shelfTrackIndex s1 in
  let blockEndOffset := FloatSide.shelfBlockOffset s1 + blockSize in
  if 0 <? blockSize then
    let endTrack :=
      FloatSide.getEndTrack s1 startTrack (FloatSide.shelfBlockOffset s1)
        blockSize in
    (if JS.neq_undef (JS.get (FloatSide.blockOffsets s1) endTrack) blockEndOffset
     then FloatSide.splitTrack (endTrack - 1) blockEndOffset s1 else s1,
     endTrack)
  else (s1, startTrack).

(** The inline position of the float *)
Definition placeFloat_position (b : BoxId) (vacancy : IfcVacancy)
    (cbLineLeft cbLineRight : JS.num) : M World unit :=
  w <- gets id ;;
  let box := boxes w b in
  let margins := getMarginsAutoIsZero box in
  if bool_decide (float (style box) = float_left) then
    setInlinePosition b
      (JS.nadd (JS.nsub (leftOffset vacancy) cbLineLeft)
               (Some (m_lineLeft margins)))
  else
    match containingBlock box with
    | None => throw "The box has no containing block"
    | Some cb =>
        wm <- area_writingMode cb ;;
        inlineSize <- inlineSizeForWritingMode cb wm ;;
        wm' <- area_writingMode cb ;;
        size <- inlineSizeForWritingMode (borderArea box) wm' ;;
        setInlinePosition b
          (JS.nsub (JS.nsub (JS.nadd (JS.nsub (rightOffset vacancy) cbLineRight)
             (Some inlineSize)) (Some (m_lineRight margins))) (Some size))
    end.

(** The side after the loop over the covered tracks and the push onto
    [items]; [w] is the world after the positioning. *)
Definition placeFloat_occupy (w : World) (b : BoxId) (vacancy : IfcVacancy)
    (s : FloatSide.t) (endTrack : Z) : FloatSide.t :=
  let box := boxes w b in
  let margins := getMarginsAutoIsZero box in
  let isLeft := bool_decide (float (style box) = float_left) in
  FloatSide.push_item b
    (foldl (FloatSide.occupy (vacancy_offset w b vacancy)
              (if isLeft then m_lineLeft margins else m_lineRight margins)
              (a_inlineSize (areas w (borderArea box)))
              (if isLeft then m_lineRight margins else m_lineLeft margins))
           s
           (seqZ (FloatSide.shelfTrackIndex s)
                 (endTrack - FloatSide.shelfTrackIndex s))).

Definition placeFloat_steps (b : BoxId) (vacancy : IfcVacancy)
    (cbLineLeft cbLineRight : JS.num) : M (FloatSide.t * World) unit :=
  λ '(s, w),
    if bool_decide (float (style (boxes w b)) = float_none)
    then (Throw "Tried to place float:none", (s, w))
    else if negb (v_blockOffset vacancy =? FloatSide.shelfBlockOffset s)
    then (Throw "Assertion failed", (s, w))
    else
      let '(s2, endTrack) := placeFloat_split (float_blockSize w b) s in
      match placeFloat_position b vacancy cbLineLeft cbLineRight w with
      | (Throw msg, w') => (Throw msg, (s2, w'))
      | (Ok _, w') => (Ok tt, (placeFloat_occupy w' b vacancy s2 endTrack, w'))
      end.

(** ** The claims of the specification, scenarios and proof tools *)

(** The claim C9 as it is stated: on every strictly increasing array the
    result is the insertion position. *)
Definition binarySearch_claim (a : list Z) (x : Z) : Prop :=
  strictly_increasing a → insertion_position a x (binarySearch a x).

(** The claim C6 as it is stated: the index found by the binary search is
    decremented exactly when it is an exact match, the result contains the
    block offset, and the end is the first track from the start on with its
    top at or after the end of the band. *)
Definition getTrackRange_claim (s : FloatSide.t) (blockOffset blockSize : Z)
  : Prop :=
  let offsets := FloatSide.blockOffsets s in
  let found := binarySearch offsets blockOffset in
  let '(start, end_) := FloatSide.getTrackRange s blockOffset blockSize in
  (JS.get offsets found = Some blockOffset → start = found - 1) ∧
  (JS.get offsets found ≠ Some blockOffset → start = found) ∧
  track_contains offsets start blockOffset ∧
  first_track_from offsets (start - 1) (blockOffset + blockSize) end_.

(** The tracks of [s'] are tracks of [s]: each holds the size, offset and
    count of some index of [s] (an index outside the arrays of [s] for a
    track of undefined values). *)
Definition tracks_from (s' s : FloatSide.t) : Prop :=
  ∀ n, ∃ m,
    JS.geti (FloatSide.inlineSizes s') n = JS.geti (FloatSide.inlineSizes s) m ∧
    JS.geti (FloatSide.inlineOffsets s') n = JS.geti (FloatSide.inlineOffsets s) m ∧
    JS.geti (FloatSide.floatCounts s') n = JS.geti (FloatSide.floatCounts s) m.

(** The offset [cb] is not before the offset recorded in an occupied
    track. *)
Definition beside_floats (cb : JS.num) (s : FloatSide.t) (i : Z) : Prop :=
  JS.ngt (JS.geti (FloatSide.floatCounts s) i) (Some 0) = true →
  JS.nle (Some 0) (JS.nadd (JS.geti (FloatSide.inlineOffsets s) i) cb) = true.

(** The claim C7 as it is stated, for every reachable state *)
Definition count_implies_width_claim (s : FloatSide.t) : Prop :=
  reachable s → count_implies_width s.

(** A left float of width [0] and height [10] with no margins (box [0]),
    in a containing block of width [100]. *)
Definition thin_float_world : World :=
  {| boxes := λ _,
       {| style :=
            {| float := float_left; clear := clear_none;
               writingMode := horizontal_tb;
               marginBlockStart := px 0; marginBlockEnd := px 0;
               marginLineLeft := px 0; marginLineRight := px 0;
               paddingBlockStart := 0; paddingBlockEnd := 0;
               paddingLineLeft := 0; paddingLineRight := 0;
               borderBlockStartWidth := 0; borderBlockEndWidth := 0;
               borderLineLeftWidth := 0; borderLineRightWidth := 0;
               blockSize := px 10; inlineSize := px 0 |};
          isInline := false; isBfcRoot := true; isFloat := true;
          children := ChildBlocks [];
          borderArea := 0%nat; paddingArea := 0%nat; contentArea := 0%nat;
          containingBlock := Some 1%nat |};
     areas := λ a,
       match a with
       | 0%nat => {| a_parent := Some 1%nat; a_blockContainer := Some 0%nat;
                    a_blockStart := 0; a_blockSize := 10;
                    a_lineLeft := Some 0; a_inlineSize := 0 |}
       | _ => {| a_parent := None; a_blockContainer := Some 0%nat;
                 a_blockStart := 0; a_blockSize := 0;
                 a_lineLeft := Some 0; a_inlineSize := 100 |}
       end |}.

(** The side on which the thin float has been placed, at the vacancy the
    float context computes for it *)
Definition thin_float_side : FloatSide.t :=
  (FloatSide.placeFloat 0%nat
     {| leftOffset := Some 0; rightOffset := Some 0; v_blockOffset := 0;
        v_inlineSize := Some 100; leftFloatCount := Some 0;
        rightFloatCount := Some 0 |}
     (Some 0) (Some 0) (FloatSide.new 0, thin_float_world)).2.1.

(** A left float of width [50] and height [10] with no margins (box [0]),
    in a containing block of width [100]. *)
Definition wide_float_world : World :=
  {| boxes := boxes thin_float_world;
     areas := λ a,
       match a with
       | 0%nat => {| a_parent := Some 1%nat; a_blockContainer := Some 0%nat;
                    a_blockStart := 0; a_blockSize := 10;
                    a_lineLeft := Some 0; a_inlineSize := 50 |}
       | _ => areas thin_float_world a
       end |}.

Definition empty_vacancy : IfcVacancy :=
  {| leftOffset := Some 0; rightOffset := Some 0; v_blockOffset := 0;
     v_inlineSize := Some 100; leftFloatCount := Some 0;
     rightFloatCount := Some 0 |}.

Definition wide_float_side : FloatSide.t :=
  (FloatSide.placeFloat 0%nat empty_vacancy (Some 0) (Some 0)
     (FloatSide.new 0, wide_float_world)).2.1.

(** The claim C5 as it is stated: the offsets are strictly increasing and
    there is one more of them than there are sizes, offsets and counts. *)
Definition track_ordering_claim (s : FloatSide.t) : Prop :=
  reachable s →
  strictly_increasing (FloatSide.blockOffsets s) ∧
  JS.len (FloatSide.blockOffsets s) = JS.len (FloatSide.inlineSizes s) + 1 ∧
  JS.len (FloatSide.blockOffsets s) = JS.len (FloatSide.inlineOffsets s) + 1 ∧
  JS.len (FloatSide.blockOffsets s) = JS.len (FloatSide.floatCounts s) + 1.

(** The operations of a float context that change its sides: [boxStart()],
    called by [BlockFormattingContext.boxStart]; [dropShelf]; [placeFloat];
    and one round of the loop of [consumeMisfits], which [postLine] and
    [preTextContent] run after a possible [dropShelf]. *)
Inductive FloatOp :=
| BoxStart
| DropShelf (blockOffset : Z)
| PlaceFloat (lineWidth : Z) (lineIsEmpty : bool) (b : BoxId)
| RetryMisfits.

(** The state after an operation, whether it has returned or thrown;
    [bfc] is the state of the block formatting context when it is
    called. *)
Definition apply_op (bfc : BfcView) (op : FloatOp)
    (s : FloatContext.t * World) : FloatContext.t * World :=
  match op with
  | BoxStart => (FloatContext.boxStart bfc s.1, s.2)
  | DropShelf blockOffset => (FloatContext.dropShelf blockOffset s.1, s.2)
  | PlaceFloat lineWidth lineIsEmpty b =>
      (FloatContext.placeFloat bfc lineWidth lineIsEmpty b s).2
  | RetryMisfits => (FloatContext.consumeMisfits_round bfc s).2
  end.

Definition apply_ops (ops : list (BfcView * FloatOp))
    (s : FloatContext.t * World) : FloatContext.t * World :=
  foldl (λ s '(bfc, op), apply_op bfc op s) s ops.

(** Neither shelf of [f'] is above where it is in [f]. *)
Definition shelves_le (f f' : FloatContext.t) : Prop :=
  FloatSide.shelfBlockOffset (FloatContext.leftFloats f)
    ≤ FloatSide.shelfBlockOffset (FloatContext.leftFloats f') ∧
  FloatSide.shelfBlockOffset (FloatContext.rightFloats f)
    ≤ FloatSide.shelfBlockOffset (FloatContext.rightFloats f').

(** The claim C3 as it is stated: no operation moves a shelf up. *)
Definition monotonic_shelves_claim (bfc : BfcView) (op : FloatOp)
    (s : FloatContext.t * World) : Prop :=
  shelves_le s.1 (apply_op bfc op s).1.

Definition view_at (cbBlockStart : Z) : BfcView :=
  {| bfc_inlineSize := 100; bfc_cbBlockStart := cbBlockStart;
     bfc_cbLineLeft := Some 0; bfc_cbLineRight := Some 0 |}.

(** An invariant of the object [T] kept by a method, whether it returns
    or throws *)
Definition preserves {T A} (I : T → Prop) (m : M (T * World) A) : Prop :=
  ∀ s w, I s → I (m (s, w)).2.1.

(** A left float of width [200] and height [10] with no margins (box [0]),
    in a block formatting context of width [100]. *)
Definition broad_float_world : World :=
  {| boxes := boxes thin_float_world;
     areas := λ a,
       match a with
       | 0%nat => {| a_parent := Some 1%nat; a_blockContainer := Some 0%nat;
                    a_blockStart := 0; a_blockSize := 10;
                    a_lineLeft := Some 0; a_inlineSize := 200 |}
       | _ => areas thin_float_world a
       end |}.

(** The claim C8 as it is stated: the float box has a containing block;
    then a vacancy that is not at the shelf makes [placeFloat] throw with
    nothing changed, and a vacancy at the shelf, for a float style that is
    not [none], makes it return. *)
Definition placeFloat_assertion_claim (b : BoxId) (vacancy : IfcVacancy)
    (cbLineLeft cbLineRight : JS.num) (s : FloatSide.t) (w : World) : Prop :=
  is_Some (containingBlock (boxes w b)) →
  (v_blockOffset vacancy ≠ FloatSide.shelfBlockOffset s →
   ∃ msg, FloatSide.placeFloat b vacancy cbLineLeft cbLineRight (s, w)
          = (Throw msg, (s, w))) ∧
  (v_blockOffset vacancy = FloatSide.shelfBlockOffset s →
   float (style (boxes w b)) ≠ float_none →
   (FloatSide.placeFloat b vacancy cbLineLeft cbLineRight (s, w)).1 = Ok tt).

(** A right float of width [50] and height [10] (box [0], area [0]) whose
    containing block is area [1], of width [100]; the box that owns area
    [1] (box [1]) has no containing block itself. *)
Definition orphan_float_world : World :=
  {| boxes := λ b,
       {| style :=
            {| float := float_right; clear := clear_none;
               writingMode := horizontal_tb;
               marginBlockStart := px 0; marginBlockEnd := px 0;
               marginLineLeft := px 0; marginLineRight := px 0;
               paddingBlockStart := 0; paddingBlockEnd := 0;
               paddingLineLeft := 0; paddingLineRight := 0;
               borderBlockStartWidth := 0; borderBlockEndWidth := 0;
               borderLineLeftWidth := 0; borderLineRightWidth := 0;
               blockSize := px 10; inlineSize := px 50 |};
          isInline := false; isBfcRoot := true; isFloat := true;
          children := ChildBlocks [];
          borderArea := b; paddingArea := b; contentArea := b;
          containingBlock :=
            match b with 0%nat => Some 1%nat | _ => None end |};
     areas := λ a,
       match a with
       | 0%nat => {| a_parent := Some 1%nat; a_blockContainer := Some 0%nat;
                    a_blockStart := 0; a_blockSize := 10;
                    a_lineLeft := Some 0; a_inlineSize := 50 |}
       | _ => {| a_parent := None; a_blockContainer := Some a;
                 a_blockStart := 0; a_blockSize := 0;
                 a_lineLeft := Some 0; a_inlineSize := 100 |}
       end |}.

(** The same float in a world in which every box has area [1] as its
    containing block, box [1] included. *)
Definition right_float_world : World :=
  {| boxes := λ b,
       {| style := style (boxes orphan_float_world b);
          isInline := false; isBfcRoot := true; isFloat := true;
          children := ChildBlocks [];
          borderArea := b; paddingArea := b; contentArea := b;
          containingBlock := Some 1%nat |};
     areas := areas orphan_float_world |}.

(** The float context is created at the block offset [100]; a box then
    starts with the cursor of the block formatting context at [50], above
    the first track, and the float is placed in it. *)
Definition shelf_above_tracks : FloatContext.t * World :=
  apply_ops [(view_at 50, BoxStart); (view_at 50, PlaceFloat 0 true 0%nat)]
    (FloatContext.new 100, broad_float_world).

From stdpp Require Import pretty.

Open Scope Z_scope.

(** ** The other searches of [src/util.ts] *)

(** The [while (true)] loop that [binarySearchOf] and [binarySearchTuple]
    share word for word; [key] is what the loop compares with [x]:
    [end(a[i])] in the first, [a[i][1]] in the second.  Where [a[i]] is
    [undefined] the first hands [undefined] to the callback, which is
    written for the items of the array, and the second reads a property of
    [undefined]: the model stops with a [TypeError]. *)
Equations? keyed_search_loop {T} (key : T → Z) (a : list T) (x : Z) (l r : Z)
  : result Z by wf (Z.to_nat (r - l + 1)) lt :=
  keyed_search_loop key a x l r with inspect (JS.get a ((l + r) / 2)) := {
    | exist _ None _ := Throw "TypeError: the element is undefined"
    | exist _ (Some t) _ with inspect (key t <? x) := {
        | exist _ true _ with inspect (r <? (l + r) / 2 + 1) := {
            | exist _ true _ := Ok ((l + r) / 2 + 1)
            | exist _ false Hgo :=
                keyed_search_loop key a x ((l + r) / 2 + 1) r }
        | exist _ false _ with inspect (x <? key t) := {
            | exist _ true _ with inspect ((l + r) / 2 - 1 <? l) := {
                | exist _ true _ := Ok ((l + r) / 2)
                | exist _ false Hgo :=
                    keyed_search_loop key a x l ((l + r) / 2 - 1) }
            | exist _ false _ := Ok ((l + r) / 2) } } }.
Proof.
  all: apply Z.ltb_ge in Hgo; Z.div_mod_to_equations; lia.
Qed.

(** [binarySearchOf(a, x, end)] *)
Definition binarySearchOf {T} (a : list T) (x : Z) (end_ : T → Z) : result Z :=
  let r := JS.len a - 1 in
  if r <? 0 then Ok (-1) else keyed_search_loop end_ a x 0 r.

(** [binarySearchTuple(a, x)] *)
Definition binarySearchTuple {T} (a : list (T * Z)) (x : Z) : result Z :=
  let r := JS.len a - 1 in
  if r <? 0 then Ok (-1) else keyed_search_loop snd a x 0 r.

(** ** Strings of [src/util.ts]

    A JavaScript string is the list of its UTF-16 code units. *)

(** The code units of a literal of ASCII characters *)
Definition units (s : string) : list Z :=
  (λ c, Z.of_nat (Ascii.nat_of_ascii c)) <$> String.list_ascii_of_string s.

(** [s.replace(/c/g, r)] for a pattern of one code unit [c] and a
    replacement [r] without [$]: every [c] is replaced by [r]. *)
Definition replace_unit (c : Z) (r : list Z) (s : list Z) : list Z :=
  s ≫= λ u, if u =? c then r else [u].

(** [loggableText(text)]: line feeds (code unit [10]) become U+23CE and
    tabs (code unit [9]) become U+2409. *)
Definition loggableText (text : list Z) : list Z :=
  replace_unit 9 [9225] (replace_unit 10 [9166] text).

(** [s.lastIndexOf(c)] for one code unit [c]: the greatest index at which
    [c] occurs, [-1] when it does not occur. *)
Fixpoint lastIndexOf (c : Z) (s : list Z) : Z :=
  match s with
  | [] => -1
  | u :: t =>
      let k := lastIndexOf c t in
      if 0 <=? k then k + 1 else if u =? c then 0 else -1
  end.

(** [s.slice(start)]: a negative [start] counts from the end. *)
Definition slice_from (start : Z) (s : list Z) : list Z :=
  drop (Z.to_nat (if start <? 0 then Z.max (JS.len s + start) 0 else start)) s.

(** [basename(url)], on [url.href]; [47] is the code unit of [/]. *)
Definition basename (href : list Z) : list Z :=
  slice_from (lastIndexOf 47 href + 1) href.

(** [s.split(c)] for a separator of one code unit: the pieces between the
    occurrences of [c], one piece more than there are occurrences. *)
Fixpoint split_unit (c : Z) (s : list Z) : list (list Z) :=
  match s with
  | [] => [[]]
  | u :: t =>
      if u =? c then [] :: split_unit c t
      else match split_unit c t with
           | piece :: pieces => (u :: piece) :: pieces
           | [] => [[u]]
           end
  end.

Module Util.

(** [id()]: the counter [_id] is the state.  [_id++] is exact below [2^53];
    at [2^53] the sum [2^53 + 1] is no double and rounds back to [2^53].
    [String(n)] of an integer below [10^21] is its decimal notation. *)
Definition id : M Z string :=
  λ _id, (Ok (pretty _id), if _id <? 2 ^ 53 then _id + 1 else _id).

(** The result of the call number [k] (from [0]) of [id()] in a program
    that starts with [_id = 0]. *)
Fixpoint counter_after (k : nat) : Z :=
  match k with
  | O => 0
  | S k => (id (counter_after k)).2
  end.

Definition nth_id (k : nat) : result string := (id (counter_after k)).1.

End Util.

(** ** [Logger] ([src/util.ts]) *)

Module Logger.

Record t := {
  string : list Z;
  formats : list (list Z);
  indent : list (list Z);
  lineIsEmpty : bool
}.

Definition new : t :=
  {| string := []; formats := []; indent := []; lineIsEmpty := false |}.

(** The body that [bold], [underline], [dim] and [reset] share; [node] is
    the test [typeof process === 'object']. *)
Definition styled (node : bool) (escape format : list Z) (lg : t) : t :=
  if node then
    {| string := string lg ++ escape; formats := formats lg;
       indent := indent lg; lineIsEmpty := lineIsEmpty lg |}
  else
    {| string := string lg ++ units "%c"; formats := formats lg ++ [format];
       indent := indent lg; lineIsEmpty := lineIsEmpty lg |}.

Definition bold (node : bool) : t → t :=
  styled node (27 :: units "[1m") (units "font-weight: bold").

Definition underline (node : bool) : t → t :=
  styled node (27 :: units "[4m") (units "text-decoration: underline").

Definition dim (node : bool) : t → t :=
  styled node (27 :: units "[2m") (units "color: gray").

Definition reset (node : bool) : t → t :=
  styled node (27 :: units "[0m") (units "font-weight: normal").

(** [flush()]: the arguments of [console.log], and the logger after it. *)
Definition flush (lg : t) : (list Z * list (list Z)) * t :=
  ((string lg, formats lg),
   {| string := []; formats := []; indent := indent lg;
      lineIsEmpty := lineIsEmpty lg |}).

(** The closure [append] of [text] *)
Definition append (s : list Z) (lg : t) : t :=
  if bool_decide (s = []) then lg else
  {| string :=
       (if lineIsEmpty lg then string lg ++ concat (indent lg) else string lg)
       ++ s;
     formats := formats lg; indent := indent lg; lineIsEmpty := false |}.

(** [this.string += '\n'; this.lineIsEmpty = true] *)
Definition newline (lg : t) : t :=
  {| string := string lg ++ [10]; formats := formats lg;
     indent := indent lg; lineIsEmpty := true |}.

(** [text(str)] for a string [str] *)
Definition text (str : list Z) (lg : t) : t :=
  match split_unit 10 str with
  | [] => lg
  | first :: rest =>
      foldl (λ lg line, append line (newline lg)) (append first lg) rest
  end.

(** [pushIndent(indent)]; the parameter defaults to two spaces. *)
Definition pushIndent (i : list Z) (lg : t) : t :=
  {| string := string lg; formats := formats lg;
     indent := indent lg ++ [i]; lineIsEmpty := lineIsEmpty lg |}.

(** [popIndent()]: [pop] of an empty array does nothing. *)
Definition popIndent (lg : t) : t :=
  {| string := string lg; formats := formats lg;
     indent := take (length (indent lg) - 1) (indent lg);
     lineIsEmpty := lineIsEmpty lg |}.

End Logger.

(** What [Logger.text] is meant to append, unit by unit: [ind] before the
    first unit of every line that is not empty, [start] telling whether
    the output is at the start of a line. *)
Fixpoint indented (ind : list Z) (start : bool) (str : list Z) : list Z :=
  match str with
  | [] => []
  | u :: t =>
      if u =? 10 then 10 :: indented ind true t
      else (if start then ind else []) ++ u :: indented ind false t
  end.

(** Whether the output is at the start of a line after [str] *)
Fixpoint at_line_start (start : bool) (str : list Z) : bool :=
  match str with
  | [] => start
  | u :: t => at_line_start (u =? 10) t
  end.

(** ** Further invariants of a float side *)

(** The last track, the one that starts at the bottom and has no end,
    holds no float. *)
Definition last_track_free (s : FloatSide.t) : Prop :=
  JS.geti (FloatSide.floatCounts s) (JS.len (FloatSide.blockOffsets s) - 1)
  = Some 0.

(** The track that contains the block offset [y]: the start of the range
    [getTrackRange(y)] returns. *)
Definition track_at (s : FloatSide.t) (y : Z) : Z :=
  (FloatSide.getTrackRange s y 0).1.

(** What a side records at the block offset [y]: the inline size, the
    inline offset and the float count of the track that contains [y]. *)
Definition values_at (s : FloatSide.t) (y : Z) : JS.num * JS.num * JS.num :=
  (JS.geti (FloatSide.inlineSizes s) (track_at s y),
   JS.geti (FloatSide.inlineOffsets s) (track_at s y),
   JS.geti (FloatSide.floatCounts s) (track_at s y)).

(** What the loop of [placeFloat] makes of the size, offset and count of a
    track that the float covers. *)
Definition float_added (cbOffset : JS.num) (marginOffset width marginEnd : Z)
    (v : JS.num * JS.num * JS.num) : JS.num * JS.num * JS.num :=
  let '(size, offset, count) := v in
  if JS.is_zero count
  then (Some (marginOffset + width + marginEnd), JS.nneg cbOffset,
        JS.nadd count (Some 1))
  else (JS.nadd (JS.nadd (JS.nadd (JS.nadd offset cbOffset)
          (Some marginOffset)) (Some width)) (Some marginEnd),
        offset, JS.nadd count (Some 1)).

(** ** Postconditions

    [wp m Q s]: the method [m], called in the state [s], ends with a
    result and in a state that satisfy [Q]. *)
Definition wp {S A} (m : M S A) (Q : result A → S → Prop) (s : S) : Prop :=
  Q (m s).1 (m s).2.

(** The floats a float context holds: those placed on its two sides and
    those that wait in the queue of misfits. *)
Definition floats_of (f : FloatContext.t) : list BoxId :=
  FloatSide.items (FloatContext.leftFloats f)
  ++ FloatSide.items (FloatContext.rightFloats f)
  ++ FloatContext.misfits f.

(** The side of a float context on which a box floats *)
Definition side_of (box : BlockContainer) : Side :=
  if bool_decide (float (style box) = float_left) then Left else Right.

(** The two sides hold the items, and the queue the misfits, that they
    held. *)
Definition same_floats (f f' : FloatContext.t) : Prop :=
  FloatSide.items (FloatContext.leftFloats f')
    = FloatSide.items (FloatContext.leftFloats f) ∧
  FloatSide.items (FloatContext.rightFloats f')
    = FloatSide.items (FloatContext.rightFloats f) ∧
  FloatContext.misfits f' = FloatContext.misfits f.

(** The box [b] has been taken in: it is the last misfit of the queue, or
    the queue was and is empty and it is the last item of the side [sd];
    nothing else has changed in the items and the queue. *)
Definition float_taken (b : BoxId) (sd : Side) (f f' : FloatContext.t) : Prop :=
  (FloatContext.misfits f' = FloatContext.misfits f ++ [b] ∧
   FloatSide.items (FloatContext.leftFloats f')
     = FloatSide.items (FloatContext.leftFloats f) ∧
   FloatSide.items (FloatContext.rightFloats f')
     = FloatSide.items (FloatContext.rightFloats f)) ∨
  (FloatContext.misfits f = [] ∧ FloatContext.misfits f' = [] ∧
   FloatSide.items (FloatContext.side sd f')
     = FloatSide.items (FloatContext.side sd f) ++ [b] ∧
   FloatSide.items (FloatContext.side (FloatContext.opposite sd) f')
     = FloatSide.items (FloatContext.side (FloatContext.opposite sd) f)).

(** ** Layouts with any margins

    The boxes of the collapse-through scenario, the parent (box [1]) with
    the margins [top1] and [bottom1] and its empty child (box [2]) with the
    margins [top2] and [bottom2]. *)
Definition nested_world (top1 bottom1 top2 bottom2 : Z) : World :=
  {| boxes := λ b,
       match b with
       | 1%nat => plain_box (plain_style top1 bottom1) false [2%nat] 1%nat 0%nat
       | 2%nat => plain_box (plain_style top2 bottom2) false [] 2%nat 1%nat
       | _ => plain_box (plain_style 0 0) true [1%nat] 0%nat 3%nat
       end;
     areas := areas collapse_through_world |}.

(** ** The block box model and two more layouts *)

(** [doBlockBoxModelForBlockBox(box)]; a block container of inlines has
    its inline formatting context for a child, so that
    [box.children.length === 0] holds of a box without child boxes only. *)
Definition doBlockBoxModelForBlockBox (b : BoxId) : M World unit :=
  w <- gets id ;;
  let box := boxes w b in
  if negb (isBlockLevel box)
  then throw "doBlockBoxModelForBlockBox called with inline"
  else match blockSize (style box) with
       | auto =>
           match children box with
           | ChildBlocks [] => setBlockSize b 0
           | _ => ret tt
           end
       | px v => setBlockSize b v
       end.

(** The world of the collapse-through scenario with an inline-level block
    container (an inline-block) in the place of the parent. *)
Definition inline_block_world : World :=
  {| boxes := λ b,
       match b with
       | 1%nat =>
           {| style := plain_style 10 0; isInline := true; isBfcRoot := true;
              isFloat := false; children := ChildBlocks [];
              borderArea := 1%nat; paddingArea := 1%nat; contentArea := 1%nat;
              containingBlock := Some 0%nat |}
       | _ => boxes collapse_through_world b
       end;
     areas := areas collapse_through_world |}.

(** [plain_style] with a block size in pixels *)
Definition sized_style (marginTop marginBottom height : Z) : Style :=
  {| float := float_none; clear := clear_none; writingMode := horizontal_tb;
     marginBlockStart := px marginTop; marginBlockEnd := px marginBottom;
     marginLineLeft := px 0; marginLineRight := px 0;
     paddingBlockStart := 0; paddingBlockEnd := 0;
     paddingLineLeft := 0; paddingLineRight := 0;
     borderBlockStartWidth := 0; borderBlockEndWidth := 0;
     borderLineLeftWidth := 0; borderLineRightWidth := 0;
     blockSize := px height; inlineSize := auto |}.

(** Two siblings: the root of a block formatting context (box [0]) has two
    children without children (boxes [1] and [2]), each with its margins
    and a block size in pixels; areas and containing blocks are as in the
    collapse-through scenario. *)
Definition sibling_world (top1 bottom1 height1 top2 bottom2 height2 : Z)
  : World :=
  {| boxes := λ b,
       match b with
       | 1%nat =>
           plain_box (sized_style top1 bottom1 height1) false [] 1%nat 0%nat
       | 2%nat =>
           plain_box (sized_style top2 bottom2 height2) false [] 2%nat 0%nat
       | _ => plain_box (plain_style 0 0) true [1%nat; 2%nat] 0%nat 3%nat
       end;
     areas := λ a,
       match a with
       | 1%nat => plain_area (Some 0%nat) 1%nat 300
       | 2%nat => plain_area (Some 0%nat) 2%nat 300
       | 3%nat => plain_area None 0%nat 300
       | _ => plain_area (Some 3%nat) 0%nat 300
       end |}.

(** What [layoutBlockBox] does for the two children of the root, one after
    the other: the block box model, [boxStart] and [boxEnd] on the context
    of the root; then the [finalize] of the root. *)
Definition sibling_layout
    (ifc_doTextLayout : BoxId → M (BlockFormattingContext.t * World) Z)
  : M (BlockFormattingContext.t * World) unit :=
  _ <- in_world (doBlockBoxModelForBlockBox 1%nat) ;;
  _ <- BlockFormattingContext.boxStart ifc_doTextLayout 1%nat ;;
  _ <- BlockFormattingContext.boxEnd 1%nat ;;
  _ <- in_world (doBlockBoxModelForBlockBox 2%nat) ;;
  _ <- BlockFormattingContext.boxStart ifc_doTextLayout 2%nat ;;
  _ <- BlockFormattingContext.boxEnd 2%nat ;;
  BlockFormattingContext.finalize 0%nat.

(** ** [FloatContext.findLinePosition] *)

(** A block offset or [Infinity] ([None]) *)
Definition min_inf (a b : option Z) : option Z :=
  match a, b with
  | Some x, Some y => Some (Z.min x y)
  | Some x, None => Some x
  | None, Some y => Some y
  | None, None => None
  end.

Definition le_inf (a b : option Z) : bool :=
  match a, b with
  | Some x, Some y => x <=? y
  | Some _, None => true
  | None, Some _ => false
  | None, None => true
  end.

(** [index < side.inlineSizes.length ? side.blockOffsets[index] : Infinity];
    where the program would read [undefined] from [blockOffsets] and go on
    with it, the model stops with an exception. *)
Definition shelf_offset (s : FloatSide.t) (index : Z) : result (option Z) :=
  if index <? JS.len (FloatSide.inlineSizes s)
  then match JS.get (FloatSide.blockOffsets s) index with
       | Some offset => Ok (Some offset)
       | None => Throw "outside the model: a block offset was read outside the tracks"
       end
  else Ok None.

(** The tracks the loop of [findLinePosition] has not passed yet *)
Definition tracks_left (f : FloatContext.t) (leftShelfIndex rightShelfIndex : Z)
  : nat :=
  Z.to_nat (Z.max 0 (JS.len (FloatSide.inlineSizes (FloatContext.leftFloats f))
                     - leftShelfIndex)
            + Z.max 0 (JS.len (FloatSide.inlineSizes (FloatContext.rightFloats f))
                       - rightShelfIndex)).

(** The loop of [findLinePosition] and the [return] after it.  Inside the
    loop one of the two indices is below the length of its side, so that
    [Math.min(leftOffset, rightOffset)] is not [Infinity]. *)
Equations? findLinePosition_loop (bfc : BfcView) (f : FloatContext.t)
    (blockSize inlineSize : Z) (blockOffset leftShelfIndex rightShelfIndex : Z)
  : result IfcVacancy
  by wf (tracks_left f leftShelfIndex rightShelfIndex) lt :=
  findLinePosition_loop bfc f blockSize inlineSize blockOffset
      leftShelfIndex rightShelfIndex
    with inspect
           ((leftShelfIndex
               <? JS.len (FloatSide.inlineSizes (FloatContext.leftFloats f)))
            || (rightShelfIndex
                  <? JS.len (FloatSide.inlineSizes (FloatContext.rightFloats f)))) := {
    | exist _ false _ :=
        Ok (FloatContext.getVacancyForLine bfc f blockOffset blockSize)
    | exist _ true Hgo
        with inspect (shelf_offset (FloatContext.leftFloats f) leftShelfIndex) := {
        | exist _ (Throw msg) _ := Throw msg
        | exist _ (Ok leftOffset) Hleft
            with inspect
                   (shelf_offset (FloatContext.rightFloats f) rightShelfIndex) := {
            | exist _ (Throw msg) _ := Throw msg
            | exist _ (Ok rightOffset) Hright
                with inspect (min_inf leftOffset rightOffset) := {
                | exist _ None _ :=
                    Throw "outside the model: both offsets are Infinity"
                | exist _ (Some offset) Hmin
                    with inspect
                           (JS.nle (Some inlineSize)
                              (v_inlineSize
                                 (FloatContext.getVacancyForLine bfc f
                                    (Z.max blockOffset offset) blockSize))) := {
                    | exist _ true _ :=
                        Ok (FloatContext.getVacancyForLine bfc f
                              (Z.max blockOffset offset) blockSize)
                    | exist _ false _ :=
                        findLinePosition_loop bfc f blockSize inlineSize
                          (Z.max blockOffset offset)
                          (if le_inf leftOffset rightOffset
                           then leftShelfIndex + 1 else leftShelfIndex)
                          (if le_inf rightOffset leftOffset
                           then rightShelfIndex + 1 else rightShelfIndex) } } } } }.
Proof.
  unfold tracks_left. unfold shelf_offset in Hleft, Hright.
  destruct (Z.ltb_spec leftShelfIndex
              (JS.len (FloatSide.inlineSizes (FloatContext.leftFloats f))));
    destruct (Z.ltb_spec rightShelfIndex
                (JS.len (FloatSide.inlineSizes (FloatContext.rightFloats f))));
    try discriminate;
    repeat match goal with
           | H : match ?x with _ => _ end = _ |- _ => destruct x; try discriminate
           end;
    injection Hleft as <-; injection Hright as <-; cbn [le_inf];
    repeat match goal with
           | |- context [?x <=? ?y] => destruct (Z.leb_spec x y)
           end; lia.
Qed.

(** [findLinePosition(blockOffset, blockSize, inlineSize)] *)
Definition findLinePosition (bfc : BfcView) (f : FloatContext.t)
    (blockOffset blockSize inlineSize : Z) : result IfcVacancy :=
  let leftShelfIndex :=
    (FloatSide.getTrackRange (FloatContext.leftFloats f) blockOffset blockSize).1 in
  let rightShelfIndex :=
    (FloatSide.getTrackRange (FloatContext.rightFloats f) blockOffset blockSize).1 in
  findLinePosition_loop bfc f blockSize inlineSize blockOffset
    leftShelfIndex rightShelfIndex.

(** ** The iterators over the content of an inline formatting context *)

(** [InlineLevel]: an [Inline] with its children, a [Run], a [Break], or a
    [BlockContainer], of which the iterators read [isFloat()].  The
    numbers tell the objects of a class apart. *)
#[warnings="-register-all"]
Inductive InlineLevel :=
| Inline (id : nat) (children : list InlineLevel)
| Run (id : nat)
| Break
| Block (id : nat) (isFloat : bool).

(** A stack is a list with its top first: [push] is [cons] and [pop] takes
    the head; the array of the program holds the same elements in the
    reverse order.  Pushing [children[length - 1]], ..., [children[0]] one
    after the other puts the children on the stack, the first on top. *)

(** [createPreorderInlineIterator(inline)]: the state of the iterator is
    its stack, [inline.children.slice().reverse()]. *)
Definition createPreorderInlineIterator (children : list InlineLevel)
  : list InlineLevel := children.

(** [next()] of the preorder iterator: the value, or [None] for
    [{done: true}], and the stack after the call. *)
Fixpoint preorder_next (stack : list InlineLevel)
  : option InlineLevel * list InlineLevel :=
  match stack with
  | [] => (None, [])
  | Inline id children :: stack =>
      (Some (Inline id children), children ++ stack)
  | Run id :: stack => (Some (Run id), stack)
  | _ :: stack => preorder_next stack
  end.

(** The values of the first [n] calls of [next()], up to the first that
    returns [{done: true}], and the stack after these calls. *)
Fixpoint preorder_run (n : nat) (stack : list InlineLevel)
  : list InlineLevel * list InlineLevel :=
  match n with
  | O => ([], stack)
  | S n =>
      match preorder_next stack with
      | (Some value, stack) =>
          let '(values, stack) := preorder_run n stack in
          (value :: values, stack)
      | (None, stack) => ([], stack)
      end
  end.

(** The inlines and runs of a tree in document order: an inline comes
    before its content. *)
Fixpoint inlines_and_runs (item : InlineLevel) : list InlineLevel :=
  match item with
  | Inline _ children => item :: flat_map inlines_and_runs children
  | Run _ => [item]
  | _ => []
  end.

(** An entry of the stack of [createInlineIterator]: an item, or
    [{post: inline}]. *)
Inductive InlineStackEntry :=
| entry_item (item : InlineLevel)
| entry_post (inline : InlineLevel).

(** [InlineIteratorBuffered] and [InlineIteratorValue] *)
Inductive InlineIteratorBuffered :=
| state_pre (item : InlineLevel)
| state_post (item : InlineLevel)
| state_text (item : InlineLevel)
| state_float (item : InlineLevel)
| state_break.

Inductive InlineIteratorValue :=
| buffered_value (value : InlineIteratorBuffered)
| state_breakop.

(** The variables of the closure of [createInlineIterator]; [buffered] is
    a queue, with the element [shift()] takes first. *)
Record InlineIterator := {
  it_stack : list InlineStackEntry;
  buffered : list InlineIteratorBuffered;
  minlevel : Z;
  it_level : Z;
  bk : Z;
  shouldFlushBreakop : bool
}.

Definition createInlineIterator (children : list InlineLevel)
  : InlineIterator :=
  {| it_stack := entry_item <$> children;
     buffered := [];
     minlevel := 0;
     it_level := 0;
     bk := 0;
     shouldFlushBreakop := false |}.

(** The number of turns of the loop of [next()] a stack can still take *)
Fixpoint item_turns (item : InlineLevel) : nat :=
  match item with
  | Inline _ children => S (S (list_sum (map item_turns children)))
  | _ => 1
  end.

Definition entry_turns (entry : InlineStackEntry) : nat :=
  match entry with
  | entry_item item => item_turns item
  | entry_post _ => 1
  end.

Definition stack_turns (stack : list InlineStackEntry) : nat :=
  list_sum (map entry_turns stack).

(** [while (stack.length) { ... }] in [next()] *)
Equations? inline_fill (it : InlineIterator) : result InlineIterator
  by wf (stack_turns (it_stack it)) lt :=
  inline_fill it with inspect (it_stack it) := {
    | exist _ [] _ := Ok it
    | exist _ (entry_post inline :: stack) _ :=
        let level := it_level it - 1 in
        let buffered := buffered it ++ [state_post inline] in
        inline_fill
          {| it_stack := stack;
             buffered := buffered;
             minlevel := if level <=? minlevel it then level else minlevel it;
             it_level := level;
             bk := if level <=? minlevel it then JS.len buffered else bk it;
             shouldFlushBreakop := shouldFlushBreakop it |}
    | exist _ (entry_item (Inline id children) :: stack) _ :=
        inline_fill
          {| it_stack :=
               (entry_item <$> children)
               ++ entry_post (Inline id children) :: stack;
             buffered := buffered it ++ [state_pre (Inline id children)];
             minlevel := minlevel it;
             it_level := it_level it + 1;
             bk := bk it;
             shouldFlushBreakop := shouldFlushBreakop it |}
    | exist _ (entry_item (Run id) :: stack) _ :=
        Ok {| it_stack := stack;
              buffered := buffered it ++ [state_text (Run id)];
              minlevel := it_level it;
              it_level := it_level it;
              bk := bk it;
              shouldFlushBreakop := negb (minlevel it =? it_level it) |}
    | exist _ (entry_item Break :: stack) _ :=
        Ok {| it_stack := stack;
              buffered := buffered it ++ [state_break];
              minlevel := it_level it;
              it_level := it_level it;
              bk := bk it;
              shouldFlushBreakop := negb (minlevel it =? it_level it) |}
    | exist _ (entry_item (Block id true) :: stack) _ :=
        Ok {| it_stack := stack;
              buffered := buffered it ++ [state_float (Block id true)];
              minlevel := it_level it;
              it_level := it_level it;
              bk := bk it;
              shouldFlushBreakop := true |}
    | exist _ (entry_item (Block id false) :: stack) _ :=
        Throw "Inline block not supported yet" }.
Proof.
  - rewrite e. unfold stack_turns.
    cbn [it_stack map list_sum entry_turns item_turns].
    rewrite map_app, list_sum_app. cbn [map list_sum entry_turns].
    match goal with
    | |- context [entry_item <$> ?cs] =>
        assert (H : list_sum (map entry_turns (entry_item <$> cs))
                    = list_sum (map item_turns cs))
          by (clear; induction cs as [|c cs' IH];
              [reflexivity|simpl; f_equal; exact IH]);
        rewrite H
    end.
    simpl. lia.
  - rewrite e. unfold stack_turns. cbn. lia.
Qed.

(** [next()] of [createInlineIterator]: the value, or [None] for
    [{done: true}], and the variables after the call. *)
Definition inline_next (it : InlineIterator)
  : result (option InlineIteratorValue * InlineIterator) :=
  match (if bool_decide (buffered it = []) then inline_fill it else Ok it) with
  | Throw msg => Throw msg
  | Ok it =>
      match buffered it with
      | [] => Ok (None, it)
      | value :: rest =>
          if 0 <? bk it
          then Ok (Some (buffered_value value),
                   {| it_stack := it_stack it; buffered := rest;
                      minlevel := minlevel it; it_level := it_level it;
                      bk := bk it - 1;
                      shouldFlushBreakop := shouldFlushBreakop it |})
          else if shouldFlushBreakop it
          then Ok (Some state_breakop,
                   {| it_stack := it_stack it; buffered := buffered it;
                      minlevel := minlevel it; it_level := it_level it;
                      bk := bk it;
                      shouldFlushBreakop := false |})
          else Ok (Some (buffered_value value),
                   {| it_stack := it_stack it; buffered := rest;
                      minlevel := minlevel it; it_level := it_level it;
                      bk := bk it;
                      shouldFlushBreakop := shouldFlushBreakop it |})
      end
  end.

(** The values of the calls of [next()] up to the first that returns
    [{done: true}]; [None] when [n] calls do not reach it. *)
Fixpoint inline_run (n : nat) (it : InlineIterator)
  : option (result (list InlineIteratorValue)) :=
  match n with
  | O => None
  | S n =>
      match inline_next it with
      | Throw msg => Some (Throw msg)
      | Ok (None, _) => Some (Ok [])
      | Ok (Some value, it) =>
          match inline_run n it with
          | Some (Ok values) => Some (Ok (value :: values))
          | other => other
          end
      end
  end.

(** The events of a tree in document order: an inline opens before its
    content and closes after it. *)
Fixpoint events (item : InlineLevel) : list InlineIteratorBuffered :=
  match item with
  | Inline _ children =>
      state_pre item :: flat_map events children ++ [state_post item]
  | Run _ => [state_text item]
  | Break => [state_break]
  | Block _ true => [state_float item]
  | Block _ false => []
  end.

(** No block container of the tree is an inline-block. *)
Fixpoint floats_only (item : InlineLevel) : bool :=
  match item with
  | Inline _ children => forallb floats_only children
  | Block _ isFloat => isFloat
  | _ => true
  end.

(** The values without the break opportunities *)
Definition without_breakops (values : list InlineIteratorValue)
  : list InlineIteratorBuffered :=
  values ≫= λ value,
    match value with
    | buffered_value b => [b]
    | state_breakop => []
    end.

(** Every break opportunity is followed by a value that is none. *)
Fixpoint breakops_apart (values : list InlineIteratorValue) : bool :=
  match values with
  | [] => true
  | state_breakop :: rest =>
      match rest with
      | buffered_value _ :: _ => breakops_apart rest
      | _ => false
      end
  | buffered_value _ :: rest => breakops_apart rest
  end.

(** The events a stack of [createInlineIterator] still stands for *)
Definition entry_events (entry : InlineStackEntry)
  : list InlineIteratorBuffered :=
  match entry with
  | entry_item item => events item
  | entry_post inline => [state_post inline]
  end.

Definition stack_events (stack : list InlineStackEntry)
  : list InlineIteratorBuffered := flat_map entry_events stack.

Definition entry_floats_only (entry : InlineStackEntry) : bool :=
  match entry with
  | entry_item item => floats_only item
  | entry_post _ => true
  end.

(** The events the iterator has not returned yet *)
Definition pending (it : InlineIterator) : list InlineIteratorBuffered :=
  buffered it ++ stack_events (it_stack it).

(** What the variables of the iterator satisfy between two calls *)
Definition iterator_inv (it : InlineIterator) : Prop :=
  0 ≤ bk it ≤ JS.len (buffered it) ∧
  (shouldFlushBreakop it = true → bk it < JS.len (buffered it)).

(** A bound on the calls of [next()] that return a value *)
Definition calls_left (it : InlineIterator) : nat :=
  2 * length (buffered it) + 3 * length (stack_events (it_stack it))
  + (if shouldFlushBreakop it then 1 else 0).

(** ** The inline box model of a block box *)

Inductive Direction := ltr | rtl.

Definition with_inlineSize (v : Z) (r : BlockContainerArea) :=
  {| a_parent := a_parent r; a_blockContainer := a_blockContainer r;
     a_blockStart := a_blockStart r; a_blockSize := a_blockSize r;
     a_lineLeft := a_lineLeft r; a_inlineSize := v |}.

(** [setInlineOuterSize(size)] *)
Definition setInlineOuterSize (b : BoxId) (size : Z) : M World unit :=
  w <- gets id ;;
  let box := boxes w b in
  match containingBlock box with
  | None => throw "Inline layout called too early: no containing block"
  | Some _ =>
      _ <- modify (λ w, set_area (borderArea box)
                          (with_inlineSize size (areas w (borderArea box))) w) ;;
      _ <- (when negb (bool_decide (paddingArea box = borderArea box)) then
              modify (λ w, set_area (paddingArea box)
                (with_inlineSize
                   (size - borderLineLeftWidth (style box)
                         - borderLineRightWidth (style box))
                   (areas w (paddingArea box))) w)) ;;
      when negb (bool_decide (contentArea box = paddingArea box)) then
        modify (λ w, set_area (contentArea box)
          (with_inlineSize
             (a_inlineSize (areas w (paddingArea box))
                - paddingLineLeft (style box)
                - paddingLineRight (style box))
             (areas w (contentArea box))) w)
  end.

(** Padding and border of a box on the inline axis *)
Definition inline_edges (s : Style) : Z :=
  borderLineLeftWidth s + paddingLineLeft s + paddingLineRight s
  + borderLineRightWidth s.

Section direction.

(** [style.direction] of every box, which the record [Style] does not
    hold. *)
Variable direction : BoxId → Direction.

(** The getter [direction] of a block container: that of its containing
    block, which is the direction of the style of the box that owns the
    area. *)
Definition box_direction (b : BoxId) : M World Direction :=
  w <- gets id ;;
  match containingBlock (boxes w b) with
  | None => throw "Cannot access writing mode: containing block never set"
  | Some cb =>
      match a_blockContainer (areas w cb) with
      | None => throw "TypeError: the area has no block container"
      | Some owner => ret (direction owner)
      end
  end.

(** [doInlineBoxModelForBlockBox(box)].  The numbers of the model are
    integers: where the program halves an odd number, the model stops
    with an exception. *)
Definition doInlineBoxModelForBlockBox (b : BoxId) : M World unit :=
  w <- gets id ;;
  let box := boxes w b in
  match containingBlock box with
  | None => throw "Inline layout called too early: no containing block"
  | Some cb =>
      if negb (isBlockLevel box)
      then throw "doInlineBoxModelForBlockBox called with inline or float"
      else
      wm <- box_writingMode b ;;
      cInlineSize <- inlineSizeForWritingMode cb wm ;;
      let s := style box in
      margins <-
        match inlineSize s with
        | px inlineSize =>
            let specifiedInlineSize :=
              inlineSize + borderLineLeftWidth s + paddingLineLeft s
              + paddingLineRight s + borderLineRightWidth s
              + auto_is_zero (marginLineLeft s)
              + auto_is_zero (marginLineRight s) in
            let over := cInlineSize <? specifiedInlineSize in
            let marginLineLeft :=
              if over then px (auto_is_zero (marginLineLeft s))
              else marginLineLeft s in
            let marginLineRight :=
              if over then px (auto_is_zero (marginLineRight s))
              else marginLineRight s in
            match marginLineLeft, marginLineRight with
            | px fixedLeft, px fixedRight =>
                d <- box_direction b ;;
                match d with
                | ltr =>
                    ret (px fixedLeft,
                         px (cInlineSize
                             - (specifiedInlineSize - fixedRight)))
                | rtl =>
                    ret (px (cInlineSize
                             - (specifiedInlineSize - fixedRight)),
                         px fixedRight)
                end
            | auto, px fixedRight =>
                ret (px (cInlineSize - specifiedInlineSize), px fixedRight)
            | px fixedLeft, auto =>
                ret (px fixedLeft, px (cInlineSize - specifiedInlineSize))
            | auto, auto =>
                if Z.even (cInlineSize - specifiedInlineSize)
                then let margin := (cInlineSize - specifiedInlineSize) / 2 in
                     ret (px margin, px margin)
                else throw "outside the model: half of an odd number"
            end
        | auto =>
            ret (px (auto_is_zero (marginLineLeft s)),
                 px (auto_is_zero (marginLineRight s)))
        end ;;
      match margins with
      | (px marginLineLeft, px marginLineRight) =>
          _ <- setInlinePosition b (Some marginLineLeft) ;;
          setInlineOuterSize b (cInlineSize - marginLineLeft - marginLineRight)
      | _ =>
          throw "The value accessed here has not been reduced to a used value"
      end
  end.

End direction.

(** The three areas of the box are one object, or the content area is a
    new one when there is padding and the padding area is a new one when
    there is a border ([fillAreas]): the content area is never the border
    area beside another padding area. *)
Definition areas_nested (box : BlockContainer) : Prop :=
  contentArea box = borderArea box → paddingArea box = borderArea box.

(** The world of the collapse-through scenario, where the parent has the
    inline size [100] and two [auto] margins on the inline axis. *)
Definition centered_world : World :=
  {| boxes := λ b,
       match b with
       | 1%nat =>
           plain_box
             {| float := float_none; clear := clear_none;
                writingMode := horizontal_tb;
                marginBlockStart := px 0; marginBlockEnd := px 0;
                marginLineLeft := auto; marginLineRight := auto;
                paddingBlockStart := 0; paddingBlockEnd := 0;
                paddingLineLeft := 0; paddingLineRight := 0;
                borderBlockStartWidth := 0; borderBlockEndWidth := 0;
                borderLineLeftWidth := 0; borderLineRightWidth := 0;
                blockSize := auto; inlineSize := px 100 |}
             false [2%nat] 1%nat 0%nat
       | _ => boxes collapse_through_world b
       end;
     areas := areas collapse_through_world |}.

(** * Properties *)

(** ** Array reads *)

Lemma JS_get_Some {A} (a : list A) i y :
  JS.get a i = Some y ↔ 0 ≤ i ∧ a !! Z.to_nat i = Some y.
Proof.
  unfold JS.get. destruct (Z.ltb_spec i 0); split; intros; try lia.
  - discriminate.
  - tauto.
  - tauto.
Qed.

Lemma JS_get_lt {A} (a : list A) i y : JS.get a i = Some y → 0 ≤ i < JS.len a.
Proof.
  intros [? H]%JS_get_Some. apply lookup_lt_Some in H. unfold JS.len. lia.
Qed.

Lemma JS_get_is_Some {A} (a : list A) i : 0 ≤ i < JS.len a → is_Some (JS.get a i).
Proof.
  unfold JS.len, JS.get. intros ?. destruct (Z.ltb_spec i 0); [lia|].
  apply lookup_lt_is_Some. lia.
Qed.

Lemma JS_get_None {A} (a : list A) i : JS.get a i = None ↔ i < 0 ∨ JS.len a ≤ i.
Proof.
  unfold JS.get, JS.len. destruct (Z.ltb_spec i 0).
  - split; [auto | reflexivity].
  - rewrite lookup_ge_None. lia.
Qed.

Lemma JS_get_of_nat {A} (a : list A) (n : nat) : JS.get a (Z.of_nat n) = a !! n.
Proof.
  unfold JS.get. destruct (Z.ltb_spec (Z.of_nat n) 0); [lia|].
  now rewrite Nat2Z.id.
Qed.

(** ** Binary search *)

Lemma strictly_increasingb_spec a :
  strictly_increasingb a = true ↔ strictly_increasing a.
Proof.
  induction a as [|y t IH].
  - split; [|reflexivity]. intros _ i j ? ? _ H. discriminate.
  - destruct t as [|z t'].
    + split; [|reflexivity].
      intros _ [|i] [|j] ? ? Hij H1 H2; try lia; discriminate.
    + cbn [strictly_increasingb]. rewrite andb_true_iff, IH, Z.ltb_lt.
      split.
      * intros [Hyz Ht] i j u v Hij Hi Hj.
        destruct j as [|j]; [lia|]. cbn in Hj.
        destruct i as [|i]; cbn in Hi.
        -- injection Hi as <-. destruct j as [|j]; cbn in Hj.
           ++ congruence.
           ++ assert (z < v); [|lia].
              apply (Ht 0%nat (S j)); [lia|reflexivity|exact Hj].
        -- apply (Ht i j); [lia|exact Hi|exact Hj].
      * intros H. split.
        -- apply (H 0%nat 1%nat); [lia|reflexivity..].
        -- intros i j u v Hij Hi Hj. apply (H (S i) (S j)); [lia|exact Hi|exact Hj].
Qed.

Lemma strictly_increasing_get a i j y z :
  strictly_increasing a → i < j → JS.get a i = Some y → JS.get a j = Some z →
  y < z.
Proof.
  intros Ha Hij [Hi Hy]%JS_get_Some [Hj Hz]%JS_get_Some.
  apply (Ha (Z.to_nat i) (Z.to_nat j)); [lia|assumption..].
Qed.

(** The loop invariant: everything left of [l] is smaller than [x],
    everything right of [r] is greater. *)
Lemma binarySearch_loop_spec a x l r :
  strictly_increasing a →
  0 ≤ l → l ≤ r → r < JS.len a →
  (∀ j y, 0 ≤ j < l → JS.get a j = Some y → y < x) →
  (∀ j y, r < j → JS.get a j = Some y → x < y) →
  insertion_position a x (binarySearch_loop a x l r).
Proof.
  intros Ha. funelim (binarySearch_loop a x l r); intros Hl Hlr Hr Hlo Hhi.
  all: assert (Hmid : l ≤ (l + r) / 2 ≤ r) by (Z.div_mod_to_equations; lia).
  all: repeat match goal with
         | H : {| pr1 := _; pr2 := _ |} = _ |- _ => clear H
         end.
  all: destruct (JS_get_is_Some a ((l + r) / 2)) as [m Hm]; [lia|].
  all: repeat match goal with
         | H : context [JS.lt_undef (JS.get _ _)] |- _ =>
             rewrite Hm in H; cbn [JS.lt_undef] in H
         | H : context [JS.gt_undef (JS.get _ _)] |- _ =>
             rewrite Hm in H; cbn [JS.gt_undef] in H
         end.
  all: repeat match goal with
         | H : (_ <? _) = true |- _ => apply Z.ltb_lt in H
         | H : (_ <? _) = false |- _ => apply Z.ltb_ge in H
         end.
  - (* a[i] < x, l > r: return l *)
    assert ((l + r) / 2 = r) as Hi by lia.
    split; [lia|]. split.
    + intros j y Hj Hy. rewrite Hi in Hm.
      destruct (Z.eq_dec j r) as [->|]; [congruence|].
      pose proof (strictly_increasing_get a j r y m Ha ltac:(lia) Hy Hm). lia.
    + intros y Hy. apply Hhi in Hy; lia.
  - (* a[i] < x, continue with l := i + 1 *)
    match goal with IH : strictly_increasing _ → _ |- _ => apply IH end;
      try lia; [assumption| |assumption].
    intros j y Hj Hy.
    destruct (Z.eq_dec j ((l + r) / 2)) as [->|]; [congruence|].
    pose proof (strictly_increasing_get a j ((l + r) / 2) y m Ha ltac:(lia) Hy Hm). lia.
  - (* a[i] = x: return i *)
    split; [lia|]. split.
    + intros j y Hj Hy.
      pose proof (strictly_increasing_get a j ((l + r) / 2) y m Ha ltac:(lia) Hy Hm). lia.
    + intros y Hy. rewrite Hm in Hy. injection Hy as <-. lia.
  - (* a[i] > x, r < l: return i *)
    assert ((l + r) / 2 = l) as Hi by lia.
    split; [lia|]. split.
    + intros j y Hj Hy. apply (Hlo j); [lia|assumption].
    + intros y Hy. rewrite Hm in Hy. injection Hy as <-. lia.
  - (* a[i] > x, continue with r := i - 1 *)
    match goal with IH : strictly_increasing _ → _ |- _ => apply IH end;
      try lia; [assumption|assumption|].
    intros j y Hj Hy.
    destruct (Z.eq_dec j ((l + r) / 2)) as [->|]; [rewrite Hm in Hy; injection Hy as <-; lia|].
    pose proof (strictly_increasing_get a ((l + r) / 2) j m y Ha ltac:(lia) Hm Hy). lia.
Qed.

Lemma binarySearch_empty x : binarySearch [] x = -1.
Proof. reflexivity. Qed.

Lemma binarySearch_nonempty a x :
  strictly_increasing a → a ≠ [] → insertion_position a x (binarySearch a x).
Proof.
  intros Ha Hne. unfold binarySearch.
  assert (0 < JS.len a) by (unfold JS.len; destruct a; [congruence|cbn; lia]).
  apply binarySearch_loop_spec; try lia; [assumption|].
  intros j y Hj Hy. apply JS_get_lt in Hy. lia.
Qed.

(** C9, counterexample: on the empty array, which is strictly increasing,
    [binarySearch] reads [a[-1]], finds it neither smaller nor greater than
    [x] and returns the index [-1]; the insertion position would be [0]. *)
Lemma binarySearch_claim_fails_on_empty : ¬ binarySearch_claim [] 5.
Proof.
  intros H.
  assert (Hinc : strictly_increasing []) by (intros i j y z _ Hi; discriminate).
  destruct (H Hinc) as [[Hlo _] _]. rewrite binarySearch_empty in Hlo. lia.
Qed.

(** C9, amended: [binarySearch] is total (its loop is defined by well-founded
    recursion on the width of the search interval); on every non-empty
    strictly increasing array it returns the insertion position of [x], the
    least index whose element is at least [x], or the length of the array
    when every element is smaller, so the result lies between [0] and the
    length; on the empty array it returns [-1]. *)
Theorem binarySearch_insertion_position (a : list Z) (x : Z) :
  strictly_increasing a →
  (a ≠ [] →
     insertion_position a x (binarySearch a x) ∧
     0 ≤ binarySearch a x ≤ JS.len a) ∧
  (a = [] → binarySearch a x = -1).
Proof.
  intros Ha. split.
  - intros Hne. pose proof (binarySearch_nonempty a x Ha Hne) as H.
    split; [exact H | apply H].
  - intros ->. apply binarySearch_empty.
Qed.

Lemma binarySearch_insertion_position_witness :
  strictly_increasing [0; 10; 20] ∧
  insertion_position [0; 10; 20] 15 (binarySearch [0; 10; 20] 15) ∧
  binarySearch [0; 10; 20] 15 = 2.
Proof.
  assert (Hinc : strictly_increasing [0; 10; 20])
    by (apply strictly_increasingb_spec; reflexivity).
  split; [exact Hinc|]. split; [|reflexivity].
  apply (binarySearch_insertion_position [0; 10; 20] 15 Hinc). discriminate.
Defined.

(** ** Margin collapsing *)

Section margin_collapse.
Import MarginCollapseCollection.

Lemma max_or_zero_nonneg l : 0 ≤ max_or_zero l.
Proof. unfold max_or_zero. induction l; cbn; lia. Qed.

Lemma max_or_zero_perm l l' : l ≡ₚ l' → max_or_zero l = max_or_zero l'.
Proof. unfold max_or_zero. induction 1; cbn in *; lia. Qed.

Lemma collapsed_margin_perm ms ms' :
  ms ≡ₚ ms' → collapsed_margin ms = collapsed_margin ms'.
Proof.
  intros H. unfold collapsed_margin.
  rewrite (max_or_zero_perm (filter _ ms) (filter (λ m, 0 ≤ m) ms')),
          (max_or_zero_perm (Z.opp <$> filter _ ms)
                            (Z.opp <$> filter (λ m, m < 0) ms')).
  - reflexivity.
  - now rewrite H.
  - now rewrite H.
Qed.

(** What a run of [add] does to the two fields. *)
Lemma add_all_fields ms c :
  0 ≤ positive c → 0 ≤ negative c →
  positive (add_all ms c) =
    Z.max (positive c) (max_or_zero (filter (λ m, 0 ≤ m) ms)) ∧
  negative (add_all ms c) =
    Z.max (negative c) (max_or_zero (Z.opp <$> filter (λ m, m < 0) ms)).
Proof.
  revert c. induction ms as [|m ms IH]; intros c Hpos Hneg.
  - cbn. lia.
  - cbn [add_all foldl]. fold (add_all ms (add m c)).
    destruct (IH (add m c)) as [Hp Hn];
      [unfold add; destruct (m <? 0); cbn; lia..|].
    rewrite Hp, Hn. clear IH Hp Hn.
    pose proof (max_or_zero_nonneg (filter (λ m, 0 ≤ m) ms)).
    pose proof (max_or_zero_nonneg (Z.opp <$> filter (λ m, m < 0) ms)).
    unfold add. destruct (Z.ltb_spec m 0).
    + rewrite (filter_cons_False (λ m, 0 ≤ m)) by lia.
      rewrite (filter_cons_True (λ m, m < 0)) by lia.
      unfold max_or_zero in *. cbn. lia.
    + rewrite (filter_cons_True (λ m, 0 ≤ m)) by lia.
      rewrite (filter_cons_False (λ m, m < 0)) by lia.
      unfold max_or_zero in *. cbn. lia.
Qed.

Lemma add_all_get ms : get (add_all ms fresh) = collapsed_margin ms.
Proof.
  unfold get, collapsed_margin.
  destruct (add_all_fields ms fresh) as [-> ->]; [cbn; lia..|].
  pose proof (max_or_zero_nonneg (filter (λ m, 0 ≤ m) ms)).
  pose proof (max_or_zero_nonneg (Z.opp <$> filter (λ m, m < 0) ms)).
  cbn. lia.
Qed.

(** C1: whatever the order [ms'] in which the margins [ms] are added to a
    fresh collection, [get()] returns the greatest non-negative margin (or
    [0]) minus the greatest magnitude of a negative margin (or [0]); a fresh
    collection returns [0]. *)
Theorem margin_collapse_identity (ms ms' : list Z) :
  ms ≡ₚ ms' →
  get (add_all ms' fresh) = collapsed_margin ms ∧
  get (add_all ms' fresh) = get (add_all ms fresh) ∧
  get fresh = 0.
Proof.
  intros H. rewrite !add_all_get, (collapsed_margin_perm ms ms' H).
  repeat split.
Qed.

End margin_collapse.

Lemma margin_collapse_identity_witness :
  MarginCollapseCollection.get
    (MarginCollapseCollection.add_all [-30; 20; -10; 5]
       MarginCollapseCollection.fresh) = 20 - 30.
Proof.
  refine (eq_trans
    (proj1 (margin_collapse_identity [5; -10; 20; -30] [-30; 20; -10; 5] _)) _).
  - change [5; -10; 20; -30] with (reverse [-30; 20; -10; 5]).
    apply reverse_Permutation.
  - reflexivity.
Defined.

(** ** The collapse-through scenario *)


(** ** Track ranges *)

Lemma binarySearch_loop_range a x l r :
  0 ≤ l → l ≤ r → r < JS.len a →
  0 ≤ binarySearch_loop a x l r ≤ JS.len a.
Proof.
  funelim (binarySearch_loop a x l r); intros Hl Hlr Hr.
  all: assert (Hmid : l ≤ (l + r) / 2 ≤ r) by (Z.div_mod_to_equations; lia).
  all: repeat match goal with
         | H : {| pr1 := _; pr2 := _ |} = _ |- _ => clear H
         | H : (_ <? _) = true |- _ => apply Z.ltb_lt in H
         | H : (_ <? _) = false |- _ => apply Z.ltb_ge in H
         end.
  all: try lia.
  all: match goal with IH : 0 ≤ _ → _ |- _ => apply IH; lia end.
Qed.

(** Whatever the order of the elements, the search stays within the
    array as soon as it has an element. *)
Lemma binarySearch_range a x :
  a ≠ [] → 0 ≤ binarySearch a x ≤ JS.len a.
Proof.
  intros Hne. unfold binarySearch.
  assert (0 < JS.len a) by (unfold JS.len; destruct a; [congruence|cbn; lia]).
  apply binarySearch_loop_range; lia.
Qed.

Lemma getEndTrack_loop_spec offsets pos e :
  let r := getEndTrack_loop offsets pos e in
  e ≤ r ∧
  (∀ j, e ≤ j < r → ∃ y, JS.get offsets j = Some y ∧ y < pos) ∧
  (0 ≤ r < JS.len offsets → ∃ y, JS.get offsets r = Some y ∧ pos ≤ y) ∧
  (r ≤ Z.max e (JS.len offsets)).
Proof.
  funelim (getEndTrack_loop offsets pos e); cbn zeta.
  all: repeat match goal with
         | H : {| pr1 := _; pr2 := _ |} = _ |- _ => clear H
         end.
  - match goal with IH : _ ∧ _ |- _ => destruct IH as (IH1 & IH2 & IH3 & IH4) end.
    apply andb_true_iff in Hgo as [Hlt Hy].
    apply Z.ltb_lt in Hlt.
    destruct (JS.get offsets end_) as [y|] eqn:Hget; [|discriminate].
    cbn in Hy. apply Z.ltb_lt in Hy.
    repeat split; try lia.
    + intros j Hj. destruct (Z.eq_dec j end_) as [->|]; [eauto|].
      apply IH2. lia.
    + exact IH3.
  - match goal with H : (_ && _) = false |- _ =>
      apply andb_false_iff in H as [Hlt|Hy] end.
    + apply Z.ltb_ge in Hlt. repeat split; try lia.
    + repeat split; try lia. intros Hlen.
      destruct (JS_get_is_Some offsets end_) as [y Hget]; [lia|].
      rewrite Hget in Hy. cbn in Hy. apply Z.ltb_ge in Hy.
      exists y. auto.
Qed.

Lemma getTrackRange_start s x size :
  FloatSide.blockOffsets s ≠ [] →
  strictly_increasing (FloatSide.blockOffsets s) →
  track_contains (FloatSide.blockOffsets s)
    (FloatSide.getTrackRange s x size).1 x.
Proof.
  intros Hne Hinc. unfold FloatSide.getTrackRange. cbn [fst].
  set (a := FloatSide.blockOffsets s) in *.
  destruct (binarySearch_nonempty a x Hinc Hne) as ((Hlo & Hhi) & Hbefore & Hat).
  set (i := binarySearch a x) in *.
  destruct (JS.get a i) as [y|] eqn:Hy; cbn [JS.neq_undef].
  - pose proof (JS_get_lt _ _ _ Hy).
    destruct (Z.eqb_spec y x) as [->|Hyx]; cbn [negb].
    + repeat split; try lia.
      * intros y' Hy'. rewrite Hy in Hy'. injection Hy' as <-. lia.
      * intros z Hz.
        apply (strictly_increasing_get a i (i + 1) x z Hinc); [lia|assumption..].
    + specialize (Hat y eq_refl).
      repeat split; try lia.
      * intros y' Hy'. pose proof (JS_get_lt _ _ _ Hy').
        specialize (Hbefore (i - 1) y' ltac:(lia) Hy'). lia.
      * intros z Hz. replace (i - 1 + 1) with i in Hz by lia.
        rewrite Hy in Hz. injection Hz as <-. lia.
  - apply JS_get_None in Hy. repeat split; try lia.
    + intros y' Hy'. pose proof (JS_get_lt _ _ _ Hy').
      specialize (Hbefore (i - 1) y' ltac:(lia) Hy'). lia.
    + intros z Hz. apply JS_get_lt in Hz. lia.
Qed.

Lemma getEndTrack_first s start x size :
  -1 ≤ start < JS.len (FloatSide.blockOffsets s) →
  first_track_from (FloatSide.blockOffsets s) start (x + size)
    (FloatSide.getEndTrack s start x size).
Proof.
  intros Hstart. unfold FloatSide.getEndTrack, first_track_from.
  pose proof (getEndTrack_loop_spec (FloatSide.blockOffsets s) (x + size)
                (start + 1)) as H.
  cbn zeta in H. destruct H as (H1 & H2 & H3 & H4).
  set (e := getEndTrack_loop _ _ _) in *.
  assert (0 ≤ JS.len (FloatSide.blockOffsets s)) by (unfold JS.len; lia).
  split; [lia|split].
  - intros j Hj. apply H2. lia.
  - intros y Hy. pose proof (JS_get_lt _ _ _ Hy) as Hlt.
    destruct (H3 Hlt) as (y' & Hy' & ?). congruence.
Qed.

(** C6, counterexample: on a new side, whose only track starts at [0], the
    search for the block offset [0] finds the index [0], an exact match,
    and [getTrackRange] leaves it as it is: the range is [[0, 1)], where a
    decrement would give the start [-1]; and the end [1] is not the first
    track with its top at or after [0], which is track [0] itself. *)
Lemma getTrackRange_claim_fails : ¬ getTrackRange_claim (FloatSide.new 0) 0 0.
Proof.
  unfold getTrackRange_claim.
  change (FloatSide.getTrackRange (FloatSide.new 0) 0 0) with (0, 1).
  change (binarySearch (FloatSide.blockOffsets (FloatSide.new 0)) 0) with 0.
  cbn. intros (H & _). specialize (H eq_refl). lia.
Qed.

(** C6, amended: on a side whose [blockOffsets] are strictly increasing
    (and not empty), the start returned by [getTrackRange] is the index
    found by the binary search, decremented by one exactly when the search
    does not land on an exact match; it is the track that contains the
    block offset ([-1] when the offset is above the first track); the end
    is the first index after the start whose track has its top at or after
    [blockOffset + blockSize], or the number of tracks when there is
    none. *)
Theorem getTrackRange_spec (s : FloatSide.t) (blockOffset blockSize : Z) :
  FloatSide.blockOffsets s ≠ [] →
  strictly_increasing (FloatSide.blockOffsets s) →
  let offsets := FloatSide.blockOffsets s in
  let found := binarySearch offsets blockOffset in
  let '(start, end_) := FloatSide.getTrackRange s blockOffset blockSize in
  (JS.get offsets found = Some blockOffset → start = found) ∧
  (JS.get offsets found ≠ Some blockOffset → start = found - 1) ∧
  track_contains offsets start blockOffset ∧
  first_track_from offsets start (blockOffset + blockSize) end_.
Proof.
  intros Hne Hinc offsets found.
  pose proof (getTrackRange_start s blockOffset blockSize Hne Hinc) as Hstart.
  destruct (FloatSide.getTrackRange s blockOffset blockSize) as [start end_] eqn:E.
  unfold FloatSide.getTrackRange in E. injection E as Es Ee.
  rewrite Es in Ee. subst offsets found. cbn [fst] in Hstart.
  split; [|split; [|split]].
  - intros Hx. rewrite Hx in Es. cbn in Es. rewrite Z.eqb_refl in Es.
    cbn in Es. congruence.
  - intros Hx. destruct (JS.get _ (binarySearch _ _)) as [y|]; cbn in Es; [|congruence].
    destruct (Z.eqb_spec y blockOffset); [congruence|]. cbn in Es. congruence.
  - exact Hstart.
  - rewrite <- Ee. apply getEndTrack_first. apply Hstart.
Qed.

Lemma getTrackRange_spec_witness :
  FloatSide.getTrackRange
    {| FloatSide.items := []; FloatSide.shelfBlockOffset := 0;
       FloatSide.shelfTrackIndex := 0; FloatSide.blockOffsets := [0; 10; 30];
       FloatSide.inlineSizes := [Some 5; Some 5; Some 0];
       FloatSide.inlineOffsets := [Some 0; Some 0; Some 0];
       FloatSide.floatCounts := [Some 1; Some 1; Some 0] |} 15 20 = (1, 3) ∧
  track_contains [0; 10; 30] 1 15 ∧
  first_track_from [0; 10; 30] 1 35 3.
Proof.
  split; [reflexivity|].
  refine (proj2 (proj2 (getTrackRange_spec
    {| FloatSide.items := []; FloatSide.shelfBlockOffset := 0;
       FloatSide.shelfTrackIndex := 0; FloatSide.blockOffsets := [0; 10; 30];
       FloatSide.inlineSizes := [Some 5; Some 5; Some 0];
       FloatSide.inlineOffsets := [Some 0; Some 0; Some 0];
       FloatSide.floatCounts := [Some 1; Some 1; Some 0] |} 15 20 _ _))).
  - discriminate.
  - apply strictly_increasingb_spec. reflexivity.
Defined.

(** ** The steps of [FloatSide.placeFloat] *)

Lemma setInlinePosition_boxes b v w :
  boxes (setInlinePosition b v w).2 = boxes w ∧
  ∀ a, a_inlineSize (areas (setInlinePosition b v w).2 a) = a_inlineSize (areas w a).
Proof.
  unfold setInlinePosition, bind, gets, modify, throw. cbn.
  destruct (containingBlock (boxes w b)); cbn; [|auto].
  split; [reflexivity|]. intros a'. destruct (decide _); [subst|]; reflexivity.
Qed.

Lemma area_writingMode_world a w : (area_writingMode a w).2 = w.
Proof.
  unfold area_writingMode, bind, gets, throw, ret. cbn.
  destruct (a_blockContainer _); reflexivity.
Qed.

Lemma box_writingMode_world b w : (box_writingMode b w).2 = w.
Proof.
  unfold box_writingMode, bind, gets, throw, ret. cbn.
  destruct (containingBlock _); [|reflexivity].
  destruct (a_blockContainer _); reflexivity.
Qed.

Lemma inlineSizeForWritingMode_world a wm w :
  (inlineSizeForWritingMode a wm w).2 = w.
Proof.
  unfold inlineSizeForWritingMode, bind at 1, gets at 1. cbn.
  destruct (a_blockContainer (areas w a)); [|reflexivity].
  unfold bind. pose proof (box_writingMode_world b w) as H.
  destruct (box_writingMode b w) as [[owm|msg] w1]; cbn in H; subst w1;
    [|reflexivity].
  destruct (negb _); reflexivity.
Qed.

(** The reads of writing modes and sizes leave the world as it is. *)
Ltac same_world :=
  repeat match goal with
    | H : area_writingMode ?a ?w = (_, ?w1) |- _ =>
        assert (w1 = w) as ->
          by (pose proof (area_writingMode_world a w) as Hw;
              rewrite H in Hw; exact Hw);
        try clear H
    | H : inlineSizeForWritingMode ?a ?wm ?w = (_, ?w1) |- _ =>
        assert (w1 = w) as ->
          by (pose proof (inlineSizeForWritingMode_world a wm w) as Hw;
              rewrite H in Hw; exact Hw);
        try clear H
    end.

Ltac run_monad :=
  cbv beta iota zeta delta
    [bind in_world gets update modify this ret throw within id fst snd].

Lemma placeFloat_position_boxes b vacancy cl cr w :
  boxes (placeFloat_position b vacancy cl cr w).2 = boxes w ∧
  ∀ a, a_inlineSize (areas (placeFloat_position b vacancy cl cr w).2 a)
       = a_inlineSize (areas w a).
Proof.
  unfold placeFloat_position. run_monad.
  destruct (bool_decide _); [apply setInlinePosition_boxes|].
  destruct (containingBlock (boxes w b)) as [cb|]; [|cbn; auto].
  destruct (area_writingMode cb w) as [[wm|] w1] eqn:E1; same_world; [|cbn; auto].
  destruct (inlineSizeForWritingMode cb wm w) as [[sz|] w1] eqn:E2; same_world;
    [|cbn; auto].
  destruct (area_writingMode cb w) as [[wm'|] w1] eqn:E3; same_world; [|cbn; auto].
  destruct (inlineSizeForWritingMode _ wm' w) as [[sz'|] w1] eqn:E4; same_world;
    [|cbn; auto].
  apply setInlinePosition_boxes.
Qed.

Lemma placeFloat_steps_eq b vacancy cl cr s w :
  FloatSide.placeFloat b vacancy cl cr (s, w)
  = placeFloat_steps b vacancy cl cr (s, w).
Proof.
  unfold FloatSide.placeFloat, placeFloat_steps.
  unfold bind at 1, in_world at 1, gets at 1. cbn [fst snd].
  destruct (bool_decide (float _ = float_none)); [reflexivity|].
  unfold bind at 1, this at 1, gets at 1. cbn [fst snd].
  destruct (negb _); [reflexivity|].
  unfold placeFloat_split, float_blockSize.
  unfold bind at 1, update at 1, modify at 1. cbn [fst snd].
  unfold bind at 1, this at 1, gets at 1. cbn [fst snd].
  unfold bind at 1, in_world at 1, gets at 1. cbn [fst snd].
  set (s1 := FloatSide.splitIfShelfDropped s).
  set (size := a_blockSize _ + _ + _).
  set (e := FloatSide.getEndTrack s1 _ _ _).
  (* the splits *)
  assert (Hsplit : ∀ (k : Z → M (FloatSide.t * World) unit) s2 e2,
    (if 0 <? size
     then (if JS.neq_undef (JS.get (FloatSide.blockOffsets s1) e)
                (FloatSide.shelfBlockOffset s1 + size)
           then FloatSide.splitTrack (e - 1)
                  (FloatSide.shelfBlockOffset s1 + size) s1
           else s1, e)
     else (s1, FloatSide.shelfTrackIndex s1)) = (s2, e2) →
    bind (if 0 <? size
          then _ <- (when JS.neq_undef (JS.get (FloatSide.blockOffsets s1) e)
                            (FloatSide.shelfBlockOffset s1 + size)
                     then update (FloatSide.splitTrack (e - 1)
                            (FloatSide.shelfBlockOffset s1 + size))) ;;
               ret e
          else ret (FloatSide.shelfTrackIndex s1)) k (s1, w)
    = k e2 (s2, w)).
  { intros k s2 e2 E. destruct (0 <? size).
    - destruct (JS.neq_undef _ _); injection E as <- <-; reflexivity.
    - injection E as <- <-. reflexivity. }
  destruct (if 0 <? size then _ else _) as [s2 e2] eqn:E.
  rewrite (Hsplit _ s2 e2 eq_refl). clear Hsplit.
  assert (Hidx : FloatSide.shelfTrackIndex s2 = FloatSide.shelfTrackIndex s1).
  { destruct (0 <? size); [destruct (JS.neq_undef _ _)|];
      injection E as <- _; reflexivity. }
  (* the position and the tracks *)
  unfold placeFloat_occupy, vacancy_offset, placeFloat_position.
  rewrite Hidx.
  assert (Hlast : ∀ v r w', setInlinePosition b v w = (r, w') →
    boxes w' = boxes w ∧ ∀ a, a_inlineSize (areas w' a) = a_inlineSize (areas w a)).
  { intros v r w' Hpos. pose proof (setInlinePosition_boxes b v w) as H.
    rewrite Hpos in H. exact H. }
  run_monad.
  destruct (bool_decide (float (style (boxes w b)) = float_left)) eqn:Hleft.
  - destruct (setInlinePosition b _ w) as [[[]|msg] w'] eqn:Hpos;
      [|reflexivity].
    apply Hlast in Hpos as [Hboxes Hwidth].
    rewrite Hboxes, Hleft, Hwidth. reflexivity.
  - destruct (containingBlock (boxes w b)) as [cb|]; [|reflexivity].
    destruct (area_writingMode cb w) as [[wm|msg] w1] eqn:E1; same_world;
      [|reflexivity].
    destruct (inlineSizeForWritingMode cb wm w) as [[sz|msg] w1] eqn:E2;
      same_world; [|reflexivity].
    destruct (area_writingMode cb w) as [[wm'|msg] w1] eqn:E3; same_world;
      [|reflexivity].
    destruct (inlineSizeForWritingMode _ wm' w) as [[sz'|msg] w1] eqn:E4;
      same_world; [|reflexivity].
    destruct (setInlinePosition b _ w) as [[[]|msg] w'] eqn:Hpos;
      [|reflexivity].
    apply Hlast in Hpos as [Hboxes Hwidth].
    rewrite Hboxes, Hleft, Hwidth. reflexivity.
Qed.

(** ** Splices and element writes *)

Lemma splice_position_range {A} start (a : list A) :
  0 ≤ JS.splice_position start a ≤ JS.len a.
Proof.
  unfold JS.splice_position, JS.len. destruct (Z.ltb_spec start 0); lia.
Qed.

Lemma splice_insert_len {A} start (x : A) a :
  JS.len (JS.splice_insert start x a) = JS.len a + 1.
Proof.
  unfold JS.splice_insert, JS.len.
  rewrite length_app, length_take. cbn [length]. rewrite length_drop. lia.
Qed.

Lemma splice_insert_get {A} start (x : A) a j :
  JS.get (JS.splice_insert start x a) j =
    if j <? JS.splice_position start a then JS.get a j
    else if j =? JS.splice_position start a then Some x
    else JS.get a (j - 1).
Proof.
  pose proof (splice_position_range start a) as Hk.
  unfold JS.splice_insert. cbn zeta.
  set (k := JS.splice_position start a) in *. unfold JS.get, JS.len in *.
  destruct (Z.ltb_spec j 0).
  - destruct (Z.ltb_spec j k); [reflexivity|lia].
  - destruct (Z.ltb_spec j k).
    + rewrite lookup_app_l by (rewrite length_take; lia).
      apply lookup_take_lt. lia.
    + rewrite lookup_app_r by (rewrite length_take; lia).
      rewrite length_take, Nat.min_l by lia.
      destruct (Z.eqb_spec j k) as [->|].
      * replace (Z.to_nat k - Z.to_nat k)%nat with 0%nat by lia. reflexivity.
      * destruct (Z.ltb_spec (j - 1) 0); [lia|].
        rewrite lookup_cons_ne_0 by lia. rewrite lookup_drop. f_equal. lia.
Qed.

Lemma splice_insert_geti start (x : JS.num) a j :
  JS.geti (JS.splice_insert start x a) j =
    if j <? JS.splice_position start a then JS.geti a j
    else if j =? JS.splice_position start a then x
    else JS.geti a (j - 1).
Proof.
  unfold JS.geti. rewrite splice_insert_get.
  destruct (_ <? _); [reflexivity|]. destruct (_ =? _); reflexivity.
Qed.

Lemma seti_len i v a :
  0 ≤ i < JS.len a → JS.len (JS.seti i v a) = JS.len a.
Proof.
  intros Hi. unfold JS.seti.
  destruct (Z.ltb_spec i 0); [lia|]. destruct (Z.ltb_spec i (JS.len a)); [|lia].
  unfold JS.len. now rewrite length_insert.
Qed.

Lemma seti_geti_eq i v a : 0 ≤ i → JS.geti (JS.seti i v a) i = v.
Proof.
  intros Hi. unfold JS.seti, JS.geti, JS.get.
  destruct (Z.ltb_spec i 0); [lia|].
  destruct (Z.ltb_spec i (JS.len a)) as [Hlt|Hge]; unfold JS.len in *.
  - rewrite list_lookup_insert_eq by lia. reflexivity.
  - rewrite lookup_app_r by lia.
    rewrite lookup_app_r by (rewrite length_replicate; lia).
    rewrite length_replicate.
    replace (_ - _ - _)%nat with 0%nat by lia. reflexivity.
Qed.

Lemma seti_geti_ne i j v a : i ≠ j → JS.geti (JS.seti i v a) j = JS.geti a j.
Proof.
  intros Hij. unfold JS.seti, JS.geti, JS.get.
  destruct (Z.ltb_spec i 0); [reflexivity|].
  destruct (Z.ltb_spec j 0); [reflexivity|].
  destruct (Z.ltb_spec i (JS.len a)) as [Hlt|Hge]; unfold JS.len in *.
  - rewrite list_lookup_insert_ne by lia. reflexivity.
  - destruct (decide (Z.to_nat j < length a)%nat).
    + rewrite lookup_app_l by lia. reflexivity.
    + rewrite (lookup_ge_None_2 a) by lia.
      rewrite lookup_app_r by lia.
      destruct (decide (Z.to_nat j - length a
                        < Z.to_nat (i - Z.of_nat (length a)))%nat).
      * rewrite lookup_app_l by (rewrite length_replicate; lia).
        rewrite lookup_replicate_2 by lia. reflexivity.
      * rewrite lookup_app_r by (rewrite length_replicate; lia).
        rewrite length_replicate.
        rewrite lookup_ge_None_2; [reflexivity|]. cbn. lia.
Qed.

(** ** The invariant of a float side *)

Lemma strictly_increasing_of_get a :
  (∀ i j y z, i < j → JS.get a i = Some y → JS.get a j = Some z → y < z) →
  strictly_increasing a.
Proof.
  intros H i j y z Hij Hi Hj.
  apply (H (Z.of_nat i) (Z.of_nat j)); [lia|now rewrite JS_get_of_nat..].
Qed.

Lemma strictly_increasing_splice a start x :
  strictly_increasing a →
  (∀ y, JS.get a (JS.splice_position start a - 1) = Some y → y < x) →
  (∀ y, JS.get a (JS.splice_position start a) = Some y → x < y) →
  strictly_increasing (JS.splice_insert start x a).
Proof.
  intros Ha Hlo Hhi. apply strictly_increasing_of_get.
  intros i j y z Hij. rewrite !splice_insert_get.
  pose proof (splice_position_range start a) as Hk.
  set (k := JS.splice_position start a) in *.
  assert (Hbelow : ∀ n v, n < k → JS.get a n = Some v → v < x).
  { intros n v Hn Hv. pose proof (JS_get_lt _ _ _ Hv).
    destruct (JS_get_is_Some a (k - 1)) as [u Hu]; [lia|].
    specialize (Hlo u Hu).
    destruct (Z.eq_dec n (k - 1)) as [->|]; [congruence|].
    pose proof (strictly_increasing_get a n (k - 1) v u Ha ltac:(lia) Hv Hu). lia. }
  assert (Habove : ∀ n v, k ≤ n → JS.get a n = Some v → x < v).
  { intros n v Hn Hv. pose proof (JS_get_lt _ _ _ Hv).
    destruct (JS_get_is_Some a k) as [u Hu]; [lia|].
    specialize (Hhi u Hu).
    destruct (Z.eq_dec n k) as [->|]; [congruence|].
    pose proof (strictly_increasing_get a k n u v Ha ltac:(lia) Hu Hv). lia. }
  destruct (Z.ltb_spec i k), (Z.ltb_spec j k); try lia.
  - intros Hi Hj. exact (strictly_increasing_get a i j y z Ha Hij Hi Hj).
  - destruct (Z.eqb_spec j k).
    + intros Hi [= <-]. eapply Hbelow; eauto.
    + intros Hi Hj.
      exact (strictly_increasing_get a i (j - 1) y z Ha ltac:(lia) Hi Hj).
  - destruct (Z.eqb_spec i k), (Z.eqb_spec j k); try lia.
    + intros [= <-] Hj. eapply (Habove (j - 1)); [lia|eauto].
    + intros Hi Hj.
      exact (strictly_increasing_get a (i - 1) (j - 1) y z Ha ltac:(lia) Hi Hj).
Qed.

Lemma well_formed_new blockOffset : well_formed (FloatSide.new blockOffset).
Proof.
  split; [discriminate|]. split; [|split].
  - apply strictly_increasingb_spec. reflexivity.
  - repeat split.
  - split; [unfold JS.len; cbn; lia|]. split.
    + intros y [= <-]. cbn. lia.
    + intros y Hy. discriminate.
Qed.

Lemma well_formed_set_shelf blockOffset s :
  well_formed s → well_formed (FloatSide.set_shelf blockOffset s).
Proof.
  intros (Hne & Hinc & Hlen & Hshelf).
  split; [exact Hne|]. split; [exact Hinc|]. split; [exact Hlen|].
  unfold shelf_on_track. cbn.
  apply (getTrackRange_start s blockOffset 0 Hne Hinc).
Qed.

Lemma well_formed_dropShelf blockOffset s :
  well_formed s → well_formed (FloatSide.dropShelf blockOffset s).
Proof.
  intros H. unfold FloatSide.dropShelf.
  destruct (_ <? _); [now apply well_formed_set_shelf|exact H].
Qed.

Lemma same_lengths_splitTrack i x s :
  same_lengths s → same_lengths (FloatSide.splitTrack i x s).
Proof.
  intros (H1 & H2 & H3). unfold same_lengths. cbn.
  rewrite !splice_insert_len. lia.
Qed.

Lemma splice_position_track {A} i (a : list A) :
  -1 ≤ i < JS.len a → JS.splice_position (i + 1) a = i + 1.
Proof.
  intros Hi. unfold JS.splice_position.
  destruct (Z.ltb_spec (i + 1) 0); lia.
Qed.

(** A split strictly inside a track, or at the shelf above the first
    track, keeps the offsets strictly increasing. *)
Lemma well_formed_split_offsets i x s :
  well_formed s →
  -1 ≤ i < JS.len (FloatSide.blockOffsets s) →
  (∀ y, JS.get (FloatSide.blockOffsets s) i = Some y → y < x) →
  (∀ y, JS.get (FloatSide.blockOffsets s) (i + 1) = Some y → x < y) →
  FloatSide.blockOffsets (FloatSide.splitTrack i x s) ≠ [] ∧
  strictly_increasing (FloatSide.blockOffsets (FloatSide.splitTrack i x s)) ∧
  same_lengths (FloatSide.splitTrack i x s).
Proof.
  intros (Hne & Hinc & Hlen & Hshelf) Hi Hlo Hhi.
  split; [|split].
  - cbn. intros E. apply (f_equal JS.len) in E.
    rewrite splice_insert_len in E. unfold JS.len in E. cbn in E. lia.
  - cbn. apply strictly_increasing_splice; [exact Hinc|..];
      rewrite splice_position_track by exact Hi.
    + replace (i + 1 - 1) with i by lia. exact Hlo.
    + exact Hhi.
  - now apply same_lengths_splitTrack.
Qed.

Lemma neq_undef_false v x : JS.neq_undef v x = false → v = Some x.
Proof.
  destruct v as [y|]; cbn; [|discriminate].
  destruct (Z.eqb_spec y x); [congruence|discriminate].
Qed.

Lemma neq_undef_true v x : JS.neq_undef v x = true → v ≠ Some x.
Proof.
  destruct v as [y|]; cbn; [|discriminate].
  destruct (Z.eqb_spec y x); [discriminate|congruence].
Qed.

(** The offsets after [splitTrack(i, x)] for a track index [i] *)
Lemma splitTrack_offsets_get i x s j :
  -1 ≤ i < JS.len (FloatSide.blockOffsets s) →
  JS.get (FloatSide.blockOffsets (FloatSide.splitTrack i x s)) j =
    if j <? i + 1 then JS.get (FloatSide.blockOffsets s) j
    else if j =? i + 1 then Some x
    else JS.get (FloatSide.blockOffsets s) (j - 1).
Proof.
  intros Hi. cbn. rewrite splice_insert_get, splice_position_track by exact Hi.
  reflexivity.
Qed.

Lemma well_formed_splitIfShelfDropped s :
  well_formed s →
  well_formed (FloatSide.splitIfShelfDropped s) ∧
  JS.get (FloatSide.blockOffsets (FloatSide.splitIfShelfDropped s))
         (FloatSide.shelfTrackIndex (FloatSide.splitIfShelfDropped s))
    = Some (FloatSide.shelfBlockOffset s) ∧
  FloatSide.shelfBlockOffset (FloatSide.splitIfShelfDropped s)
    = FloatSide.shelfBlockOffset s.
Proof.
  intros Hwf. pose proof Hwf as (Hne & Hinc & Hlen & Hrange & Hlo & Hhi).
  unfold FloatSide.splitIfShelfDropped.
  destruct (JS.neq_undef _ _) eqn:Hd.
  2:{ apply neq_undef_false in Hd. auto. }
  apply neq_undef_true in Hd.
  set (i := FloatSide.shelfTrackIndex s) in *.
  set (x := FloatSide.shelfBlockOffset s) in *.
  destruct (well_formed_split_offsets i x s Hwf Hrange) as (H1 & H2 & H3).
  { intros y Hy. specialize (Hlo y Hy). assert (y ≠ x) by congruence. lia. }
  { exact Hhi. }
  pose proof (λ j, splitTrack_offsets_get i x s j Hrange) as Hnew.
  split; [|split; [|reflexivity]].
  - split; [exact H1|]. split; [exact H2|]. split; [exact H3|].
    unfold shelf_on_track, track_contains.
    cbn [FloatSide.blockOffsets FloatSide.shelfTrackIndex
         FloatSide.shelfBlockOffset].
    change (FloatSide.shelfBlockOffset (FloatSide.splitTrack i x s)) with x.
    change (FloatSide.shelfTrackIndex (FloatSide.splitTrack i x s)) with i.
    rewrite !Hnew. split; [|split].
    + cbn. rewrite splice_insert_len. lia.
    + destruct (Z.ltb_spec (i + 1) (i + 1)); [lia|]. rewrite Z.eqb_refl.
      intros ? [= <-]. lia.
    + destruct (Z.ltb_spec (i + 1 + 1) (i + 1)); [lia|].
      destruct (Z.eqb_spec (i + 1 + 1) (i + 1)); [lia|].
      replace (i + 1 + 1 - 1) with (i + 1) by lia. exact Hhi.
  - cbn [FloatSide.blockOffsets FloatSide.shelfTrackIndex].
    change (FloatSide.shelfTrackIndex (FloatSide.splitTrack i x s)) with i.
    rewrite Hnew. destruct (Z.ltb_spec (i + 1) (i + 1)); [lia|].
    now rewrite Z.eqb_refl.
Qed.

Lemma well_formed_placeFloat_split size s :
  well_formed s →
  well_formed (placeFloat_split size s).1 ∧
  0 ≤ FloatSide.shelfTrackIndex (placeFloat_split size s).1
    ≤ (placeFloat_split size s).2 ∧
  (placeFloat_split size s).2
    < JS.len (FloatSide.blockOffsets (placeFloat_split size s).1).
Proof.
  intros Hwf0.
  destruct (well_formed_splitIfShelfDropped s Hwf0) as (Hwf & Htop & Hshelf).
  unfold placeFloat_split.
  set (s1 := FloatSide.splitIfShelfDropped s) in *.
  pose proof Hwf as (Hne & Hinc & Hlen & Hrange & Hlo & Hhi).
  pose proof (JS_get_lt _ _ _ Htop) as Hidx.
  destruct (Z.ltb_spec 0 size) as [Hsize|Hsize]; cbn [fst snd]; [|auto with lia].
  set (x := FloatSide.shelfBlockOffset s1) in *.
  set (i := FloatSide.shelfTrackIndex s1) in *.
  destruct (getEndTrack_first s1 i x size ltac:(lia)) as (He & Hbefore & Hat).
  set (e := FloatSide.getEndTrack s1 i x size) in *.
  destruct (JS.neq_undef _ _) eqn:Hd; cbn [fst snd].
  2:{ apply neq_undef_false in Hd. apply JS_get_lt in Hd. auto with lia. }
  apply neq_undef_true in Hd.
  assert (Hr : -1 ≤ e - 1 < JS.len (FloatSide.blockOffsets s1)) by lia.
  destruct (well_formed_split_offsets (e - 1) (x + size) s1 Hwf Hr)
    as (H1 & H2 & H3).
  { intros y Hy. destruct (Z.eq_dec (e - 1) i) as [E|].
    - rewrite E, Htop in Hy. injection Hy as <-. lia.
    - destruct (Hbefore (e - 1) ltac:(lia)) as (y' & Hy' & ?). congruence. }
  { replace (e - 1 + 1) with e by lia. intros y Hy. specialize (Hat y Hy).
    assert (y ≠ x + size) by congruence. lia. }
  pose proof (λ j, splitTrack_offsets_get (e - 1) (x + size) s1 j Hr) as Hnew.
  split; [|split].
  - split; [exact H1|]. split; [exact H2|]. split; [exact H3|].
    unfold shelf_on_track, track_contains.
    change (FloatSide.shelfBlockOffset (FloatSide.splitTrack _ _ s1)) with x.
    change (FloatSide.shelfTrackIndex (FloatSide.splitTrack _ _ s1)) with i.
    rewrite !Hnew. split; [|split].
    + cbn. rewrite splice_insert_len. lia.
    + destruct (Z.ltb_spec i (e - 1 + 1)); [|lia]. exact Hlo.
    + destruct (Z.ltb_spec (i + 1) (e - 1 + 1)); [exact Hhi|].
      destruct (Z.eqb_spec (i + 1) (e - 1 + 1)); [|lia].
      intros ? [= <-]. fold x in Hshelf. lia.
  - change (FloatSide.shelfTrackIndex (FloatSide.splitTrack _ _ s1)) with i. lia.
  - cbn. rewrite splice_insert_len. lia.
Qed.

Lemma occupy_fields cb mo width me s t :
  FloatSide.blockOffsets (FloatSide.occupy cb mo width me s t)
    = FloatSide.blockOffsets s ∧
  FloatSide.shelfBlockOffset (FloatSide.occupy cb mo width me s t)
    = FloatSide.shelfBlockOffset s ∧
  FloatSide.shelfTrackIndex (FloatSide.occupy cb mo width me s t)
    = FloatSide.shelfTrackIndex s.
Proof. unfold FloatSide.occupy. destruct (JS.is_zero _); auto. Qed.

Lemma same_lengths_occupy cb mo width me s t :
  same_lengths s → 0 ≤ t < JS.len (FloatSide.blockOffsets s) →
  same_lengths (FloatSide.occupy cb mo width me s t).
Proof.
  intros (H1 & H2 & H3) Ht. unfold FloatSide.occupy, same_lengths.
  destruct (JS.is_zero _); cbn; rewrite ?seti_len by lia; auto.
Qed.

Lemma well_formed_occupy cb mo width me s t :
  well_formed s → 0 ≤ t < JS.len (FloatSide.blockOffsets s) →
  well_formed (FloatSide.occupy cb mo width me s t).
Proof.
  intros (Hne & Hinc & Hlen & Hshelf) Ht.
  destruct (occupy_fields cb mo width me s t) as (E1 & E2 & E3).
  unfold well_formed, shelf_on_track. rewrite E1, E2, E3.
  auto using same_lengths_occupy.
Qed.

Lemma well_formed_occupy_loop cb mo width me (n : nat) start s :
  well_formed s →
  0 ≤ start → start + Z.of_nat n ≤ JS.len (FloatSide.blockOffsets s) →
  well_formed (foldl (FloatSide.occupy cb mo width me) s
                 (seqZ start (Z.of_nat n))).
Proof.
  revert start s. induction n as [|n IH]; intros start s Hwf H0 Hn.
  - exact Hwf.
  - rewrite seqZ_cons by lia. cbn [foldl].
    replace (Z.pred (Z.of_nat (S n))) with (Z.of_nat n) by lia.
    apply IH; [apply well_formed_occupy; [exact Hwf|lia]|lia|].
    destruct (occupy_fields cb mo width me s start) as (-> & _). lia.
Qed.

Lemma well_formed_push_item b s :
  well_formed s → well_formed (FloatSide.push_item b s).
Proof. intros H. exact H. Qed.

Lemma well_formed_placeFloat b vacancy cl cr s w :
  well_formed s →
  well_formed (FloatSide.placeFloat b vacancy cl cr (s, w)).2.1.
Proof.
  intros Hwf. rewrite placeFloat_steps_eq. unfold placeFloat_steps.
  destruct (bool_decide _); [exact Hwf|]. destruct (negb _); [exact Hwf|].
  pose proof (well_formed_placeFloat_split (float_blockSize w b) s Hwf)
    as (Hwf2 & Hidx & He).
  destruct (placeFloat_split _ s) as [s2 e]. cbn [fst snd] in *.
  destruct (placeFloat_position b vacancy cl cr w) as [[[]|msg] w'];
    cbn [fst snd]; [|exact Hwf2].
  unfold placeFloat_occupy. apply well_formed_push_item.
  replace (e - FloatSide.shelfTrackIndex s2)
    with (Z.of_nat (Z.to_nat (e - FloatSide.shelfTrackIndex s2))) by lia.
  apply well_formed_occupy_loop; [exact Hwf2|lia|lia].
Qed.

(** Every state a float side reaches is well formed. *)
Lemma reachable_well_formed P s : reachable_with P s → well_formed s.
Proof.
  induction 1.
  - apply well_formed_new.
  - now apply well_formed_set_shelf.
  - now apply well_formed_dropShelf.
  - now apply well_formed_splitIfShelfDropped.
  - now apply well_formed_placeFloat.
Qed.

(** ** Occupied tracks have a width, for floats that have one *)

Lemma tracks_from_refl s : tracks_from s s.
Proof. intros n. exists n. auto. Qed.

Lemma tracks_from_trans s3 s2 s1 :
  tracks_from s3 s2 → tracks_from s2 s1 → tracks_from s3 s1.
Proof.
  intros H32 H21 n. destruct (H32 n) as (m & E1 & E2 & E3).
  destruct (H21 m) as (k & F1 & F2 & F3). exists k.
  rewrite E1, E2, E3. auto.
Qed.

Lemma tracks_from_splitTrack i x s :
  same_lengths s → tracks_from (FloatSide.splitTrack i x s) s.
Proof.
  intros (H1 & H2 & H3) n. cbn. rewrite !splice_insert_geti.
  assert (JS.splice_position i (FloatSide.inlineOffsets s)
          = JS.splice_position i (FloatSide.inlineSizes s)) as ->
    by (unfold JS.splice_position; rewrite <- H1, <- H2; reflexivity).
  assert (JS.splice_position i (FloatSide.floatCounts s)
          = JS.splice_position i (FloatSide.inlineSizes s)) as ->
    by (unfold JS.splice_position; rewrite <- H1, <- H3; reflexivity).
  destruct (_ <? _); [exists n; auto|].
  destruct (_ =? _); [exists i; auto|exists (n - 1); auto].
Qed.

Lemma tracks_from_splitIfShelfDropped s :
  same_lengths s → tracks_from (FloatSide.splitIfShelfDropped s) s.
Proof.
  intros H. unfold FloatSide.splitIfShelfDropped.
  destruct (JS.neq_undef _ _); [|apply tracks_from_refl].
  apply (tracks_from_splitTrack _ _ s H).
Qed.

Lemma count_implies_width_tracks_from s' s :
  tracks_from s' s → count_implies_width s → count_implies_width s'.
Proof.
  intros Hfrom H n. destruct (Hfrom n) as (m & -> & _ & ->). apply H.
Qed.

Lemma beside_floats_tracks_from cb s' s :
  tracks_from s' s → (∀ i, beside_floats cb s i) → ∀ i, beside_floats cb s' i.
Proof.
  intros Hfrom H n. unfold beside_floats.
  destruct (Hfrom n) as (m & _ & -> & ->). apply H.
Qed.

Lemma count_implies_width_occupy cb mo width me s t :
  0 < mo + width + me →
  count_implies_width s → beside_floats cb s t →
  count_implies_width (FloatSide.occupy cb mo width me s t).
Proof.
  intros Hbox Hs Ht n. unfold FloatSide.occupy.
  destruct (Z.ltb_spec t 0) as [Hneg|Hpos].
  { assert (∀ v a, JS.seti t v a = a) as E
      by (intros; unfold JS.seti; destruct (Z.ltb_spec t 0); [reflexivity|lia]).
    destruct (JS.is_zero _); cbn; rewrite !E; apply Hs. }
  destruct (Z.eq_dec t n) as [->|Hne].
  - destruct (JS.is_zero _) eqn:Hz; cbn; rewrite !seti_geti_eq by lia.
    + intros _. cbn. apply Z.ltb_lt. lia.
    + unfold beside_floats in Ht.
      destruct (JS.geti (FloatSide.floatCounts s) n) as [c|]; [|discriminate].
      cbn in Hz |- *. intros Hc. apply Z.ltb_lt in Hc.
      apply Z.eqb_neq in Hz.
      specialize (Ht ltac:(apply Z.ltb_lt; lia)).
      destruct (JS.nadd (JS.geti (FloatSide.inlineOffsets s) n) cb) as [v|];
        [|discriminate].
      cbn in Ht |- *. apply Z.leb_le in Ht. apply Z.ltb_lt. lia.
  - destruct (JS.is_zero _); cbn; rewrite !seti_geti_ne by lia; apply Hs.
Qed.

Lemma beside_floats_occupy cb mo width me s t i :
  t ≠ i → beside_floats cb s i →
  beside_floats cb (FloatSide.occupy cb mo width me s t) i.
Proof.
  intros Hne H. unfold beside_floats, FloatSide.occupy.
  destruct (JS.is_zero _); cbn; rewrite !seti_geti_ne by lia; apply H.
Qed.

Lemma count_implies_width_occupy_loop cb mo width me (n : nat) start s :
  0 < mo + width + me →
  count_implies_width s → (∀ i, start ≤ i → beside_floats cb s i) →
  count_implies_width (foldl (FloatSide.occupy cb mo width me) s
                         (seqZ start (Z.of_nat n))).
Proof.
  intros Hbox. revert start s. induction n as [|n IH]; intros start s Hs Hcb.
  - exact Hs.
  - rewrite seqZ_cons by lia. cbn [foldl].
    replace (Z.pred (Z.of_nat (S n))) with (Z.of_nat n) by lia.
    apply IH.
    + apply count_implies_width_occupy; [exact Hbox|exact Hs|apply Hcb; lia].
    + intros i Hi. apply beside_floats_occupy; [lia|apply Hcb; lia].
Qed.

Lemma same_lengths_placeFloat_split size s :
  same_lengths s → tracks_from (placeFloat_split size s).1 s.
Proof.
  intros Hlen. unfold placeFloat_split.
  pose proof (tracks_from_splitIfShelfDropped s Hlen) as H1.
  assert (Hlen1 : same_lengths (FloatSide.splitIfShelfDropped s)).
  { unfold FloatSide.splitIfShelfDropped. destruct (JS.neq_undef _ _); [|exact Hlen].
    apply (same_lengths_splitTrack _ _ s Hlen). }
  destruct (0 <? size); cbn [fst]; [|exact H1].
  destruct (JS.neq_undef _ _); [|exact H1].
  eapply tracks_from_trans; [|exact H1].
  now apply tracks_from_splitTrack.
Qed.

Lemma count_implies_width_push_item b s :
  count_implies_width s → count_implies_width (FloatSide.push_item b s).
Proof. intros H. exact H. Qed.

Lemma count_implies_width_placeFloat b vacancy cl cr s w :
  well_formed s → count_implies_width s → wide_placement s w b vacancy →
  count_implies_width (FloatSide.placeFloat b vacancy cl cr (s, w)).2.1.
Proof.
  intros Hwf Hs (Hbox & Hcb). rewrite placeFloat_steps_eq. unfold placeFloat_steps.
  destruct (bool_decide _); [exact Hs|]. destruct (negb _); [exact Hs|].
  pose proof (same_lengths_placeFloat_split (float_blockSize w b) s
                ltac:(apply Hwf)) as Hfrom.
  destruct (placeFloat_split _ s) as [s2 e]. cbn [fst snd] in *.
  pose proof (count_implies_width_tracks_from s2 s Hfrom Hs) as Hs2.
  pose proof (placeFloat_position_boxes b vacancy cl cr w) as [Hboxes Hwidth].
  destruct (placeFloat_position b vacancy cl cr w) as [[[]|msg] w'];
    cbn [fst snd] in *; [|exact Hs2].
  unfold placeFloat_occupy.
  assert (Hcb' : ∀ i, beside_floats (vacancy_offset w' b vacancy) s2 i).
  { apply (beside_floats_tracks_from _ s2 s Hfrom). intros i.
    unfold beside_floats, vacancy_offset. rewrite Hboxes. apply Hcb. }
  assert (Hbox' : 0 < (if bool_decide (float (style (boxes w' b)) = float_left)
                       then m_lineLeft (getMarginsAutoIsZero (boxes w' b))
                       else m_lineRight (getMarginsAutoIsZero (boxes w' b)))
                      + a_inlineSize (areas w' (borderArea (boxes w' b)))
                      + (if bool_decide (float (style (boxes w' b)) = float_left)
                         then m_lineRight (getMarginsAutoIsZero (boxes w' b))
                         else m_lineLeft (getMarginsAutoIsZero (boxes w' b)))).
  { unfold margin_box_width in Hbox. rewrite Hboxes, Hwidth.
    destruct (bool_decide _); lia. }
  apply count_implies_width_push_item.
  set (n := e - FloatSide.shelfTrackIndex s2).
  destruct (Z.le_gt_cases n 0).
  - rewrite seqZ_nil by lia. exact Hs2.
  - replace n with (Z.of_nat (Z.to_nat n)) by lia.
    apply count_implies_width_occupy_loop; [exact Hbox'|exact Hs2|auto].
Qed.

Lemma count_implies_width_set_shelf x s :
  count_implies_width s → count_implies_width (FloatSide.set_shelf x s).
Proof. intros H. exact H. Qed.



Lemma new_side_no_floats x i :
  JS.ngt (JS.geti (FloatSide.floatCounts (FloatSide.new x)) i) (Some 0) = false.
Proof.
  unfold JS.geti, JS.get. cbn. destruct (i <? 0); [reflexivity|].
  destruct (Z.to_nat i) as [|[|]]; reflexivity.
Qed.

Lemma wide_float_side_reachable : reachable_with wide_placement wide_float_side.
Proof.
  apply reach_placeFloat; [apply reach_new|]. split; [reflexivity|].
  intros i Hi. rewrite new_side_no_floats in Hi. discriminate.
Qed.


(** ** Track ordering and the lengths of the arrays *)



Lemma reachable_weaken P s : reachable_with P s → reachable s.
Proof.
  induction 1.
  - apply reach_new.
  - now apply reach_boxStart.
  - now apply reach_dropShelf.
  - now apply reach_splitIfShelfDropped.
  - now apply reach_placeFloat.
Qed.


(** C10: the constructor makes the four arrays of tracks equally long;
    [splitTrack] and [splitIfShelfDropped] keep them equally long, whatever
    the state and the arguments; and so does [placeFloat], called on a
    state the layout reaches, whether it returns or throws. *)
Theorem track_arrays_same_length :
  (∀ blockOffset, same_lengths (FloatSide.new blockOffset)) ∧
  (∀ s trackIndex blockOffset,
     same_lengths s →
     same_lengths (FloatSide.splitTrack trackIndex blockOffset s)) ∧
  (∀ s, same_lengths s → same_lengths (FloatSide.splitIfShelfDropped s)) ∧
  (∀ s w b vacancy cbLineLeft cbLineRight,
     reachable s →
     same_lengths
       (FloatSide.placeFloat b vacancy cbLineLeft cbLineRight (s, w)).2.1).
Proof.
  split; [|split; [|split]].
  - intros x. repeat split.
  - intros s i x H. now apply same_lengths_splitTrack.
  - intros s H. unfold FloatSide.splitIfShelfDropped.
    destruct (JS.neq_undef _ _); [|exact H].
    apply (same_lengths_splitTrack _ _ s H).
  - intros s w b vacancy cl cr Hr.
    apply (well_formed_placeFloat b vacancy cl cr s w).
    apply (reachable_well_formed _ s Hr).
Qed.

Lemma track_arrays_same_length_witness :
  same_lengths wide_float_side ∧
  same_lengths (FloatSide.splitTrack (-1) 7 wide_float_side).
Proof.
  destruct track_arrays_same_length as (_ & Hsplit & _ & Hplace).
  assert (H : same_lengths wide_float_side)
    by (apply Hplace, reach_new).
  split; [exact H|]. apply Hsplit, H.
Defined.

(** ** The assertion of [FloatSide.placeFloat] *)

Lemma setInlinePosition_ok b v w :
  is_Some (containingBlock (boxes w b)) → (setInlinePosition b v w).1 = Ok tt.
Proof.
  intros [cb Hcb]. unfold setInlinePosition. run_monad. now rewrite Hcb.
Qed.

Lemma box_writingMode_ok b w :
  writing_mode_known w b → ∃ wm, box_writingMode b w = (Ok wm, w).
Proof.
  intros (cb & owner & Hcb & Howner). unfold box_writingMode. run_monad.
  rewrite Hcb, Howner. eauto.
Qed.

Lemma inlineSizeForWritingMode_ok a wm w :
  (∀ owner, a_blockContainer (areas w a) = Some owner →
            writing_mode_known w owner) →
  ∃ size, inlineSizeForWritingMode a wm w = (Ok size, w).
Proof.
  intros H. unfold inlineSizeForWritingMode. unfold bind at 1, gets at 1.
  cbn [id]. destruct (a_blockContainer (areas w a)) as [owner|]; [|cbv; eauto].
  destruct (box_writingMode_ok owner w (H owner eq_refl)) as [owm E].
  unfold bind. rewrite E. destruct (negb _); cbv; eauto.
Qed.

Lemma placeFloat_position_ok b vacancy cl cr w :
  has_containing_block w b →
  (placeFloat_position b vacancy cl cr w).1 = Ok tt.
Proof.
  intros (cb & Hcb & Hright). unfold placeFloat_position.
  unfold bind at 1, gets at 1. cbn [id].
  destruct (bool_decide_reflect (float (style (boxes w b)) = float_left))
    as [Hleft|Hleft].
  - apply setInlinePosition_ok. rewrite Hcb. eauto.
  - destruct (Hright Hleft) as ((owner & Howner & Hknown) & Hborder).
    rewrite Hcb.
    assert (E1 : area_writingMode cb w
                 = (Ok (writingMode (style (boxes w owner))), w)).
    { unfold area_writingMode. run_monad. now rewrite Howner. }
    destruct (inlineSizeForWritingMode_ok cb
                (writingMode (style (boxes w owner))) w) as [size E2].
    { intros o Ho. rewrite Howner in Ho. injection Ho as <-. exact Hknown. }
    destruct (inlineSizeForWritingMode_ok (borderArea (boxes w b))
                (writingMode (style (boxes w owner))) w Hborder) as [size' E3].
    unfold bind. rewrite E1. cbv beta iota. rewrite E2. cbv beta iota.
    rewrite E1. cbv beta iota. rewrite E3. cbv beta iota.
    apply setInlinePosition_ok. rewrite Hcb. eauto.
Qed.



Lemma right_float_has_containing_block :
  has_containing_block right_float_world 0%nat.
Proof.
  exists 1%nat. split; [reflexivity|]. intros _. split.
  - exists 1%nat. split; [reflexivity|]. exists 1%nat, 1%nat. split; reflexivity.
  - intros owner [= <-]. exists 1%nat, 1%nat. split; reflexivity.
Qed.


(** ** The shelves of a float context *)


Lemma preserves_ret {T A} (I : T → Prop) (a : A) : preserves I (ret a).
Proof. intros s w H. exact H. Qed.

Lemma preserves_throw {T A} (I : T → Prop) msg : preserves I (@throw _ A msg).
Proof. intros s w H. exact H. Qed.

Lemma preserves_this {T} (I : T → Prop) : preserves I this.
Proof. intros s w H. exact H. Qed.

Lemma preserves_in_world {T A} (I : T → Prop) (m : M World A) :
  preserves I (in_world m).
Proof.
  intros s w H. unfold in_world. cbn. destruct (m w). exact H.
Qed.

Lemma preserves_update {T} (I : T → Prop) (f : T → T) :
  (∀ s, I s → I (f s)) → preserves I (update f).
Proof. intros Hf s w H. apply Hf, H. Qed.

Lemma preserves_bind {T A B} (I : T → Prop) (m : M (T * World) A)
    (k : A → M (T * World) B) :
  preserves I m → (∀ a, preserves I (k a)) → preserves I (bind m k).
Proof.
  intros Hm Hk s w H. unfold bind. specialize (Hm s w H).
  destruct (m (s, w)) as [[a|msg] [s' w']]; cbn in *; [|exact Hm].
  apply Hk, Hm.
Qed.

Lemma preserves_within {T U A} (I : T → Prop) (R : U → U → Prop)
    (part : T → U) (put : U → T → T) (m : M (U * World) A) :
  (∀ u w, R u (m (u, w)).2.1) →
  (∀ s u, I s → R (part s) u → I (put u s)) →
  preserves I (within part put m).
Proof.
  intros Hm Hput s w H. unfold within. cbn.
  specialize (Hm (part s) w). destruct (m (part s, w)) as [r [u w']].
  cbn in *. apply Hput; assumption.
Qed.

Ltac preserves_step :=
  match goal with
  | |- preserves _ (bind _ _) => apply preserves_bind; [|intros ?]
  | |- preserves _ (ret _) => apply preserves_ret
  | |- preserves _ (throw _) => apply preserves_throw
  | |- preserves _ this => apply preserves_this
  | |- preserves _ (in_world _) => apply preserves_in_world
  | |- preserves _ (if ?c then _ else _) => destruct c
  | |- preserves _ (match ?x with Some _ => _ | None => _ end) => destruct x
  | |- preserves _ (let _ := _ in _) => cbv zeta
  end.

Lemma shelf_set_shelf x s :
  FloatSide.shelfBlockOffset (FloatSide.set_shelf x s) = x.
Proof. reflexivity. Qed.

Lemma shelf_dropShelf x s :
  FloatSide.shelfBlockOffset s
    ≤ FloatSide.shelfBlockOffset (FloatSide.dropShelf x s).
Proof.
  unfold FloatSide.dropShelf. destruct (Z.ltb_spec (FloatSide.shelfBlockOffset s) x).
  - rewrite shelf_set_shelf. lia.
  - lia.
Qed.

Lemma shelf_dropShelf_to v s :
  FloatSide.shelfBlockOffset s
    ≤ FloatSide.shelfBlockOffset (FloatContext.dropShelf_to v s).
Proof. destruct v; [apply shelf_dropShelf|cbn; lia]. Qed.

Lemma shelf_splitIfShelfDropped s :
  FloatSide.shelfBlockOffset (FloatSide.splitIfShelfDropped s)
    = FloatSide.shelfBlockOffset s.
Proof.
  unfold FloatSide.splitIfShelfDropped. destruct (JS.neq_undef _ _); reflexivity.
Qed.

Lemma shelf_occupy_loop cb mo width me tracks s :
  FloatSide.shelfBlockOffset (foldl (FloatSide.occupy cb mo width me) s tracks)
    = FloatSide.shelfBlockOffset s.
Proof.
  revert s. induction tracks as [|t tracks IH]; intros s; [reflexivity|].
  cbn [foldl]. rewrite IH. apply occupy_fields.
Qed.

(** [FloatSide.placeFloat] leaves the shelf where it is. *)
Lemma shelf_placeFloat b vacancy cl cr s w :
  FloatSide.shelfBlockOffset (FloatSide.placeFloat b vacancy cl cr (s, w)).2.1
    = FloatSide.shelfBlockOffset s.
Proof.
  rewrite placeFloat_steps_eq. unfold placeFloat_steps.
  destruct (bool_decide _); [reflexivity|]. destruct (negb _); [reflexivity|].
  assert (H2 : FloatSide.shelfBlockOffset (placeFloat_split (float_blockSize w b) s).1
               = FloatSide.shelfBlockOffset s).
  { unfold placeFloat_split. destruct (0 <? _); cbn [fst];
      [destruct (JS.neq_undef _ _)|]; cbn; apply shelf_splitIfShelfDropped. }
  destruct (placeFloat_split _ s) as [s2 e]. cbn [fst] in H2.
  destruct (placeFloat_position b vacancy cl cr w) as [[[]|msg] w'];
    cbn [fst snd]; [|exact H2].
  unfold placeFloat_occupy. cbn [FloatSide.push_item FloatSide.shelfBlockOffset].
  rewrite shelf_occupy_loop. exact H2.
Qed.

Lemma shelves_le_refl f : shelves_le f f.
Proof. split; lia. Qed.

Lemma shelves_le_trans f1 f2 f3 :
  shelves_le f1 f2 → shelves_le f2 f3 → shelves_le f1 f3.
Proof. intros [] []. split; lia. Qed.

Lemma shelves_le_put_side f0 sd s f :
  shelves_le f0 f →
  FloatSide.shelfBlockOffset (FloatContext.side sd f)
    ≤ FloatSide.shelfBlockOffset s →
  shelves_le f0 (FloatContext.put_side sd s f).
Proof. intros [H1 H2] Hs. destruct sd; split; cbn in *; lia. Qed.

Lemma preserves_placeFloat f0 bfc lineWidth lineIsEmpty b :
  preserves (shelves_le f0) (FloatContext.placeFloat bfc lineWidth lineIsEmpty b).
Proof.
  unfold FloatContext.placeFloat.
  repeat first
    [ preserves_step
    | apply preserves_update; intros f Hf;
      first [ exact Hf
            | apply shelves_le_put_side; [exact Hf|apply shelf_dropShelf_to] ]
    | apply (preserves_within _
               (λ u u', FloatSide.shelfBlockOffset u' = FloatSide.shelfBlockOffset u));
      [ intros u w; apply shelf_placeFloat
      | intros f u Hf Hu; apply shelves_le_put_side; [exact Hf|lia] ] ].
Qed.

Lemma preserves_retry f0 bfc queue :
  preserves (shelves_le f0) (FloatContext.retry bfc queue).
Proof.
  induction queue as [|b queue IH]; cbn [FloatContext.retry].
  - apply preserves_ret.
  - apply preserves_bind; [apply preserves_placeFloat|intros _; exact IH].
Qed.

Lemma preserves_round f0 bfc :
  preserves (shelves_le f0) (FloatContext.consumeMisfits_round bfc).
Proof.
  unfold FloatContext.consumeMisfits_round.
  apply preserves_bind; [apply preserves_this|intros f].
  apply preserves_bind; [|intros _; apply preserves_retry].
  apply preserves_update. intros s Hs. exact Hs.
Qed.

Lemma shelves_le_dropShelf x f : shelves_le f (FloatContext.dropShelf x f).
Proof. split; cbn; apply shelf_dropShelf. Qed.

Lemma shelves_le_consumeMisfits fuel bfc s r s' :
  FloatContext.consumeMisfits fuel bfc s = Some (r, s') → shelves_le s.1 s'.1.
Proof.
  revert s. induction fuel as [|fuel IH]; intros s; cbn [FloatContext.consumeMisfits];
    destruct (bool_decide _).
  - intros [= _ <-]. apply shelves_le_refl.
  - discriminate.
  - intros [= _ <-]. apply shelves_le_refl.
  - pose proof (preserves_round s.1 bfc s.1 s.2 (shelves_le_refl _)) as Hround.
    destruct s as [f w]. cbn [fst snd] in *.
    destruct (FloatContext.consumeMisfits_round bfc (f, w)) as [[[]|msg] s1].
    + intros H. apply IH in H. eapply shelves_le_trans; eassumption.
    + intros [= _ <-]. exact Hround.
Qed.

Lemma shelves_le_apply_op bfc op s :
  op ≠ BoxStart → shelves_le s.1 (apply_op bfc op s).1.
Proof.
  intros Hop. destruct s as [f w]. destruct op; [congruence|..]; cbn [apply_op fst snd].
  - apply shelves_le_dropShelf.
  - apply (preserves_placeFloat f bfc lineWidth lineIsEmpty b f w),
      shelves_le_refl.
  - apply (preserves_round f bfc f w), shelves_le_refl.
Qed.



(** ** [consumeMisfits] *)

(** With the shelf on a track the queue is drained: a float too wide for
    its containing block is queued when the line is not empty, and the
    first round of [consumeMisfits] places it. *)
Example consumeMisfits_drains_queue :
  let s := apply_ops [(view_at 0, PlaceFloat 0 false 0%nat)]
             (FloatContext.new 0, broad_float_world) in
  FloatContext.misfits s.1 = [0%nat] ∧
  ∃ s', FloatContext.consumeMisfits 1 (view_at 0) s = Some (Ok tt, s') ∧
        FloatContext.misfits s'.1 = [] ∧
        FloatSide.items (FloatContext.leftFloats s'.1) = [0%nat] ∧
        FloatSide.blockOffsets (FloatContext.leftFloats s'.1) = [0; 10].
Proof.
  cbv zeta. split; [reflexivity|].
  eexists. split; [vm_compute; reflexivity|].
  split; [reflexivity|]. split; reflexivity.
Qed.

(** C4, the code at the failing input: the float is a misfit, with the
    shelf of its side above the first track, at track index [-1]; the
    float counts of the vacancy are read from [floatCounts[-1]] and are
    [NaN], so that a round of [consumeMisfits] neither places the float
    nor moves a shelf, and leaves the state as it found it; the loop is
    never left. *)
Theorem consumeMisfits_never_returns :
  FloatContext.misfits shelf_above_tracks.1 = [0%nat] ∧
  FloatSide.shelfTrackIndex (FloatContext.leftFloats shelf_above_tracks.1) = -1 ∧
  leftFloatCount
    (FloatContext.getVacancyForBox (view_at 50) shelf_above_tracks.1
       float_left 10) = None ∧
  FloatContext.consumeMisfits_round (view_at 50) shelf_above_tracks
    = (Ok tt, shelf_above_tracks) ∧
  ∀ fuel, FloatContext.consumeMisfits fuel (view_at 50) shelf_above_tracks = None.
Proof.
  assert (Hround : FloatContext.consumeMisfits_round (view_at 50) shelf_above_tracks
                   = (Ok tt, shelf_above_tracks)) by (vm_compute; reflexivity).
  split; [reflexivity|]. split; [reflexivity|]. split; [reflexivity|].
  split; [exact Hround|].
  intros fuel. induction fuel as [|fuel IH]; [reflexivity|].
  cbn [FloatContext.consumeMisfits].
  replace (bool_decide (FloatContext.misfits shelf_above_tracks.1 = []))
    with false by reflexivity.
  rewrite Hround. exact IH.
Qed.

(** * Further properties of the code *)

(** ** The searches of [src/util.ts] *)

Lemma binarySearch_loop_step a x l r :
  binarySearch_loop a x l r =
    let i := (l + r) / 2 in
    if JS.lt_undef (JS.get a i) x then
      if r <? i + 1 then i + 1 else binarySearch_loop a x (i + 1) r
    else if JS.gt_undef (JS.get a i) x then
      if i - 1 <? l then i else binarySearch_loop a x l (i - 1)
    else i.
Proof.
  funelim (binarySearch_loop a x l r); cbv zeta;
    repeat match goal with
      | H : {| pr1 := _; pr2 := _ |} = _ |- _ => clear H
      end;
    repeat match goal with
      | H : _ = true |- _ => rewrite H; clear H
      | H : _ = false |- _ => rewrite H; clear H
      end; reflexivity.
Qed.

Lemma keyed_search_loop_step {T} (key : T → Z) a x l r :
  keyed_search_loop key a x l r =
    let i := (l + r) / 2 in
    match JS.get a i with
    | None => Throw "TypeError: the element is undefined"
    | Some t =>
        if key t <? x then
          if r <? i + 1 then Ok (i + 1) else keyed_search_loop key a x (i + 1) r
        else if x <? key t then
          if i - 1 <? l then Ok i else keyed_search_loop key a x l (i - 1)
        else Ok i
    end.
Proof.
  funelim (keyed_search_loop key a x l r); cbv zeta;
    repeat match goal with
      | H : {| pr1 := _; pr2 := _ |} = _ |- _ => clear H
      end;
    repeat match goal with
      | H : _ = true |- _ => rewrite H; clear H
      | H : _ = false |- _ => rewrite H; clear H
      | H : JS.get _ _ = _ |- _ => rewrite H; clear H
      end; reflexivity.
Qed.

Lemma JS_get_fmap {A B} (f : A → B) a i : JS.get (f <$> a) i = f <$> JS.get a i.
Proof.
  unfold JS.get. destruct (i <? 0); [reflexivity|]. apply list_lookup_fmap.
Qed.

Lemma JS_len_fmap {A B} (f : A → B) a : JS.len (f <$> a) = JS.len a.
Proof. unfold JS.len. now rewrite length_fmap. Qed.

(** Inside the array the keyed loop reads no [undefined] element and
    computes what the loop of [binarySearch] computes on the keys. *)
Lemma keyed_search_loop_keys {T} (key : T → Z) a x (n : nat) : ∀ l r,
  Z.to_nat (r - l + 1) = n → 0 ≤ l → l ≤ r → r < JS.len a →
  keyed_search_loop key a x l r = Ok (binarySearch_loop (key <$> a) x l r).
Proof.
  induction n as [n IH] using lt_wf_ind. intros l r Hn Hl Hlr Hr.
  rewrite keyed_search_loop_step, binarySearch_loop_step. cbv zeta.
  assert (Hmid : l ≤ (l + r) / 2 ≤ r) by (Z.div_mod_to_equations; lia).
  rewrite JS_get_fmap.
  destruct (JS_get_is_Some a ((l + r) / 2)) as [t Ht]; [lia|].
  rewrite Ht. cbn.
  destruct (key t <? x) eqn:E1.
  - destruct (Z.ltb_spec r ((l + r) / 2 + 1)); [reflexivity|].
    eapply IH; [|reflexivity|lia..]. lia.
  - destruct (x <? key t) eqn:E2; [|reflexivity].
    destruct (Z.ltb_spec ((l + r) / 2 - 1) l); [reflexivity|].
    eapply IH; [|reflexivity|lia..]. lia.
Qed.

Lemma keyed_search_keys {T} (key : T → Z) (a : list T) x :
  (if JS.len a - 1 <? 0 then Ok (-1)
   else keyed_search_loop key a x 0 (JS.len a - 1))
  = Ok (binarySearch (key <$> a) x).
Proof.
  destruct (Z.ltb_spec (JS.len a - 1) 0) as [Hlt|Hge].
  - destruct a; [|unfold JS.len in Hlt; cbn in Hlt; lia].
    now rewrite binarySearch_empty.
  - unfold binarySearch. rewrite JS_len_fmap.
    eapply keyed_search_loop_keys; [reflexivity|lia..].
Qed.

(** X1: in a strictly increasing array [binarySearch] finds every element
    at its own index. *)
Theorem binarySearch_finds (a : list Z) (i y : Z) :
  strictly_increasing a → JS.get a i = Some y → binarySearch a y = i.
Proof.
  intros Hinc Hy.
  assert (Hne : a ≠ []).
  { intros ->. unfold JS.get in Hy. destruct (i <? 0); discriminate. }
  destruct (binarySearch_nonempty a y Hinc Hne) as ([Hlo Hhi] & Hbelow & Hat).
  pose proof (JS_get_lt _ _ _ Hy) as Hi.
  destruct (Z.lt_trichotomy (binarySearch a y) i) as [Hlt|[Heq|Hgt]];
    [|exact Heq|].
  - destruct (JS_get_is_Some a (binarySearch a y)) as [z Hz]; [lia|].
    pose proof (Hat z Hz).
    pose proof (strictly_increasing_get a _ _ z y Hinc Hlt Hz Hy). lia.
  - pose proof (Hbelow i y ltac:(lia) Hy). lia.
Qed.

Lemma binarySearch_finds_witness :
  strictly_increasing [0; 10; 20; 35] ∧
  JS.get [0; 10; 20; 35] 2 = Some 20 ∧
  binarySearch [0; 10; 20; 35] 20 = 2.
Proof.
  assert (Hinc : strictly_increasing [0; 10; 20; 35])
    by (apply strictly_increasingb_spec; reflexivity).
  split; [exact Hinc|]. split; [reflexivity|].
  apply (binarySearch_finds [0; 10; 20; 35] 2 20 Hinc). reflexivity.
Defined.

(** X2: whatever the order of the elements, [binarySearch] returns an index
    of the array or its length, and [-1] exactly on the empty array; it
    never returns a position past the end. *)
Theorem binarySearch_in_bounds (a : list Z) (x : Z) :
  -1 ≤ binarySearch a x ≤ JS.len a ∧
  (binarySearch a x = -1 ↔ a = []).
Proof.
  destruct a as [|y t].
  - rewrite binarySearch_empty. unfold JS.len. cbn. split; [lia|tauto].
  - pose proof (binarySearch_range (y :: t) x ltac:(discriminate)).
    split; [lia|]. split; [lia|discriminate].
Qed.

(** X3: [binarySearchOf] never hands [undefined] to the callback, and
    returns what [binarySearch] returns on the array of the keys
    [end(a[0]), end(a[1]), ...]: [-1] on the empty array, and the insertion
    position of [x] when the keys are strictly increasing. *)
Theorem binarySearchOf_keys {T} (a : list T) (x : Z) (end_ : T → Z) :
  binarySearchOf a x end_ = Ok (binarySearch (end_ <$> a) x) ∧
  (a = [] → binarySearchOf a x end_ = Ok (-1)) ∧
  (a ≠ [] → strictly_increasing (end_ <$> a) →
   ∃ i, binarySearchOf a x end_ = Ok i ∧
        insertion_position (end_ <$> a) x i).
Proof.
  assert (H : binarySearchOf a x end_ = Ok (binarySearch (end_ <$> a) x))
    by apply keyed_search_keys.
  split; [exact H|]. split.
  - intros ->. reflexivity.
  - intros Hne Hinc. eexists. split; [exact H|].
    apply binarySearch_nonempty; [exact Hinc|].
    destruct a; [congruence|discriminate].
Qed.

(** X4: [binarySearchTuple] reads the second component of no [undefined]
    element, and returns what [binarySearch] returns on the array of the
    second components: [-1] on the empty array, and the insertion position
    of [x] when they are strictly increasing. *)
Theorem binarySearchTuple_keys {T} (a : list (T * Z)) (x : Z) :
  binarySearchTuple a x = Ok (binarySearch (snd <$> a) x) ∧
  (a = [] → binarySearchTuple a x = Ok (-1)) ∧
  (a ≠ [] → strictly_increasing (snd <$> a) →
   ∃ i, binarySearchTuple a x = Ok i ∧
        insertion_position (snd <$> a) x i).
Proof.
  assert (H : binarySearchTuple a x = Ok (binarySearch (snd <$> a) x))
    by apply keyed_search_keys.
  split; [exact H|]. split.
  - intros ->. reflexivity.
  - intros Hne Hinc. eexists. split; [exact H|].
    apply binarySearch_nonempty; [exact Hinc|].
    destruct a; [congruence|discriminate].
Qed.

(** ** The strings of [src/util.ts] *)

Lemma loggableText_map text :
  loggableText text
  = (λ u, if u =? 10 then 9166 else if u =? 9 then 9225 else u) <$> text.
Proof.
  unfold loggableText, replace_unit.
  induction text as [|u t IH]; [reflexivity|].
  cbn [mbind list_bind fmap list_fmap] in *.
  destruct (Z.eqb_spec u 10) as [->|H10]; cbn.
  - now rewrite IH.
  - destruct (Z.eqb_spec u 9) as [->|H9]; cbn; now rewrite IH.
Qed.

(** X5: [loggableText] keeps the length of the text and every code unit
    but line feeds and tabs, which become U+23CE and U+2409; its result
    holds no line feed and no tab, and it leaves its own results as they
    are. *)
Theorem loggableText_one_line (text : list Z) :
  length (loggableText text) = length text ∧
  (∀ i u, text !! i = Some u →
     loggableText text !! i
     = Some (if u =? 10 then 9166 else if u =? 9 then 9225 else u)) ∧
  (10 ∉ loggableText text) ∧
  (9 ∉ loggableText text) ∧
  loggableText (loggableText text) = loggableText text.
Proof.
  rewrite !loggableText_map. split; [apply length_fmap|].
  split; [intros i u Hu; now rewrite list_lookup_fmap, Hu|].
  split; [|split].
  - intros (u & Hu & _)%list_elem_of_fmap.
    destruct (Z.eqb_spec u 10); [lia|]. destruct (Z.eqb_spec u 9); lia.
  - intros (u & Hu & _)%list_elem_of_fmap.
    destruct (Z.eqb_spec u 10); [lia|]. destruct (Z.eqb_spec u 9); lia.
  - rewrite <- list_fmap_compose. apply list_fmap_ext. intros _ u _. cbn.
    destruct (Z.eqb_spec u 10); [reflexivity|].
    destruct (Z.eqb_spec u 9); [reflexivity|].
    destruct (Z.eqb_spec u 10); [lia|]. destruct (Z.eqb_spec u 9); [lia|].
    reflexivity.
Qed.

Lemma lastIndexOf_spec c s :
  (lastIndexOf c s = -1 ∧ (c ∉ s)) ∨
  (∃ pre post, s = pre ++ c :: post ∧ (c ∉ post) ∧
               lastIndexOf c s = Z.of_nat (length pre)).
Proof.
  induction s as [|u t IH].
  { left. split; [reflexivity|apply not_elem_of_nil]. }
  cbn [lastIndexOf]. destruct IH as [[Hk Hnot]|(pre & post & -> & Hpost & Hk)].
  - rewrite Hk. cbn. destruct (Z.eqb_spec u c) as [->|Hne].
    + right. exists [], t. split; [reflexivity|]. split; [exact Hnot|reflexivity].
    + left. split; [reflexivity|]. rewrite not_elem_of_cons. split; congruence.
  - rewrite Hk. destruct (Z.leb_spec 0 (Z.of_nat (length pre))); [|lia].
    right. exists (u :: pre), post. split; [reflexivity|].
    split; [exact Hpost|]. cbn [length]. lia.
Qed.

(** X6: [basename] returns what follows the last [/] of the href, which
    holds no [/]; an href without [/] is returned whole. *)
Theorem basename_after_last_slash (href : list Z) :
  (47 ∉ basename href) ∧
  (47 ∉ href → basename href = href) ∧
  (47 ∈ href → ∃ dir, href = dir ++ 47 :: basename href).
Proof.
  unfold basename, slice_from.
  destruct (lastIndexOf_spec 47 href)
    as [[Hk Hnot]|(pre & post & -> & Hpost & Hk)]; rewrite Hk.
  - cbn. split; [exact Hnot|]. split; [reflexivity|]. intros H. contradiction.
  - destruct (Z.ltb_spec (Z.of_nat (length pre) + 1) 0) as [?|_]; [lia|].
    replace (Z.to_nat (Z.of_nat (length pre) + 1)) with (length pre + 1)%nat
      by lia.
    rewrite <- drop_drop, drop_app_length. cbn [drop].
    split; [exact Hpost|]. split.
    + intros H. exfalso. apply H. rewrite elem_of_app. right. apply list_elem_of_here.
    + intros _. exists pre. reflexivity.
Qed.

Lemma counter_after_min k :
  Util.counter_after k = Z.min (Z.of_nat k) (2 ^ 53).
Proof.
  assert (E : 2 ^ 53 = 9007199254740992) by reflexivity.
  induction k as [|k IH]; [reflexivity|].
  cbn [Util.counter_after]. unfold Util.id. cbn [snd]. rewrite IH, E.
  destruct (Z.ltb_spec (Z.min (Z.of_nat k) 9007199254740992) 9007199254740992);
    lia.
Qed.

(** X7: the call number [k] of [id()] returns the decimal notation of [k],
    up to the call number [2^53], whose result every later call repeats;
    the results of the calls up to that one are pairwise different. *)
Theorem id_unique (i j : nat) :
  Z.of_nat i ≤ 2 ^ 53 → Z.of_nat j ≤ 2 ^ 53 → i ≠ j →
  Util.nth_id i = Ok (pretty (Z.of_nat i)) ∧
  Util.nth_id i ≠ Util.nth_id j ∧
  ∀ k, 2 ^ 53 ≤ Z.of_nat k → Util.nth_id k = Ok (pretty (2 ^ 53)).
Proof.
  intros Hi Hj Hij. unfold Util.nth_id, Util.id. cbn [fst].
  rewrite !counter_after_min, !Z.min_l by lia.
  split; [reflexivity|]. split.
  - intros [= H]. apply (inj pretty) in H. lia.
  - intros k Hk. rewrite counter_after_min, Z.min_r by lia. reflexivity.
Qed.

Lemma id_unique_witness :
  Util.nth_id 0 = Ok "0" ∧ Util.nth_id 12 = Ok "12" ∧
  Util.nth_id 0 ≠ Util.nth_id 12.
Proof.
  split; [reflexivity|]. split; [reflexivity|].
  apply (id_unique 0 12); [cbn; lia..|discriminate].
Defined.

(** ** [Logger] *)

Lemma split_unit_cons c s : ∃ first rest, split_unit c s = first :: rest.
Proof.
  destruct s as [|u t]; cbn; [eauto|].
  destruct (u =? c); [eauto|]. destruct (split_unit c t); eauto.
Qed.

Lemma Logger_text_pieces str : ∀ lg,
  match split_unit 10 str with
  | [] => False
  | first :: rest =>
      let lg' :=
        foldl (λ lg line, Logger.append line (Logger.newline lg))
              (Logger.append first lg) rest in
      Logger.string lg'
      = Logger.string lg
        ++ indented (concat (Logger.indent lg)) (Logger.lineIsEmpty lg) str ∧
      Logger.lineIsEmpty lg' = at_line_start (Logger.lineIsEmpty lg) str ∧
      Logger.formats lg' = Logger.formats lg ∧
      Logger.indent lg' = Logger.indent lg
  end.
Proof.
  induction str as [|u t IH]; intros lg.
  - cbn. rewrite app_nil_r. auto.
  - cbn [split_unit indented at_line_start].
    destruct (Z.eqb_spec u 10) as [->|Hu].
    + specialize (IH (Logger.newline lg)).
      destruct (split_unit 10 t) as [|first rest]; [contradiction|].
      cbn [foldl]. cbv zeta in IH |- *.
      replace (Logger.append [] lg) with lg by reflexivity.
      destruct IH as (Hs & Hl & Hf & Hi). rewrite Hs, Hl, Hf, Hi. cbn.
      rewrite <- app_assoc. auto.
    + set (lg1 :=
        {| Logger.string :=
             (if Logger.lineIsEmpty lg
              then Logger.string lg ++ concat (Logger.indent lg)
              else Logger.string lg) ++ [u];
           Logger.formats := Logger.formats lg;
           Logger.indent := Logger.indent lg;
           Logger.lineIsEmpty := false |}).
      specialize (IH lg1).
      destruct (split_unit 10 t) as [|first rest]; [contradiction|].
      cbv zeta in IH |- *.
      assert (E : Logger.append (u :: first) lg = Logger.append first lg1).
      { unfold Logger.append. rewrite bool_decide_false by discriminate.
        destruct (bool_decide_reflect (first = [])) as [->|_]; [reflexivity|].
        cbn. f_equal. rewrite <- app_assoc. reflexivity. }
      rewrite E. destruct IH as (Hs & Hl & Hf & Hi). rewrite Hs, Hl, Hf, Hi.
      cbn. repeat split. destruct (Logger.lineIsEmpty lg);
        rewrite <- ?app_assoc; reflexivity.
Qed.

(** X8: [Logger.text(str)] appends [str] with the indentation put before
    the first unit of every line that is not empty, a line being what
    follows a line feed of [str] or, when the logger is at the start of a
    line, the start of [str]; empty lines get no indentation.  Without
    indentation it appends [str] as it is.  The formats and the indent
    stack are left alone. *)
Theorem Logger_text_indents (str : list Z) (lg : Logger.t) :
  Logger.string (Logger.text str lg)
  = Logger.string lg
    ++ indented (concat (Logger.indent lg)) (Logger.lineIsEmpty lg) str ∧
  Logger.lineIsEmpty (Logger.text str lg)
  = at_line_start (Logger.lineIsEmpty lg) str ∧
  Logger.formats (Logger.text str lg) = Logger.formats lg ∧
  Logger.indent (Logger.text str lg) = Logger.indent lg ∧
  (Logger.indent lg = [] →
   Logger.string (Logger.text str lg) = Logger.string lg ++ str).
Proof.
  pose proof (Logger_text_pieces str lg) as H. unfold Logger.text.
  destruct (split_unit 10 str) as [|first rest]; [contradiction|].
  cbv zeta in H. destruct H as (Hs & Hl & Hf & Hi).
  repeat split; try assumption.
  intros Hind. rewrite Hs, Hind. cbn. f_equal.
  generalize (Logger.lineIsEmpty lg). clear.
  induction str as [|u t IH]; intros b; [reflexivity|].
  cbn. destruct (Z.eqb_spec u 10) as [->|_]; [now rewrite IH|].
  destruct b; cbn; now rewrite IH.
Qed.

(** ** The shelf and the tracks of a float side *)

Lemma track_contains_unique offsets i j x :
  strictly_increasing offsets →
  track_contains offsets i x → track_contains offsets j x → i = j.
Proof.
  assert (Hlt : ∀ i j,
    strictly_increasing offsets →
    track_contains offsets i x → track_contains offsets j x → ¬ i < j).
  { clear i j. intros i j Hinc (Hi & _ & Hnext) (Hj & Htop & _) Hij.
    destruct (JS_get_is_Some offsets j) as [y Hy]; [lia|].
    destruct (JS_get_is_Some offsets (i + 1)) as [z Hz]; [lia|].
    pose proof (Htop y Hy). pose proof (Hnext z Hz).
    destruct (Z.eq_dec (i + 1) j) as [Heq|Hne].
    - rewrite Heq in Hz. rewrite Hy in Hz. injection Hz as <-. lia.
    - pose proof (strictly_increasing_get offsets (i + 1) j z y Hinc
                    ltac:(lia) Hz Hy). lia. }
  intros Hinc Hi Hj.
  pose proof (Hlt i j Hinc Hi Hj). pose proof (Hlt j i Hinc Hj Hi). lia.
Qed.



Lemma dropShelf_dropShelf x y s :
  FloatSide.dropShelf x (FloatSide.dropShelf y s)
  = FloatSide.dropShelf (Z.max x y) s.
Proof.
  unfold FloatSide.dropShelf.
  destruct (Z.ltb_spec (FloatSide.shelfBlockOffset s) y) as [Hy|Hy].
  - cbn [FloatSide.set_shelf FloatSide.shelfBlockOffset].
    destruct (Z.ltb_spec y x) as [Hx|Hx].
    + rewrite Z.max_l by lia.
      destruct (Z.ltb_spec (FloatSide.shelfBlockOffset s) x); [|lia].
      reflexivity.
    + rewrite Z.max_r by lia.
      destruct (Z.ltb_spec (FloatSide.shelfBlockOffset s) y); [|lia].
      reflexivity.
  - destruct (Z.ltb_spec (FloatSide.shelfBlockOffset s) x) as [Hx|Hx].
    + rewrite Z.max_l by lia.
      destruct (Z.ltb_spec (FloatSide.shelfBlockOffset s) x); [|lia].
      reflexivity.
    + destruct (Z.ltb_spec (FloatSide.shelfBlockOffset s) (Z.max x y)); [lia|].
      reflexivity.
Qed.

(** X10: [dropShelf] moves the shelf to the greater of its place and the
    given offset, so that two drops are one drop to the greater offset, in
    whatever order, and dropping twice to the same offset is dropping once;
    the same holds for the two sides of a float context together. *)
Theorem dropShelf_max (x y : Z) (s : FloatSide.t) (f : FloatContext.t) :
  FloatSide.shelfBlockOffset (FloatSide.dropShelf x s)
  = Z.max (FloatSide.shelfBlockOffset s) x ∧
  FloatSide.dropShelf x (FloatSide.dropShelf y s)
  = FloatSide.dropShelf (Z.max x y) s ∧
  FloatSide.dropShelf x (FloatSide.dropShelf y s)
  = FloatSide.dropShelf y (FloatSide.dropShelf x s) ∧
  FloatContext.dropShelf x (FloatContext.dropShelf y f)
  = FloatContext.dropShelf (Z.max x y) f.
Proof.
  split; [|split; [|split]].
  - unfold FloatSide.dropShelf.
    destruct (Z.ltb_spec (FloatSide.shelfBlockOffset s) x); cbn; lia.
  - apply dropShelf_dropShelf.
  - rewrite !dropShelf_dropShelf. now rewrite Z.max_comm.
  - unfold FloatContext.dropShelf. cbn. now rewrite !dropShelf_dropShelf.
Qed.

Lemma nmax_fold_nonneg {A} (f : JS.num → A → JS.num) (l : list A) :
  (∀ acc i v, f acc i = Some v → ∃ v0, acc = Some v0 ∧ v0 ≤ v) →
  ∀ acc v v0, acc = Some v0 → foldl f acc l = Some v → v0 ≤ v.
Proof.
  intros Hf. induction l as [|i l IH]; intros acc v v0 Hacc H; cbn in H.
  - rewrite Hacc in H. injection H as <-. lia.
  - destruct (f acc i) as [v1|] eqn:E.
    + destruct (Hf acc i v1 E) as (v0' & Hacc' & Hle).
      rewrite Hacc in Hacc'. injection Hacc' as <-.
      pose proof (IH (Some v1) v v1 eq_refl H). lia.
    + exfalso. clear -H Hf. revert H. induction l as [|j l IH]; cbn.
      * discriminate.
      * destruct (f None j) as [v1|] eqn:E; [|exact IH].
        destruct (Hf None j v1 E) as (? & ? & _). discriminate.
Qed.

Lemma getSizeOfTracks_nonneg s a b off v :
  FloatSide.getSizeOfTracks s a b off = Some v → 0 ≤ v.
Proof.
  intros H. unfold FloatSide.getSizeOfTracks in H.
  eapply nmax_fold_nonneg; [|reflexivity|exact H].
  intros acc i v1. cbn. destruct (JS.ngt _ _).
  - destruct acc as [v0|]; [|discriminate].
    destruct (JS.nsub _ _) as [z|]; [|discriminate].
    cbn. intros [= <-]. exists v0. split; [reflexivity|lia].
  - intros ->. exists v1. split; [reflexivity|lia].
Qed.

Lemma getOccupiedSpace_nonneg s blockOffset blockSize off v :
  FloatSide.getOccupiedSpace s blockOffset blockSize off = Some v → 0 ≤ v.
Proof.
  unfold FloatSide.getOccupiedSpace.
  destruct (bool_decide _); [intros [= <-]; lia|].
  destruct (FloatSide.getTrackRange _ _ _). apply getSizeOfTracks_nonneg.
Qed.

(** X11: the space that floats take is never negative: the results of
    [getSizeOfTracks], [getOverflow], [getOccupiedSpace] and
    [getFloatCountOfTracks] are [NaN] or not below [0], for every state and
    every range of tracks. *)
Theorem occupied_space_not_negative (s : FloatSide.t) (start end_ : Z)
    (blockOffset blockSize : Z) (inlineOffset : JS.num) :
  (∀ v, FloatSide.getSizeOfTracks s start end_ inlineOffset = Some v → 0 ≤ v) ∧
  (∀ v, FloatSide.getOverflow s = Some v → 0 ≤ v) ∧
  (∀ v, FloatSide.getOccupiedSpace s blockOffset blockSize inlineOffset = Some v
        → 0 ≤ v) ∧
  (∀ v, FloatSide.getFloatCountOfTracks s start end_ = Some v → 0 ≤ v).
Proof.
  split; [apply getSizeOfTracks_nonneg|].
  split; [apply getSizeOfTracks_nonneg|].
  split; [apply getOccupiedSpace_nonneg|].
  intros v H. unfold FloatSide.getFloatCountOfTracks in H.
  eapply nmax_fold_nonneg; [|reflexivity|exact H].
  intros acc i v1. cbn. destruct acc as [v0|]; [|discriminate].
  destruct (JS.geti _ _) as [z|]; [|discriminate].
  cbn. intros [= <-]. exists v0. split; [reflexivity|lia].
Qed.

(** ** The vacancy beside the floats *)


(** ** The bottom of the floats *)

Lemma last_track_free_splitTrack i x s :
  same_lengths s → -1 ≤ i < JS.len (FloatSide.blockOffsets s) →
  last_track_free s → last_track_free (FloatSide.splitTrack i x s).
Proof.
  intros (_ & _ & Hlen) Hi Hfree. unfold last_track_free in *.
  cbn [FloatSide.splitTrack FloatSide.floatCounts FloatSide.blockOffsets].
  rewrite splice_insert_len, splice_insert_geti.
  assert (Hpos : JS.splice_position i (FloatSide.floatCounts s)
                 ≤ JS.len (FloatSide.blockOffsets s) - 1).
  { assert (0 ≤ JS.len (FloatSide.blockOffsets s) - 1).
    { unfold JS.geti in Hfree.
      destruct (JS.get _ _) eqn:E in Hfree; [|discriminate].
      apply JS_get_lt in E. lia. }
    unfold JS.splice_position. rewrite <- Hlen.
    destruct (Z.ltb_spec i 0); lia. }
  destruct (Z.ltb_spec (JS.len (FloatSide.blockOffsets s) + 1 - 1)
              (JS.splice_position i (FloatSide.floatCounts s))); [lia|].
  destruct (Z.eqb_spec (JS.len (FloatSide.blockOffsets s) + 1 - 1)
              (JS.splice_position i (FloatSide.floatCounts s))); [lia|].
  rewrite <- Hfree. f_equal. lia.
Qed.

Lemma last_track_free_splitIfShelfDropped s :
  well_formed s → last_track_free s →
  last_track_free (FloatSide.splitIfShelfDropped s).
Proof.
  intros (_ & _ & Hlen & Hrange & _) Hfree. unfold FloatSide.splitIfShelfDropped.
  destruct (JS.neq_undef _ _); [|exact Hfree].
  apply (last_track_free_splitTrack _ _ s Hlen Hrange Hfree).
Qed.

Lemma last_track_free_placeFloat_split size s :
  well_formed s → last_track_free s →
  last_track_free (placeFloat_split size s).1.
Proof.
  intros Hwf0 Hfree0.
  destruct (well_formed_splitIfShelfDropped s Hwf0) as (Hwf & Htop & _).
  pose proof (last_track_free_splitIfShelfDropped s Hwf0 Hfree0) as Hfree.
  unfold placeFloat_split.
  set (s1 := FloatSide.splitIfShelfDropped s) in *.
  pose proof (JS_get_lt _ _ _ Htop) as Hidx.
  destruct (0 <? size); cbn [fst]; [|exact Hfree].
  destruct (getEndTrack_first s1 (FloatSide.shelfTrackIndex s1)
              (FloatSide.shelfBlockOffset s1) size ltac:(lia)) as (He & _).
  destruct (JS.neq_undef _ _); cbn [fst]; [|exact Hfree].
  apply last_track_free_splitTrack; [apply Hwf|lia|exact Hfree].
Qed.

Lemma last_track_free_occupy_loop cb mo width me (n : nat) start s :
  last_track_free s →
  start + Z.of_nat n < JS.len (FloatSide.blockOffsets s) →
  last_track_free (foldl (FloatSide.occupy cb mo width me) s
                     (seqZ start (Z.of_nat n))).
Proof.
  revert start s. induction n as [|n IH]; intros start s Hfree Hn.
  - exact Hfree.
  - rewrite seqZ_cons by lia. cbn [foldl].
    replace (Z.pred (Z.of_nat (S n))) with (Z.of_nat n) by lia.
    destruct (occupy_fields cb mo width me s start) as (E & _).
    apply IH; [|rewrite E; lia].
    unfold last_track_free in *. rewrite E.
    unfold FloatSide.occupy. destruct (JS.is_zero _);
      cbn [FloatSide.floatCounts]; rewrite seti_geti_ne by lia; exact Hfree.
Qed.

Lemma last_track_free_placeFloat b vacancy cl cr s w :
  well_formed s → last_track_free s →
  last_track_free (FloatSide.placeFloat b vacancy cl cr (s, w)).2.1.
Proof.
  intros Hwf Hfree. rewrite placeFloat_steps_eq. unfold placeFloat_steps.
  destruct (bool_decide _); [exact Hfree|]. destruct (negb _); [exact Hfree|].
  pose proof (well_formed_placeFloat_split (float_blockSize w b) s Hwf)
    as (Hwf2 & Hidx & He).
  pose proof (last_track_free_placeFloat_split (float_blockSize w b) s Hwf Hfree)
    as Hfree2.
  destruct (placeFloat_split _ s) as [s2 e]. cbn [fst snd] in *.
  destruct (placeFloat_position b vacancy cl cr w) as [[[]|msg] w'];
    cbn [fst snd]; [|exact Hfree2].
  unfold placeFloat_occupy.
  change (last_track_free
    (foldl (FloatSide.occupy (vacancy_offset w' b vacancy)
              (if bool_decide (float (style (boxes w' b)) = float_left)
               then m_lineLeft (getMarginsAutoIsZero (boxes w' b))
               else m_lineRight (getMarginsAutoIsZero (boxes w' b)))
              (a_inlineSize (areas w' (borderArea (boxes w' b))))
              (if bool_decide (float (style (boxes w' b)) = float_left)
               then m_lineRight (getMarginsAutoIsZero (boxes w' b))
               else m_lineLeft (getMarginsAutoIsZero (boxes w' b))))
           s2
           (seqZ (FloatSide.shelfTrackIndex s2)
                 (e - FloatSide.shelfTrackIndex s2)))).
  replace (e - FloatSide.shelfTrackIndex s2)
    with (Z.of_nat (Z.to_nat (e - FloatSide.shelfTrackIndex s2))) by lia.
  apply last_track_free_occupy_loop; [exact Hfree2|lia].
Qed.

Lemma reachable_last_track_free s : reachable s → last_track_free s.
Proof.
  induction 1 as [x|s x Hr IH|s x Hr IH|s Hr IH|s w b vacancy cl cr Hr IH _].
  - reflexivity.
  - exact IH.
  - unfold FloatSide.dropShelf. destruct (_ <? _); exact IH.
  - apply last_track_free_splitIfShelfDropped;
      [apply (reachable_well_formed _ s Hr)|exact IH].
  - apply last_track_free_placeFloat;
      [apply (reachable_well_formed _ s Hr)|exact IH].
Qed.

(** X12: in every reachable state of a float side [getBottom()] is a
    number, the greatest of the block offsets, and the track that starts
    there holds no float: no float reaches below the bottom. *)
Theorem floats_end_at_bottom (s : FloatSide.t) :
  reachable s →
  ∃ bottom,
    FloatSide.getBottom s = Some bottom ∧
    (∀ i y, JS.get (FloatSide.blockOffsets s) i = Some y → y ≤ bottom) ∧
    JS.geti (FloatSide.floatCounts s) (JS.len (FloatSide.blockOffsets s) - 1)
    = Some 0.
Proof.
  intros Hr. pose proof (reachable_well_formed _ s Hr) as (Hne & Hinc & _).
  pose proof (reachable_last_track_free s Hr) as Hfree.
  assert (Hlen : 0 < JS.len (FloatSide.blockOffsets s)).
  { unfold JS.len. destruct (FloatSide.blockOffsets s); [congruence|cbn; lia]. }
  unfold FloatSide.getBottom.
  destruct (JS_get_is_Some (FloatSide.blockOffsets s)
              (JS.len (FloatSide.blockOffsets s) - 1)) as [bottom Hb]; [lia|].
  exists bottom. split; [exact Hb|]. split; [|exact Hfree].
  intros i y Hy. pose proof (JS_get_lt _ _ _ Hy).
  destruct (Z.eq_dec i (JS.len (FloatSide.blockOffsets s) - 1)) as [->|Hne'].
  - rewrite Hb in Hy. injection Hy as <-. lia.
  - pose proof (strictly_increasing_get (FloatSide.blockOffsets s) i
                  (JS.len (FloatSide.blockOffsets s) - 1) y bottom Hinc
                  ltac:(lia) Hy Hb). lia.
Qed.

Lemma floats_end_at_bottom_witness :
  ∃ bottom,
    FloatSide.getBottom wide_float_side = Some bottom ∧
    (∀ i y, JS.get (FloatSide.blockOffsets wide_float_side) i = Some y
            → y ≤ bottom) ∧
    JS.geti (FloatSide.floatCounts wide_float_side)
            (JS.len (FloatSide.blockOffsets wide_float_side) - 1) = Some 0.
Proof.
  apply (floats_end_at_bottom wide_float_side).
  apply reach_placeFloat; [apply reach_new|exact I].
Defined.

(** ** What a placed float adds to the tracks *)

Lemma offsets_monotone a i j y z :
  strictly_increasing a → i ≤ j →
  JS.get a i = Some y → JS.get a j = Some z → y ≤ z.
Proof.
  intros Hinc Hij Hy Hz. destruct (Z.eq_dec i j) as [->|Hne].
  - rewrite Hy in Hz. injection Hz as <-. lia.
  - pose proof (strictly_increasing_get a i j y z Hinc ltac:(lia) Hy Hz). lia.
Qed.

Lemma track_at_unique s y t :
  FloatSide.blockOffsets s ≠ [] →
  strictly_increasing (FloatSide.blockOffsets s) →
  track_contains (FloatSide.blockOffsets s) t y → track_at s y = t.
Proof.
  intros Hne Hinc Ht. unfold track_at.
  apply (track_contains_unique (FloatSide.blockOffsets s) _ _ y Hinc);
    [apply getTrackRange_start; assumption|exact Ht].
Qed.

(** A split inside the arrays changes no value recorded at any block
    offset. *)
Lemma splitTrack_values_at i x s y :
  well_formed s →
  0 ≤ i < JS.len (FloatSide.blockOffsets s) →
  (∀ z, JS.get (FloatSide.blockOffsets s) i = Some z → z < x) →
  (∀ z, JS.get (FloatSide.blockOffsets s) (i + 1) = Some z → x < z) →
  values_at (FloatSide.splitTrack i x s) y = values_at s y.
Proof.
  intros Hwf Hi Hlo Hhi.
  pose proof Hwf as (Hne & Hinc & (Hl1 & Hl2 & Hl3) & _).
  destruct (well_formed_split_offsets i x s Hwf ltac:(lia) Hlo Hhi)
    as (Hne' & Hinc' & _).
  pose proof (getTrackRange_start s y 0 Hne Hinc) as Ht.
  fold (track_at s y) in Ht. set (t := track_at s y) in *.
  destruct Ht as (Hrange & Htop & Hnext).
  pose proof (λ j, splitTrack_offsets_get i x s j ltac:(lia)) as Hnew.
  destruct (JS_get_is_Some (FloatSide.blockOffsets s) i) as [zi Hzi]; [lia|].
  pose proof (Hlo zi Hzi) as Hzix.
  assert (Ht' : track_at (FloatSide.splitTrack i x s) y
                = if y <? x then t else t + 1).
  { apply track_at_unique; [exact Hne'|exact Hinc'|].
    unfold track_contains. rewrite !Hnew.
    cbn [FloatSide.splitTrack FloatSide.blockOffsets].
    rewrite splice_insert_len.
    destruct (Z.ltb_spec y x) as [Hyx|Hyx].
    - assert (t ≤ i).
      { destruct (Z.le_gt_cases t i) as [?|Hgt]; [assumption|].
        destruct (JS_get_is_Some (FloatSide.blockOffsets s) t) as [zt Hzt];
          [lia|].
        pose proof (Htop zt Hzt).
        pose proof (offsets_monotone _ i t zi zt Hinc ltac:(lia) Hzi Hzt).
        destruct (JS_get_is_Some (FloatSide.blockOffsets s) (i + 1))
          as [z1 Hz1]; [lia|].
        pose proof (Hhi z1 Hz1).
        pose proof (offsets_monotone _ (i + 1) t z1 zt Hinc ltac:(lia) Hz1 Hzt).
        lia. }
      split; [lia|]. split.
      + destruct (Z.ltb_spec t (i + 1)); [exact Htop|lia].
      + destruct (Z.ltb_spec (t + 1) (i + 1)); [exact Hnext|].
        destruct (Z.eqb_spec (t + 1) (i + 1)); [|lia].
        intros ? [= <-]. lia.
    - assert (i ≤ t).
      { destruct (Z.le_gt_cases i t) as [?|Hgt]; [assumption|].
        destruct (JS_get_is_Some (FloatSide.blockOffsets s) (t + 1))
          as [z1 Hz1]; [lia|].
        pose proof (Hnext z1 Hz1).
        pose proof (offsets_monotone _ (t + 1) i z1 zi Hinc ltac:(lia) Hz1 Hzi).
        lia. }
      split; [lia|]. split.
      + destruct (Z.ltb_spec (t + 1) (i + 1)); [lia|].
        destruct (Z.eqb_spec (t + 1) (i + 1)).
        * intros ? [= <-]. lia.
        * replace (t + 1 - 1) with t by lia. exact Htop.
      + destruct (Z.ltb_spec (t + 1 + 1) (i + 1)); [lia|].
        destruct (Z.eqb_spec (t + 1 + 1) (i + 1)); [lia|].
        replace (t + 1 + 1 - 1) with (t + 1) by lia. exact Hnext. }
  unfold values_at. rewrite Ht'. fold t.
  cbn [FloatSide.splitTrack FloatSide.inlineSizes FloatSide.inlineOffsets
       FloatSide.floatCounts].
  rewrite !splice_insert_geti.
  assert (Hp : ∀ a : list JS.num,
    JS.len (FloatSide.blockOffsets s) = JS.len a → JS.splice_position i a = i).
  { intros a Ha. unfold JS.splice_position.
    destruct (Z.ltb_spec i 0); lia. }
  rewrite (Hp _ Hl1), (Hp _ Hl2), (Hp _ Hl3).
  destruct (Z.ltb_spec y x) as [Hyx|Hyx].
  - assert (t ≤ i).
    { destruct (Z.le_gt_cases t i) as [?|Hgt]; [assumption|].
      destruct (JS_get_is_Some (FloatSide.blockOffsets s) t) as [zt Hzt];
        [lia|].
      pose proof (Htop zt Hzt).
      destruct (JS_get_is_Some (FloatSide.blockOffsets s) (i + 1))
        as [z1 Hz1]; [lia|].
      pose proof (Hhi z1 Hz1).
      pose proof (offsets_monotone _ (i + 1) t z1 zt Hinc ltac:(lia) Hz1 Hzt).
      lia. }
    destruct (Z.ltb_spec t i); [reflexivity|].
    destruct (Z.eqb_spec t i) as [->|]; [reflexivity|lia].
  - assert (i ≤ t).
    { destruct (Z.le_gt_cases i t) as [?|Hgt]; [assumption|].
      destruct (JS_get_is_Some (FloatSide.blockOffsets s) (t + 1))
        as [z1 Hz1]; [lia|].
      pose proof (Hnext z1 Hz1).
      pose proof (offsets_monotone _ (t + 1) i z1 zi Hinc ltac:(lia) Hz1 Hzi).
      lia. }
    destruct (Z.ltb_spec (t + 1) i); [lia|].
    destruct (Z.eqb_spec (t + 1) i); [lia|].
    replace (t + 1 - 1) with t by lia. reflexivity.
Qed.

Lemma splitIfShelfDropped_values_at s y :
  well_formed s → 0 ≤ FloatSide.shelfTrackIndex s →
  values_at (FloatSide.splitIfShelfDropped s) y = values_at s y.
Proof.
  intros Hwf Hidx. pose proof Hwf as (_ & _ & _ & Hrange & Hlo & Hhi).
  unfold FloatSide.splitIfShelfDropped.
  destruct (JS.neq_undef _ _) eqn:Hd; [|reflexivity].
  apply neq_undef_true in Hd.
  change (values_at
            (FloatSide.splitTrack (FloatSide.shelfTrackIndex s)
               (FloatSide.shelfBlockOffset s) s) y = values_at s y).
  apply splitTrack_values_at; [exact Hwf|lia| |exact Hhi].
  intros z Hz. specialize (Hlo z Hz).
  assert (z ≠ FloatSide.shelfBlockOffset s) by congruence. lia.
Qed.

(** The side after the splits of [placeFloat]: it records what it did at
    every block offset, and has boundaries at the shelf and, for a float
    with a block size, at the end of the float. *)
Lemma placeFloat_split_band size s :
  well_formed s → 0 ≤ FloatSide.shelfTrackIndex s →
  (∀ y, values_at (placeFloat_split size s).1 y = values_at s y) ∧
  JS.get (FloatSide.blockOffsets (placeFloat_split size s).1)
         (FloatSide.shelfTrackIndex (placeFloat_split size s).1)
    = Some (FloatSide.shelfBlockOffset s) ∧
  FloatSide.shelfBlockOffset (placeFloat_split size s).1
    = FloatSide.shelfBlockOffset s ∧
  FloatSide.items (placeFloat_split size s).1 = FloatSide.items s ∧
  (0 < size →
   FloatSide.shelfTrackIndex (placeFloat_split size s).1
     < (placeFloat_split size s).2 ∧
   JS.get (FloatSide.blockOffsets (placeFloat_split size s).1)
          (placeFloat_split size s).2
     = Some (FloatSide.shelfBlockOffset s + size)) ∧
  (size ≤ 0 →
   (placeFloat_split size s).2
     = FloatSide.shelfTrackIndex (placeFloat_split size s).1).
Proof.
  intros Hwf0 Hidx0.
  destruct (well_formed_splitIfShelfDropped s Hwf0) as (Hwf & Htop & Hshelf).
  pose proof (λ y, splitIfShelfDropped_values_at s y Hwf0 Hidx0) as Hval.
  assert (Hitems : FloatSide.items (FloatSide.splitIfShelfDropped s)
                   = FloatSide.items s).
  { unfold FloatSide.splitIfShelfDropped. destruct (JS.neq_undef _ _);
      reflexivity. }
  unfold placeFloat_split.
  set (s1 := FloatSide.splitIfShelfDropped s) in *.
  pose proof Hwf as (Hne & Hinc & Hlen & Hrange & Hlo & Hhi).
  pose proof (JS_get_lt _ _ _ Htop) as Hidx.
  destruct (Z.ltb_spec 0 size) as [Hsize|Hsize]; cbn [fst snd].
  2:{ split; [exact Hval|]. split; [exact Htop|]. split; [exact Hshelf|].
      split; [exact Hitems|]. split; [lia|reflexivity]. }
  set (x := FloatSide.shelfBlockOffset s1) in *.
  set (i := FloatSide.shelfTrackIndex s1) in *.
  destruct (getEndTrack_first s1 i x size ltac:(lia)) as (He & Hbefore & Hat).
  set (e := FloatSide.getEndTrack s1 i x size) in *.
  destruct (JS.neq_undef _ _) eqn:Hd; cbn [fst snd].
  2:{ apply neq_undef_false in Hd. split; [exact Hval|]. split; [exact Htop|].
      split; [exact Hshelf|]. split; [exact Hitems|]. split; [|lia].
      intros _. split; [lia|]. rewrite <- Hshelf. exact Hd. }
  apply neq_undef_true in Hd.
  assert (Hr : -1 ≤ e - 1 < JS.len (FloatSide.blockOffsets s1)) by lia.
  assert (Hbelow : ∀ z, JS.get (FloatSide.blockOffsets s1) (e - 1) = Some z
                        → z < x + size).
  { intros z Hz. destruct (Z.eq_dec (e - 1) i) as [E|].
    - rewrite E, Htop in Hz. injection Hz as <-. fold x in Hshelf. lia.
    - destruct (Hbefore (e - 1) ltac:(lia)) as (z' & Hz' & ?). congruence. }
  assert (Habove : ∀ z, JS.get (FloatSide.blockOffsets s1) (e - 1 + 1) = Some z
                        → x + size < z).
  { replace (e - 1 + 1) with e by lia. intros z Hz. specialize (Hat z Hz).
    assert (z ≠ x + size) by congruence. lia. }
  pose proof (λ j, splitTrack_offsets_get (e - 1) (x + size) s1 j Hr) as Hnew.
  change (FloatSide.shelfTrackIndex (FloatSide.splitTrack _ _ s1)) with i.
  change (FloatSide.shelfBlockOffset (FloatSide.splitTrack _ _ s1)) with x.
  change (FloatSide.items (FloatSide.splitTrack _ _ s1))
    with (FloatSide.items s1).
  rewrite !Hnew. split; [|split; [|split; [|split; [|split]]]].
  - intros y. rewrite <- Hval.
    apply splitTrack_values_at; [exact Hwf|lia|exact Hbelow|exact Habove].
  - destruct (Z.ltb_spec i (e - 1 + 1)); [exact Htop|lia].
  - exact Hshelf.
  - exact Hitems.
  - intros _. split; [lia|].
    destruct (Z.ltb_spec e (e - 1 + 1)); [lia|].
    destruct (Z.eqb_spec e (e - 1 + 1)); [|lia].
    rewrite <- Hshelf. reflexivity.
  - lia.
Qed.

(** The loop of [placeFloat] over the tracks [[start, end)] changes the
    values of these tracks and of no other. *)
Lemma occupy_loop_values cb mo width me (n : nat) : ∀ start s j,
  0 ≤ start →
  let s' := foldl (FloatSide.occupy cb mo width me) s
              (seqZ start (Z.of_nat n)) in
  FloatSide.blockOffsets s' = FloatSide.blockOffsets s ∧
  FloatSide.items s' = FloatSide.items s ∧
  FloatSide.shelfBlockOffset s' = FloatSide.shelfBlockOffset s ∧
  (JS.geti (FloatSide.inlineSizes s') j, JS.geti (FloatSide.inlineOffsets s') j,
   JS.geti (FloatSide.floatCounts s') j)
  = if (start <=? j) && (j <? start + Z.of_nat n)
    then float_added cb mo width me
           (JS.geti (FloatSide.inlineSizes s) j,
            JS.geti (FloatSide.inlineOffsets s) j,
            JS.geti (FloatSide.floatCounts s) j)
    else (JS.geti (FloatSide.inlineSizes s) j,
          JS.geti (FloatSide.inlineOffsets s) j,
          JS.geti (FloatSide.floatCounts s) j).
Proof.
  induction n as [|n IH]; intros start s j Hstart; cbv zeta.
  - cbn [seqZ foldl]. repeat split.
    destruct (Z.leb_spec start j); destruct (Z.ltb_spec j (start + Z.of_nat 0));
      cbn; try reflexivity; lia.
  - rewrite seqZ_cons by lia. cbn [foldl].
    replace (Z.pred (Z.of_nat (S n))) with (Z.of_nat n) by lia.
    specialize (IH (Z.succ start) (FloatSide.occupy cb mo width me s start) j
                  ltac:(lia)).
    cbv zeta in IH. destruct IH as (E1 & E2 & E3 & E4).
    rewrite E1, E2, E3, E4. clear E1 E2 E3 E4.
    split; [|split; [|split]];
      [unfold FloatSide.occupy; destruct (JS.is_zero _); reflexivity..|].
    destruct (Z.eq_dec j start) as [->|Hne].
    + destruct (Z.leb_spec (Z.succ start) start); [lia|].
      destruct (Z.leb_spec start start); [|lia].
      destruct (Z.ltb_spec start (start + Z.of_nat (S n))); [|lia]. cbn [andb].
      unfold FloatSide.occupy, float_added.
      destruct (JS.is_zero _);
        cbn [FloatSide.inlineSizes FloatSide.inlineOffsets
             FloatSide.floatCounts];
        rewrite ?seti_geti_eq by lia; reflexivity.
    + assert (E1 : JS.geti (FloatSide.inlineSizes
                              (FloatSide.occupy cb mo width me s start)) j
                   = JS.geti (FloatSide.inlineSizes s) j).
      { unfold FloatSide.occupy. destruct (JS.is_zero _);
          cbn [FloatSide.inlineSizes]; rewrite ?seti_geti_ne by lia;
          reflexivity. }
      assert (E2 : JS.geti (FloatSide.inlineOffsets
                              (FloatSide.occupy cb mo width me s start)) j
                   = JS.geti (FloatSide.inlineOffsets s) j).
      { unfold FloatSide.occupy. destruct (JS.is_zero _);
          cbn [FloatSide.inlineOffsets]; rewrite ?seti_geti_ne by lia;
          reflexivity. }
      assert (E3 : JS.geti (FloatSide.floatCounts
                              (FloatSide.occupy cb mo width me s start)) j
                   = JS.geti (FloatSide.floatCounts s) j).
      { unfold FloatSide.occupy. destruct (JS.is_zero _);
          cbn [FloatSide.floatCounts]; rewrite ?seti_geti_ne by lia;
          reflexivity. }
      rewrite E1, E2, E3.
      destruct (Z.leb_spec (Z.succ start) j); destruct (Z.leb_spec start j);
        destruct (Z.ltb_spec j (Z.succ start + Z.of_nat n));
        destruct (Z.ltb_spec j (start + Z.of_nat (S n))); cbn [andb];
        try reflexivity; lia.
Qed.

Lemma track_at_ext s1 s2 y :
  FloatSide.blockOffsets s1 = FloatSide.blockOffsets s2 →
  track_at s1 y = track_at s2 y.
Proof.
  intros E. unfold track_at, FloatSide.getTrackRange, FloatSide.getEndTrack.
  now rewrite E.
Qed.

(** X13: a float placed on a well-formed side whose shelf is not above the
    first track is recorded exactly in the band it covers, from the shelf
    to the shelf plus the block size of its margin box: at every block
    offset of the band the float count grows by one and the inline size
    takes in the float; at every other block offset the side records what
    it recorded before.  The box is added to [items] and the shelf stays
    where it is. *)
Theorem placeFloat_covers_band (b : BoxId) (vacancy : IfcVacancy)
    (cl cr : JS.num) (s s' : FloatSide.t) (w w' : World) :
  well_formed s → 0 ≤ FloatSide.shelfTrackIndex s →
  FloatSide.placeFloat b vacancy cl cr (s, w) = (Ok tt, (s', w')) →
  let box := boxes w b in
  let isLeft := bool_decide (float (style box) = float_left) in
  let margins := getMarginsAutoIsZero box in
  let shelf := FloatSide.shelfBlockOffset s in
  FloatSide.items s' = FloatSide.items s ++ [b] ∧
  FloatSide.shelfBlockOffset s' = shelf ∧
  ∀ y, values_at s' y =
    if (shelf <=? y) && (y <? shelf + float_blockSize w b)
    then float_added (vacancy_offset w b vacancy)
           (if isLeft then m_lineLeft margins else m_lineRight margins)
           (a_inlineSize (areas w (borderArea box)))
           (if isLeft then m_lineRight margins else m_lineLeft margins)
           (values_at s y)
    else values_at s y.
Proof.
  intros Hwf Hidx H. cbv zeta.
  rewrite placeFloat_steps_eq in H. unfold placeFloat_steps in H.
  destruct (bool_decide _); [discriminate|]. destruct (negb _); [discriminate|].
  pose proof (well_formed_placeFloat_split (float_blockSize w b) s Hwf)
    as (Hwf2 & Hstart & He).
  pose proof (placeFloat_split_band (float_blockSize w b) s Hwf Hidx)
    as (Hval & Htop & Hshelf & Hitems & Hband & Hnone).
  destruct (placeFloat_split _ s) as [s2 e]. cbn [fst snd] in *.
  pose proof (placeFloat_position_boxes b vacancy cl cr w) as (Hboxes & Hsizes).
  destruct (placeFloat_position b vacancy cl cr w) as [[[]|msg] w1];
    [|discriminate].
  cbn [snd] in Hboxes, Hsizes. injection H as <- <-.
  unfold placeFloat_occupy, vacancy_offset. rewrite Hboxes, Hsizes.
  set (cb := if bool_decide _ then leftOffset vacancy else rightOffset vacancy).
  set (mo := if bool_decide _ then m_lineLeft _ else m_lineRight _).
  set (me := if bool_decide _ then m_lineRight _ else m_lineLeft _).
  set (width := a_inlineSize _).
  set (n := Z.to_nat (e - FloatSide.shelfTrackIndex s2)).
  replace (e - FloatSide.shelfTrackIndex s2) with (Z.of_nat n) by lia.
  pose proof (λ j, occupy_loop_values cb mo width me n
                     (FloatSide.shelfTrackIndex s2) s2 j ltac:(lia)) as Hloop.
  cbv zeta in Hloop.
  set (s3 := foldl _ s2 _) in *.
  destruct (Hloop 0) as (Eoff & Eitems & Eshelf & _).
  split; [cbn; now rewrite Eitems, Hitems|].
  split; [cbn; now rewrite Eshelf|].
  intros y. unfold values_at at 1.
  rewrite (track_at_ext (FloatSide.push_item b s3) s2 y) by exact Eoff.
  cbn [FloatSide.push_item FloatSide.inlineSizes FloatSide.inlineOffsets
       FloatSide.floatCounts].
  destruct (Hloop (track_at s2 y)) as (_ & _ & _ & ->).
  fold (values_at s2 y). rewrite Hval.
  pose proof Hwf2 as (Hne2 & Hinc2 & _).
  pose proof (getTrackRange_start s2 y 0 Hne2 Hinc2) as Ht.
  fold (track_at s2 y) in Ht. set (t := track_at s2 y) in *.
  destruct Ht as (Hrange & Hlo & Hhi).
  set (shelf := FloatSide.shelfBlockOffset s) in *.
  set (h := float_blockSize w b) in *.
  set (i := FloatSide.shelfTrackIndex s2) in *.
  assert (Hiff : (i <=? t) && (t <? i + Z.of_nat n)
                 = (shelf <=? y) && (y <? shelf + h)).
  { destruct (Z.le_gt_cases h 0) as [Hh|Hh].
    - rewrite (Hnone Hh) in *.
      destruct (Z.leb_spec i t); destruct (Z.ltb_spec t (i + Z.of_nat n));
        destruct (Z.leb_spec shelf y); destruct (Z.ltb_spec y (shelf + h));
        cbn [andb]; try reflexivity; lia.
    - destruct (Hband Hh) as (Hie & Hend).
      assert (Hin : i ≤ t ↔ shelf ≤ y).
      { split.
        - intros Hit.
          destruct (JS_get_is_Some (FloatSide.blockOffsets s2) t) as [z Hz];
            [lia|].
          pose proof (Hlo z Hz).
          pose proof (offsets_monotone _ i t shelf z Hinc2 Hit Htop Hz). lia.
        - intros Hy. destruct (Z.le_gt_cases i t) as [?|Hgt]; [assumption|].
          destruct (JS_get_is_Some (FloatSide.blockOffsets s2) (t + 1))
            as [z Hz]; [lia|].
          pose proof (Hhi z Hz).
          pose proof (offsets_monotone _ (t + 1) i z shelf Hinc2
                        ltac:(lia) Hz Htop). lia. }
      assert (Hout : t < e ↔ y < shelf + h).
      { split.
        - intros Hte.
          destruct (JS_get_is_Some (FloatSide.blockOffsets s2) (t + 1))
            as [z Hz]; [lia|].
          pose proof (Hhi z Hz).
          pose proof (offsets_monotone _ (t + 1) e z (shelf + h) Hinc2
                        ltac:(lia) Hz Hend). lia.
        - intros Hy. destruct (Z.lt_ge_cases t e) as [?|Hge]; [assumption|].
          destruct (JS_get_is_Some (FloatSide.blockOffsets s2) t) as [z Hz];
            [lia|].
          pose proof (Hlo z Hz).
          pose proof (offsets_monotone _ e t (shelf + h) z Hinc2 Hge Hend Hz).
          lia. }
      replace (i + Z.of_nat n) with e by lia.
      destruct (Z.leb_spec i t); destruct (Z.ltb_spec t e);
        destruct (Z.leb_spec shelf y); destruct (Z.ltb_spec y (shelf + h));
        cbn [andb]; try reflexivity; lia. }
  rewrite Hiff. reflexivity.
Qed.

Lemma placeFloat_covers_band_witness :
  values_at wide_float_side 5 = (Some 50, Some 0, Some 1) ∧
  values_at wide_float_side 10 = (Some 0, Some 0, Some 0) ∧
  ∀ y, values_at wide_float_side y =
    if (0 <=? y) && (y <? 0 + 10)
    then float_added (Some 0) 0 50 0 (values_at (FloatSide.new 0) y)
    else values_at (FloatSide.new 0) y.
Proof.
  split; [reflexivity|]. split; [reflexivity|].
  apply (placeFloat_covers_band 0%nat empty_vacancy (Some 0) (Some 0)
           (FloatSide.new 0) wide_float_side wide_float_world
           (FloatSide.placeFloat 0%nat empty_vacancy (Some 0) (Some 0)
              (FloatSide.new 0, wide_float_world)).2.2).
  - apply well_formed_new.
  - cbn. lia.
  - reflexivity.
Defined.

(** ** Postconditions of methods *)

Lemma wp_bind {S A B} (m : M S A) (k : A → M S B) Q s :
  wp m (λ r s', match r with
                | Ok a => wp (k a) Q s'
                | Throw msg => Q (Throw msg) s'
                end) s →
  wp (bind m k) Q s.
Proof. unfold wp, bind. destruct (m s) as [[a|msg] s']; cbn; auto. Qed.

Lemma wp_ret {S A} (a : A) (Q : result A → S → Prop) s :
  Q (Ok a) s → wp (ret a) Q s.
Proof. auto. Qed.

Lemma wp_throw {S A} msg (Q : result A → S → Prop) s :
  Q (Throw msg) s → wp (throw msg) Q s.
Proof. auto. Qed.

Lemma wp_gets {S A} (f : S → A) (Q : result A → S → Prop) s :
  Q (Ok (f s)) s → wp (gets f) Q s.
Proof. auto. Qed.

Lemma wp_this {T} (Q : result T → T * World → Prop) s :
  Q (Ok s.1) s → wp this Q s.
Proof. auto. Qed.

Lemma wp_update {T} (f : T → T) (Q : result unit → T * World → Prop) s :
  Q (Ok tt) (f s.1, s.2) → wp (update f) Q s.
Proof. auto. Qed.

Lemma wp_in_world {T A} (m : M World A) (Q : result A → T * World → Prop) s :
  wp m (λ r w', Q r (s.1, w')) s.2 → wp (in_world m) Q s.
Proof. unfold wp, in_world. destruct (m s.2). auto. Qed.

Lemma wp_within {T U A} (part : T → U) (put : U → T → T)
    (m : M (U * World) A) (Q : result A → T * World → Prop) s :
  wp m (λ r uw, Q r (put uw.1 s.1, uw.2)) (part s.1, s.2) →
  wp (within part put m) Q s.
Proof. unfold wp, within. destruct (m (part s.1, s.2)) as [r [u w']]. auto. Qed.

Lemma wp_mono {S A} (m : M S A) (Q Q' : result A → S → Prop) s :
  (∀ r s', Q r s' → Q' r s') → wp m Q s → wp m Q' s.
Proof. unfold wp. auto. Qed.

(** ** The floats of a float context *)

Lemma FloatSide_placeFloat_items b vacancy cl cr s w :
  wp (FloatSide.placeFloat b vacancy cl cr)
     (λ r sw, match r with
              | Ok _ => FloatSide.items sw.1 = FloatSide.items s ++ [b]
              | Throw _ => FloatSide.items sw.1 = FloatSide.items s
              end) (s, w).
Proof.
  unfold wp. rewrite placeFloat_steps_eq. unfold placeFloat_steps.
  destruct (bool_decide _); [reflexivity|]. destruct (negb _); [reflexivity|].
  assert (H2 : FloatSide.items (placeFloat_split (float_blockSize w b) s).1
               = FloatSide.items s).
  { unfold placeFloat_split, FloatSide.splitIfShelfDropped.
    destruct (0 <? _); cbn [fst]; repeat destruct (JS.neq_undef _ _);
      reflexivity. }
  destruct (placeFloat_split _ s) as [s2 e]. cbn [fst] in H2.
  destruct (placeFloat_position b vacancy cl cr w) as [[[]|msg] w'];
    cbn [fst snd]; [|exact H2].
  unfold placeFloat_occupy. cbn [FloatSide.push_item FloatSide.items].
  rewrite <- H2. f_equal. generalize (seqZ (FloatSide.shelfTrackIndex s2)
                                       (e - FloatSide.shelfTrackIndex s2)).
  intros tracks. revert s2 H2. induction tracks as [|t tracks IH]; intros s2 H2;
    [reflexivity|].
  cbn [foldl]. rewrite IH.
  - unfold FloatSide.occupy. destruct (JS.is_zero _); reflexivity.
  - rewrite <- H2. unfold FloatSide.occupy. destruct (JS.is_zero _); reflexivity.
Qed.

Lemma same_floats_refl f : same_floats f f.
Proof. repeat split. Qed.

Lemma same_floats_drop sd v f0 f :
  same_floats f0 f →
  same_floats f0 (FloatContext.put_side sd
                    (FloatContext.dropShelf_to v (FloatContext.side sd f)) f).
Proof.
  intros (H1 & H2 & H3).
  assert (E : ∀ s, FloatSide.items (FloatContext.dropShelf_to v s)
                   = FloatSide.items s).
  { intros s. destruct v; [|reflexivity]. cbn. unfold FloatSide.dropShelf.
    destruct (_ <? _); reflexivity. }
  destruct sd; repeat split; cbn; rewrite ?E; assumption.
Qed.

Lemma FloatContext_placeFloat_floats bfc lineWidth lineIsEmpty b f w :
  wp (FloatContext.placeFloat bfc lineWidth lineIsEmpty b)
     (λ r fw, match r with
              | Ok _ => float_taken b (side_of (boxes w b)) f fw.1
              | Throw _ => same_floats f fw.1
              end) (f, w).
Proof.
  unfold FloatContext.placeFloat.
  apply wp_bind, wp_in_world, wp_gets. cbn [fst snd].
  destruct (bool_decide _); [apply wp_throw, same_floats_refl|].
  apply wp_bind, wp_this. cbn [fst snd].
  destruct (bool_decide_reflect (FloatContext.misfits f = [])) as [Hq|Hq];
    cbn [negb].
  2:{ apply wp_update. left. repeat split. }
  apply wp_bind.
  apply (wp_mono _ (λ r fw, r = Ok tt ∧ same_floats f fw.1 ∧ fw.2 = w)).
  2:{ destruct (_ || _); [apply wp_update|apply wp_ret]; cbn [fst snd];
        (split; [reflexivity|split; [|reflexivity]]);
        [apply same_floats_drop|]; apply same_floats_refl. }
  intros r [f1 w1] (-> & H1 & Hw). cbn [fst snd] in *. subst w1.
  apply wp_bind.
  apply (wp_mono _ (λ r fw, r = Ok tt ∧ same_floats f fw.1 ∧ fw.2 = w)).
  2:{ destruct (_ || _); [apply wp_update|apply wp_ret]; cbn [fst snd];
        (split; [reflexivity|split; [|reflexivity]]);
        [apply same_floats_drop|]; exact H1. }
  clear f1 H1. intros r [f1 w1] (-> & H1 & Hw). cbn [fst snd] in *. subst w1.
  apply wp_bind, wp_this. cbn [fst snd].
  apply wp_bind, wp_in_world, wp_gets. cbn [fst snd].
  set (vacancy := FloatContext.getVacancyForBox _ _ _ _).
  fold (side_of (boxes w b)). set (sd := side_of (boxes w b)).
  destruct (_ || _).
  - apply wp_bind, wp_in_world.
    apply (wp_mono _ (λ _ _, True)); [|exact I].
    intros [[]|msg] w' _; cbn [fst snd]; [|exact H1].
    apply wp_within. cbn [fst snd].
    eapply wp_mono; [|apply FloatSide_placeFloat_items].
    intros [[]|msg] [s' w2] Hitems; cbn [fst snd] in *.
    + right. destruct H1 as (E1 & E2 & E3). rewrite Hq in E3.
      split; [exact Hq|].
      destruct sd; cbn in *; rewrite ?Hitems, ?E1, ?E2; auto.
    + destruct H1 as (E1 & E2 & E3).
      destruct sd; repeat split; cbn in *; rewrite ?Hitems; assumption.
  - apply wp_bind.
    apply (wp_mono _ (λ r fw, match r with
                              | Ok _ => same_floats f fw.1
                              | Throw _ => same_floats f fw.1
                              end)).
    + intros [[]|msg] [f2 w2] H2; cbn [fst snd] in *; [|exact H2].
      apply wp_update. cbn [fst snd]. left.
      destruct H2 as (E1 & E2 & E3). cbn. rewrite E3. auto.
    + repeat match goal with
        | |- wp (if ?c then _ else _) _ _ => destruct c
        | |- wp (update _) _ _ => apply wp_update; cbn [fst snd]
        | |- wp (ret _) _ _ => apply wp_ret; cbn [fst snd]
        | |- wp (throw _) _ _ => apply wp_throw; cbn [fst snd]
        | |- wp (let _ := _ in _) _ _ => cbv zeta
        | |- same_floats _ (FloatContext.put_side _ _ _) =>
            apply same_floats_drop
        end; exact H1.
Qed.

(** X14: [FloatContext.placeFloat] loses no float and takes none twice.
    When it returns, the box is the last misfit of the queue, or, the queue
    being empty, the last item of the side of its float style, and nothing
    else has changed in the items and the queue; when it throws, items and
    queue are as before.  With misfits waiting, the box is queued behind
    them and the two sides and every box are left as they are. *)
Theorem placeFloat_takes_float (bfc : BfcView) (lineWidth : Z)
    (lineIsEmpty : bool) (b : BoxId) (f f' : FloatContext.t) (w w' : World)
    (r : result unit) :
  FloatContext.placeFloat bfc lineWidth lineIsEmpty b (f, w) = (r, (f', w')) →
  match r with
  | Ok _ => float_taken b (side_of (boxes w b)) f f'
  | Throw _ => same_floats f f'
  end ∧
  (float (style (boxes w b)) = float_none → ∃ msg, r = Throw msg) ∧
  (float (style (boxes w b)) ≠ float_none → FloatContext.misfits f ≠ [] →
   r = Ok tt ∧ w' = w ∧
   f' = FloatContext.set_misfits (FloatContext.misfits f ++ [b]) f).
Proof.
  intros H. split; [|split].
  - pose proof (FloatContext_placeFloat_floats bfc lineWidth lineIsEmpty b f w)
      as Hwp.
    unfold wp in Hwp. rewrite H in Hwp. exact Hwp.
  - intros Hnone. revert H. unfold FloatContext.placeFloat. run_monad.
    rewrite bool_decide_true by exact Hnone. intros [= <- _ _]. eauto.
  - intros Hfloat Hq. revert H. unfold FloatContext.placeFloat. run_monad.
    rewrite bool_decide_false by exact Hfloat.
    rewrite (bool_decide_false _ Hq). cbn [negb]. intros [= <- <- <-]. auto.
Qed.

Lemma placeFloat_takes_float_witness :
  float_taken 0%nat Left (FloatContext.new 0)
    (FloatContext.placeFloat (view_at 0) 0 true 0%nat
       (FloatContext.new 0, wide_float_world)).2.1.
Proof.
  refine (proj1 (placeFloat_takes_float (view_at 0) 0 true 0%nat
                   (FloatContext.new 0) _ wide_float_world
                   (FloatContext.placeFloat (view_at 0) 0 true 0%nat
                      (FloatContext.new 0, wide_float_world)).2.2
                   (Ok tt) _)).
  reflexivity.
Defined.

Lemma float_taken_floats_of b sd f f' :
  float_taken b sd f f' → floats_of f' ≡ₚ floats_of f ++ [b].
Proof.
  unfold floats_of. intros [(-> & -> & ->)|(Hq & -> & Hs & Ho)].
  - now rewrite <- !app_assoc.
  - rewrite Hq, !app_nil_r. destruct sd; cbn in Hs, Ho; rewrite Hs, Ho.
    + rewrite <- !app_assoc. apply Permutation_app_head, Permutation_app_comm.
    + now rewrite <- !app_assoc.
Qed.

Lemma retry_floats bfc queue : ∀ f w,
  wp (FloatContext.retry bfc queue)
     (λ r fw, match r with
              | Ok _ => floats_of fw.1 ≡ₚ floats_of f ++ queue
              | Throw _ => True
              end) (f, w).
Proof.
  induction queue as [|b queue IH]; intros f w; cbn [FloatContext.retry].
  - apply wp_ret. cbn. now rewrite app_nil_r.
  - apply wp_bind.
    eapply wp_mono; [|apply (FloatContext_placeFloat_floats bfc 0 true b f w)].
    intros [[]|msg] [f1 w1] H1; cbn [fst snd] in *; [|exact I].
    eapply wp_mono; [|apply (IH f1 w1)].
    intros [[]|msg'] [f2 w2] H2; cbn [fst snd] in *; [|exact I].
    rewrite H2, (float_taken_floats_of _ _ _ _ H1), <- app_assoc. reflexivity.
Qed.

Lemma consumeMisfits_round_floats bfc f w :
  wp (FloatContext.consumeMisfits_round bfc)
     (λ r fw, match r with
              | Ok _ => floats_of fw.1 ≡ₚ floats_of f
              | Throw _ => True
              end) (f, w).
Proof.
  unfold FloatContext.consumeMisfits_round.
  apply wp_bind, wp_this. cbn [fst snd].
  apply wp_bind, wp_update. cbn [fst snd].
  eapply wp_mono; [|apply retry_floats].
  intros [[]|msg] [f1 w1] H1; cbn [fst snd] in *; [|exact I].
  rewrite H1. unfold floats_of. cbn. now rewrite app_nil_r, <- !app_assoc.
Qed.

(** X15: when [consumeMisfits] returns, the queue is empty and the context
    holds the floats it held, each of them once: every misfit has been
    placed on a side, and none has been lost. *)
Theorem consumeMisfits_places_all (fuel : nat) (bfc : BfcView)
    (s s' : FloatContext.t * World) :
  FloatContext.consumeMisfits fuel bfc s = Some (Ok tt, s') →
  FloatContext.misfits s'.1 = [] ∧
  floats_of s'.1 ≡ₚ floats_of s.1 ∧
  FloatSide.items (FloatContext.leftFloats s'.1)
  ++ FloatSide.items (FloatContext.rightFloats s'.1) ≡ₚ floats_of s.1.
Proof.
  intros H.
  assert (Hmain : FloatContext.misfits s'.1 = [] ∧
                  floats_of s'.1 ≡ₚ floats_of s.1).
  { revert s H. induction fuel as [|fuel IH]; intros s;
      cbn [FloatContext.consumeMisfits];
      destruct (bool_decide_reflect (FloatContext.misfits s.1 = [])) as [Hq|Hq].
    - intros [= <-]. auto.
    - discriminate.
    - intros [= <-]. auto.
    - pose proof (consumeMisfits_round_floats bfc s.1 s.2) as Hround.
      unfold wp in Hround. destruct s as [f w]. cbn [fst snd] in *.
      destruct (FloatContext.consumeMisfits_round bfc (f, w))
        as [[[]|msg] s1]; [|discriminate].
      intros H. destruct (IH s1 H) as (H1 & H2). split; [exact H1|].
      cbn [fst snd] in Hround. now rewrite H2. }
  destruct Hmain as (Hq & Hperm). split; [exact Hq|]. split; [exact Hperm|].
  rewrite <- Hperm. unfold floats_of. now rewrite Hq, app_nil_r.
Qed.

Lemma consumeMisfits_places_all_witness :
  let s := apply_ops [(view_at 0, PlaceFloat 0 false 0%nat)]
             (FloatContext.new 0, broad_float_world) in
  let s' := match FloatContext.consumeMisfits 1 (view_at 0) s with
            | Some (_, s') => s'
            | None => s
            end in
  floats_of s.1 = [0%nat] ∧
  FloatContext.misfits s.1 = [0%nat] ∧
  FloatContext.misfits s'.1 = [] ∧
  FloatSide.items (FloatContext.leftFloats s'.1) = [0%nat].
Proof.
  cbv zeta. split; [reflexivity|]. split; [reflexivity|].
  split; [|reflexivity].
  refine (proj1 (consumeMisfits_places_all 1 (view_at 0)
    (apply_ops [(view_at 0, PlaceFloat 0 false 0%nat)]
       (FloatContext.new 0, broad_float_world)) _ _)).
  reflexivity.
Defined.

(** ** What the formatting context refuses *)

Lemma wp_read {A} (m : M World A) w :
  (m w).2 = w → wp m (λ _ w', w' = w) w.
Proof. auto. Qed.

Lemma getContainingBlockToContent_reads b w :
  wp (getContainingBlockToContent b) (λ _ w', w' = w) w.
Proof.
  unfold getContainingBlockToContent.
  apply wp_bind, wp_gets. cbn [id].
  destruct (containingBlock (boxes w b)) as [cb|]; [|apply wp_throw; reflexivity].
  apply wp_bind.
  eapply wp_mono; [|apply wp_read, box_writingMode_world].
  intros [wm|msg] w1 ->; [|reflexivity].
  apply wp_bind.
  eapply wp_mono; [|apply wp_read, inlineSizeForWritingMode_world].
  intros [sz|msg] w1 ->; [|reflexivity].
  apply wp_bind.
  eapply wp_mono; [|apply wp_read, box_writingMode_world].
  intros [wm'|msg] w1 ->; [|reflexivity].
  apply wp_bind.
  eapply wp_mono; [|apply wp_read, inlineSizeForWritingMode_world].
  intros [sz'|msg] w1 ->; [|reflexivity].
  apply wp_ret. reflexivity.
Qed.

Section rejects.
Variable ifc_doTextLayout : BoxId → M (BlockFormattingContext.t * World) Z.

Lemma boxStart_rejects b bfc w :
  isInline (boxes w b) = true →
  wp (BlockFormattingContext.boxStart ifc_doTextLayout b)
     (λ r s, (∃ msg, r = Throw msg) ∧ s = (bfc, w)) (bfc, w).
Proof.
  intros Hinline. unfold BlockFormattingContext.boxStart.
  apply wp_bind, wp_in_world, wp_gets. cbn [fst snd].
  apply wp_bind, wp_in_world. cbn [fst snd].
  eapply wp_mono; [|apply getContainingBlockToContent_reads].
  intros [insets|msg] w1 ->; cbn [fst snd]; [|eauto].
  destruct (marginBlockStart _); [apply wp_throw; eauto|].
  apply wp_bind, wp_this. cbn [fst snd].
  unfold isBlockLevel. rewrite Hinline. cbn [negb].
  assert (Hbottom : ∀ x v,
    wp (BlockFormattingContext.max_bottom x v)
       (λ _ s, s = (bfc, w)) (bfc, w)).
  { intros x [y|]; reflexivity. }
  apply wp_bind.
  apply (wp_mono _ (λ _ s, s = (bfc, w))).
  2:{ destruct (BlockFormattingContext.fctx bfc); [|reflexivity].
      destruct (_ || _); [apply Hbottom|reflexivity]. }
  intros [floatBottom|msg] s1 ->; [|eauto].
  apply wp_bind.
  apply (wp_mono _ (λ _ s, s = (bfc, w))).
  2:{ destruct (BlockFormattingContext.fctx bfc); [|reflexivity].
      destruct (_ || _); [apply Hbottom|reflexivity]. }
  intros [floatBottom'|msg] s1 ->; [|eauto].
  apply wp_throw. eauto.
Qed.

Lemma boxEnd_rejects b bfc w :
  isInline (boxes w b) = true →
  wp (BlockFormattingContext.boxEnd b)
     (λ r s, (∃ msg, r = Throw msg) ∧ s = (bfc, w)) (bfc, w).
Proof.
  intros Hinline. unfold BlockFormattingContext.boxEnd.
  apply wp_bind, wp_in_world, wp_gets. cbn [fst snd].
  apply wp_bind, wp_in_world. cbn [fst snd].
  eapply wp_mono; [|apply getContainingBlockToContent_reads].
  intros [insets|msg] w1 ->; cbn [fst snd]; [|eauto].
  apply wp_bind, wp_this. cbn [fst snd].
  destruct (marginBlockEnd _); [apply wp_throw; eauto|].
  unfold isBlockLevel. rewrite Hinline. cbn [negb].
  apply wp_throw. eauto.
Qed.

End rejects.

(** ** Runs of a layout with unknown margins

    The tactics below run a method step by step in a state whose numbers
    are partly unknown: [wp_step] applies the rule of the first command,
    and [norm_term] brings the state back to a record of values, computing
    the arithmetic of known numbers and leaving the rest as it is. *)

Lemma wp_modify {S} (f : S → S) (Q : result unit → S → Prop) s :
  Q (Ok tt) (f s) → wp (modify f) Q s.
Proof. auto. Qed.

Ltac is_pos p :=
  lazymatch p with
  | xH => idtac
  | xO ?q => is_pos q
  | xI ?q => is_pos q
  end.

Ltac is_nat n :=
  lazymatch n with
  | O => idtac
  | S ?m => is_nat m
  end.

Ltac is_num z :=
  lazymatch z with
  | Z0 => idtac
  | Zpos ?p => is_pos p
  | Zneg ?p => is_pos p
  end.

Ltac norm_arith s :=
  match s with
  | context C [Z.add ?x ?y] =>
      let _ := match goal with _ => is_num x; is_num y end in
      let v := eval vm_compute in (Z.add x y) in
      let s' := context C [v] in norm_arith s'
  | context C [Z.sub ?x ?y] =>
      let _ := match goal with _ => is_num x; is_num y end in
      let v := eval vm_compute in (Z.sub x y) in
      let s' := context C [v] in norm_arith s'
  | context C [Z.max ?x ?y] =>
      let _ := match goal with _ => is_num x; is_num y end in
      let v := eval vm_compute in (Z.max x y) in
      let s' := context C [v] in norm_arith s'
  | context C [Z.ltb ?x ?y] =>
      let _ := match goal with _ => is_num x; is_num y end in
      let v := eval vm_compute in (Z.ltb x y) in
      let s' := context C [v] in norm_arith s'
  | context C [Z.leb ?x ?y] =>
      let _ := match goal with _ => is_num x; is_num y end in
      let v := eval vm_compute in (Z.leb x y) in
      let s' := context C [v] in norm_arith s'
  | context C [Z.eqb ?x ?y] =>
      let _ := match goal with _ => is_num x; is_num y end in
      let v := eval vm_compute in (Z.eqb x y) in
      let s' := context C [v] in norm_arith s'
  | context C [Z.of_nat ?n] =>
      let _ := match goal with _ => is_nat n end in
      let v := eval vm_compute in (Z.of_nat n) in
      let s' := context C [v] in norm_arith s'
  | context C [Z.to_nat ?z] =>
      let _ := match goal with _ => is_num z end in
      let v := eval vm_compute in (Z.to_nat z) in
      let s' := context C [v] in norm_arith s'
  | context C [@lookup _ _ _ _ ?j (@insert _ _ _ _ ?i ?v ?m)] =>
      let _ := match goal with _ => is_nat i; is_nat j end in
      let s' := lazymatch i with
                | j => context C [Some v]
                | _ => context C [m !! j]
                end in
      norm_arith s'
  | context C [match @decide (?x = ?y) _ with left _ => ?A | right _ => ?B end] =>
      let _ := match goal with _ => is_nat x; is_nat y end in
      let s' := lazymatch x with
                | y => context C [A]
                | _ => context C [B]
                end in
      norm_arith s'
  | context C [@insert nat ?A (list ?A) ?I ?i ?v ?l] =>
      let _ := match goal with _ => is_nat i end in
      let t := eval cbv [insert list_insert] in (@insert nat A (list A) I i v l) in
      let s' := context C [t] in norm_arith s'
  | context C [@lookup _ _ (gmap nat ?V) _ ?j ∅] =>
      let s' := context C [@None V] in norm_arith s'
  | _ => s
  end.

Ltac norm_term s :=
  let s0 := eval cbv [JS.len length set_area with_blockStart with_blockSize
                          with_lineLeft a_parent a_blockContainer a_blockStart
                          a_blockSize a_lineLeft a_inlineSize boxes areas
                          BlockFormattingContext.set_fctx
                          BlockFormattingContext.set_stack
                          BlockFormattingContext.set_cbBlockStart
                          BlockFormattingContext.set_cbLineLeft
                          BlockFormattingContext.set_cbLineRight
                          BlockFormattingContext.set_sizeStack
                          BlockFormattingContext.set_offsetStack
                          BlockFormattingContext.set_last
                          BlockFormattingContext.set_level
                          BlockFormattingContext.set_hypotheticals
                          BlockFormattingContext.set_margin
                          BlockFormattingContext.inlineSize
                          BlockFormattingContext.fctx
                          BlockFormattingContext.stack
                          BlockFormattingContext.cbBlockStart
                          BlockFormattingContext.cbLineLeft
                          BlockFormattingContext.cbLineRight
                          BlockFormattingContext.sizeStack
                          BlockFormattingContext.offsetStack
                          BlockFormattingContext.last
                          BlockFormattingContext.level
                          BlockFormattingContext.hypotheticals
                          BlockFormattingContext.margin
                          BlockFormattingContext.new
                          BlockFormattingContext.margin_add
                          BlockFormattingContext.new_margin
                          BlockFormattingContext.m_level
                          BlockFormattingContext.collection
                          BlockFormattingContext.clearanceAtLevel
                          fst snd id app] in s in
  let s1 := eval cbn -[MarginCollapseCollection.add
                       MarginCollapseCollection.get
                       MarginCollapseCollection.fresh
                       MarginCollapseCollection.new
                       Z.add Z.sub Z.max Z.opp Z.ltb Z.leb Z.eqb
                       insert lookup] in s0 in
  let s2 := norm_arith s1 in
  let s3 := eval cbv beta iota zeta in s2 in
  lazymatch s3 with
  | s => s
  | _ => norm_term s3
  end.

Ltac wp_state :=
  lazymatch goal with
  | |- wp ?m ?Q ?s =>
      let s'' := norm_term s in
      change s with s''
  | _ => idtac
  end.

Ltac wp_beta :=
  cbv beta iota;
  cbn [fst snd
       BlockFormattingContext.inlineSize BlockFormattingContext.fctx
       BlockFormattingContext.stack BlockFormattingContext.cbBlockStart
       BlockFormattingContext.cbLineLeft BlockFormattingContext.cbLineRight
       BlockFormattingContext.sizeStack BlockFormattingContext.offsetStack
       BlockFormattingContext.last BlockFormattingContext.level
       BlockFormattingContext.hypotheticals BlockFormattingContext.margin
       BlockFormattingContext.m_level BlockFormattingContext.collection
       BlockFormattingContext.clearanceAtLevel];
  wp_state.

Ltac wp_test c :=
  let v := eval vm_compute in c in
  lazymatch v with
  | true => change c with true; cbv iota
  | false => change c with false; cbv iota
  end.

Ltac wp_scrutinee x :=
  let v := eval hnf in x in
  progress change x with v; cbv iota beta.

Ltac wp_step :=
  lazymatch goal with
  | |- wp (bind _ _) _ _ => apply wp_bind
  | |- wp (ret _) _ _ => apply wp_ret; wp_beta
  | |- wp (throw _) _ _ => apply wp_throw; wp_beta
  | |- wp this _ _ => apply wp_this; wp_beta
  | |- wp (update _) _ _ => apply wp_update; wp_beta
  | |- wp (gets _) _ _ => apply wp_gets; wp_beta
  | |- wp (modify _) _ _ => apply wp_modify; wp_beta
  | |- wp (in_world _) _ _ => apply wp_in_world; wp_beta
  | |- wp (within _ _ _) _ _ => apply wp_within; wp_beta
  | |- wp (let _ := _ in _) _ _ => cbv zeta
  | |- wp (BlockFormattingContext.position_items _ _ _) _ _ =>
      cbn [BlockFormattingContext.position_items]
  | |- wp (if ?c then _ else _) _ _ => first [wp_test c | wp_scrutinee c]
  | |- wp (match ?x with _ => _ end) _ _ => wp_scrutinee x
  | |- wp ?m _ _ => let m' := eval red in m in progress change m with m'
  end.


(** A collection that holds one margin returns it. *)
Lemma get_add_fresh m :
  MarginCollapseCollection.get
    (MarginCollapseCollection.add m MarginCollapseCollection.fresh) = m.
Proof.
  unfold MarginCollapseCollection.get, MarginCollapseCollection.add.
  destruct (Z.ltb_spec m 0); cbn; lia.
Qed.

Lemma nested_layout_wp
    (ifc : BoxId → M (BlockFormattingContext.t * World) Z) a b c d :
  wp (collapse_through_layout ifc)
     (λ r s,
        r = Ok tt ∧
        a_blockStart (areas s.2 (borderArea (boxes s.2 1%nat))) =
          collapsed_margin [a; c; d; b] ∧
        a_blockSize (areas s.2 (borderArea (boxes s.2 1%nat))) = 0 ∧
        a_blockStart (areas s.2 (borderArea (boxes s.2 2%nat))) =
          collapsed_margin [a; c] - collapsed_margin [a; c; d; b] ∧
        a_blockSize (areas s.2 (borderArea (boxes s.2 2%nat))) = 0 ∧
        a_blockSize (areas s.2 (contentArea (boxes s.2 0%nat))) =
          Z.max 0 (collapsed_margin [a; c; d; b]) ∧
        BlockFormattingContext.stack s.1 = [])
      (BlockFormattingContext.new 300, nested_world a b c d).
Proof.
  rewrite <- !add_all_get.
  unfold collapse_through_layout.
  repeat wp_step.
  lazymatch goal with |- ?P => let P' := norm_term P in change P' end.
  cbn [MarginCollapseCollection.add_all foldl].
  repeat split; lia.
Qed.

Lemma sibling_layout_wp
    (ifc : BoxId → M (BlockFormattingContext.t * World) Z) t1 b1 p1 t2 b2 p2 :
  wp (sibling_layout ifc)
     (λ r s, r = Ok tt ∧
        a_blockStart (areas s.2 (borderArea (boxes s.2 1%nat))) = t1 ∧
        a_blockSize (areas s.2 (borderArea (boxes s.2 1%nat))) = Z.pos p1 ∧
        a_blockStart (areas s.2 (borderArea (boxes s.2 2%nat))) =
          t1 + Z.pos p1 + collapsed_margin [b1; t2] ∧
        a_blockSize (areas s.2 (borderArea (boxes s.2 2%nat))) = Z.pos p2 ∧
        a_blockSize (areas s.2 (contentArea (boxes s.2 0%nat))) =
          Z.max 0 (t1 + Z.pos p1 + collapsed_margin [b1; t2] + Z.pos p2 + b2) ∧
        BlockFormattingContext.stack s.1 = [])
      (BlockFormattingContext.new 300,
       sibling_world t1 b1 (Z.pos p1) t2 b2 (Z.pos p2)).
Proof.
  rewrite <- !add_all_get.
  unfold sibling_layout.
  repeat wp_step.
  lazymatch goal with |- ?P => let P' := norm_term P in change P' end.
  cbn [MarginCollapseCollection.add_all foldl].
  rewrite !get_add_fresh.
  repeat split; lia.
Qed.

(** X16: [boxStart] and [boxEnd] refuse an inline-level box with an
    exception, and leave the formatting context, the boxes and the areas
    as they were. *)
Theorem bfc_rejects_inline_level
    (ifc_doTextLayout : BoxId → M (BlockFormattingContext.t * World) Z)
    (b : BoxId) (bfc : BlockFormattingContext.t) (w : World) :
  isInline (boxes w b) = true →
  (∃ msg, BlockFormattingContext.boxStart ifc_doTextLayout b (bfc, w)
          = (Throw msg, (bfc, w))) ∧
  (∃ msg, BlockFormattingContext.boxEnd b (bfc, w) = (Throw msg, (bfc, w))).
Proof.
  intros Hinline. split.
  - pose proof (boxStart_rejects ifc_doTextLayout b bfc w Hinline) as H.
    unfold wp in H.
    destruct (BlockFormattingContext.boxStart ifc_doTextLayout b (bfc, w))
      as [r s]. cbn [fst snd] in H. destruct H as [[msg ->] ->]. eauto.
  - pose proof (boxEnd_rejects b bfc w Hinline) as H.
    unfold wp in H.
    destruct (BlockFormattingContext.boxEnd b (bfc, w)) as [r s].
    cbn [fst snd] in H. destruct H as [[msg ->] ->]. eauto.
Qed.

Lemma bfc_rejects_inline_level_witness :
  ∃ msg,
    BlockFormattingContext.boxStart (λ _, ret 0) 1%nat
      (BlockFormattingContext.new 300, inline_block_world)
    = (Throw msg, (BlockFormattingContext.new 300, inline_block_world)).
Proof.
  apply (bfc_rejects_inline_level (λ _, ret 0) 1%nat
           (BlockFormattingContext.new 300) inline_block_world).
  reflexivity.
Defined.

(** X17: in the collapse-through scenario with any four margins, the top
    and bottom margins of the parent and of its empty child all collapse
    into one: the border box of the parent starts at the collapsed margin
    of the four and has the block size [0]; the child is placed, relative
    to the parent, where the two top margins alone would put it; the
    content box of the root is as high as the collapsed margin, or [0] if
    that is negative; nothing is thrown and the stack is consumed. *)
Theorem nested_margins_collapse
    (ifc_doTextLayout : BoxId → M (BlockFormattingContext.t * World) Z)
    (top1 bottom1 top2 bottom2 : Z) :
  let '(r, (bfc, w)) :=
    collapse_through_layout ifc_doTextLayout
      (BlockFormattingContext.new 300,
       nested_world top1 bottom1 top2 bottom2) in
  r = Ok tt ∧
  a_blockStart (areas w (borderArea (boxes w 1%nat))) =
    collapsed_margin [top1; top2; bottom2; bottom1] ∧
  a_blockSize (areas w (borderArea (boxes w 1%nat))) = 0 ∧
  a_blockStart (areas w (borderArea (boxes w 2%nat))) =
    collapsed_margin [top1; top2]
    - collapsed_margin [top1; top2; bottom2; bottom1] ∧
  a_blockSize (areas w (borderArea (boxes w 2%nat))) = 0 ∧
  a_blockSize (areas w (contentArea (boxes w 0%nat))) =
    Z.max 0 (collapsed_margin [top1; top2; bottom2; bottom1]) ∧
  BlockFormattingContext.stack bfc = [].
Proof.
  pose proof (nested_layout_wp ifc_doTextLayout top1 bottom1 top2 bottom2)
    as H.
  unfold wp in H.
  destruct (collapse_through_layout _ _) as [r [bfc w]]. exact H.
Qed.

(** X18: two siblings of positive block sizes in a fresh formatting
    context: the first starts at its top margin, the second starts below
    the first by the collapsed margin of the bottom margin of the first
    and its own top margin, both keep their block sizes, and the content
    box of the root ends after the bottom margin of the second (or has
    the block size [0] if that is above its start). *)
Theorem sibling_margins_collapse
    (ifc_doTextLayout : BoxId → M (BlockFormattingContext.t * World) Z)
    (top1 bottom1 height1 top2 bottom2 height2 : Z) :
  0 < height1 → 0 < height2 →
  let '(r, (bfc, w)) :=
    sibling_layout ifc_doTextLayout
      (BlockFormattingContext.new 300,
       sibling_world top1 bottom1 height1 top2 bottom2 height2) in
  r = Ok tt ∧
  a_blockStart (areas w (borderArea (boxes w 1%nat))) = top1 ∧
  a_blockSize (areas w (borderArea (boxes w 1%nat))) = height1 ∧
  a_blockStart (areas w (borderArea (boxes w 2%nat))) =
    top1 + height1 + collapsed_margin [bottom1; top2] ∧
  a_blockSize (areas w (borderArea (boxes w 2%nat))) = height2 ∧
  a_blockSize (areas w (contentArea (boxes w 0%nat))) =
    Z.max 0 (top1 + height1 + collapsed_margin [bottom1; top2]
             + height2 + bottom2) ∧
  BlockFormattingContext.stack bfc = [].
Proof.
  intros H1 H2.
  destruct height1 as [|p1|p1]; try lia. destruct height2 as [|p2|p2]; try lia.
  pose proof (sibling_layout_wp ifc_doTextLayout top1 bottom1 p1 top2 bottom2
                p2) as H.
  unfold wp in H.
  destruct (sibling_layout _ _) as [r [bfc w]]. exact H.
Qed.

Lemma sibling_margins_collapse_witness :
  let '(r, (bfc, w)) :=
    sibling_layout (λ _, ret 0)
      (BlockFormattingContext.new 300, sibling_world 10 20 100 30 5 50) in
  r = Ok tt ∧
  a_blockStart (areas w (borderArea (boxes w 1%nat))) = 10 ∧
  a_blockSize (areas w (borderArea (boxes w 1%nat))) = 100 ∧
  a_blockStart (areas w (borderArea (boxes w 2%nat))) =
    10 + 100 + collapsed_margin [20; 30] ∧
  a_blockSize (areas w (borderArea (boxes w 2%nat))) = 50 ∧
  a_blockSize (areas w (contentArea (boxes w 0%nat))) =
    Z.max 0 (10 + 100 + collapsed_margin [20; 30] + 50 + 5) ∧
  BlockFormattingContext.stack bfc = [].
Proof.
  apply (sibling_margins_collapse (λ _, ret 0) 10 20 100 30 5 50); lia.
Defined.

(** ** The position of a line beside the floats *)

Lemma shelf_offset_spec s i :
  same_lengths s → 0 ≤ i →
  (i < JS.len (FloatSide.blockOffsets s) ∧
   ∃ o, shelf_offset s i = Ok (Some o)
        ∧ JS.get (FloatSide.blockOffsets s) i = Some o) ∨
  (JS.len (FloatSide.blockOffsets s) ≤ i ∧ shelf_offset s i = Ok None).
Proof.
  intros (Hlen & _) Hi. unfold shelf_offset. rewrite <- Hlen.
  destruct (Z.ltb_spec i (JS.len (FloatSide.blockOffsets s))); [left|right; auto].
  split; [assumption|].
  destruct (JS_get_is_Some (FloatSide.blockOffsets s) i) as [o Ho]; [lia|].
  rewrite Ho. eauto.
Qed.

Lemma JS_get_elem_of {A} (a : list A) i y : JS.get a i = Some y → y ∈ a.
Proof. intros [_ H]%JS_get_Some. eapply list_elem_of_lookup_2, H. Qed.

Lemma elem_of_JS_get {A} (a : list A) y : y ∈ a → ∃ i, JS.get a i = Some y.
Proof.
  intros [n Hn]%list_elem_of_lookup_1. exists (Z.of_nat n).
  now rewrite JS_get_of_nat.
Qed.

Lemma findLinePosition_loop_lands bfc f blockSize inlineSize start y li ri :
  let L := FloatContext.leftFloats f in
  let R := FloatContext.rightFloats f in
  same_lengths L → same_lengths R →
  0 ≤ li → 0 ≤ ri →
  (∀ j o, j < li → JS.get (FloatSide.blockOffsets L) j = Some o → o ≤ y) →
  (∀ j o, j < ri → JS.get (FloatSide.blockOffsets R) j = Some o → o ≤ y) →
  start ≤ y →
  (y = start ∨ y ∈ FloatSide.blockOffsets L ∨ y ∈ FloatSide.blockOffsets R) →
  ∃ y',
    findLinePosition_loop bfc f blockSize inlineSize y li ri
    = Ok (FloatContext.getVacancyForLine bfc f y' blockSize) ∧
    start ≤ y' ∧
    (y' = start ∨ y' ∈ FloatSide.blockOffsets L
     ∨ y' ∈ FloatSide.blockOffsets R) ∧
    (JS.nle (Some inlineSize)
       (v_inlineSize (FloatContext.getVacancyForLine bfc f y' blockSize))
     = true
     ∨ ∀ o, o ∈ FloatSide.blockOffsets L ++ FloatSide.blockOffsets R → o ≤ y').
Proof.
  cbv zeta. intros HL HR.
  funelim (findLinePosition_loop bfc f blockSize inlineSize y li ri);
    intros Hli Hri HinvL HinvR Hstart Hy.
  all: repeat match goal with
         | H : {| pr1 := _; pr2 := _ |} = _ |- _ => clear H
         end.
  all: try clear Heqcall.
  all: destruct (shelf_offset_spec _ leftShelfIndex HL Hli)
         as [(HlL & lo & El & Gl)|(HlL & El)];
       destruct (shelf_offset_spec _ rightShelfIndex HR Hri)
         as [(HlR & ro & Er & Gr)|(HlR & Er)].
  all: pose proof HL as (HlenL & _); pose proof HR as (HlenR & _).
  all: repeat match goal with
         | H : (_ || _) = false |- _ =>
             apply orb_false_iff in H as [?%Z.ltb_ge ?%Z.ltb_ge]
         | H : (_ || _) = true |- _ =>
             apply orb_true_iff in H; rewrite !Z.ltb_lt in H
         end.
  all: try (rewrite El in Hleft; injection Hleft as <-).
  all: try (rewrite Er in Hright; injection Hright as <-).
  all: try lia.
  all: try discriminate.
  all: try congruence.
  all: cbn [min_inf le_inf] in *.
  all: try discriminate.
  all: repeat match goal with H : Some _ = Some _ |- _ => injection H as <- end.
  all: repeat match goal with
         | |- context [?x <=? ?y] => destruct (Z.leb_spec x y)
         | H : context [?x <=? ?y] |- _ => destruct (Z.leb_spec x y)
         end.
  all: try lia.
  all: try match goal with
         | IH : ∀ start : Z, _ |- ∃ _, findLinePosition_loop _ _ _ _ _ _ _ = _ ∧ _ =>
             apply IH; clear IH; try assumption; try lia
         | |- ∃ _, Ok _ = Ok _ ∧ _ =>
             eexists; split; [reflexivity|]; split; [lia|]; split
         end.
  all: try match goal with
         | |- ∀ j o, j < _ → JS.get _ j = Some o → o ≤ _ =>
             let Hj := fresh in let Hget := fresh in
             intros j o Hj Hget;
             first
               [ pose proof (HinvL j o ltac:(lia) Hget); lia
               | pose proof (HinvR j o ltac:(lia) Hget); lia
               | assert (j = leftShelfIndex ∨ j < leftShelfIndex) as [->|?]
                   by lia;
                 [ rewrite Gl in Hget; injection Hget as <-; lia
                 | pose proof (HinvL j o ltac:(lia) Hget); lia ]
               | assert (j = rightShelfIndex ∨ j < rightShelfIndex) as [->|?]
                   by lia;
                 [ rewrite Gr in Hget; injection Hget as <-; lia
                 | pose proof (HinvR j o ltac:(lia) Hget); lia ] ]
         | |- _ = true ∨ _ =>
             first
               [ left; assumption
               | right; intros o [Ho|Ho]%elem_of_app;
                 apply elem_of_JS_get in Ho as [i Hi];
                 pose proof (JS_get_lt _ _ _ Hi);
                 [eapply HinvL|eapply HinvR]; [|eassumption| |eassumption];
                 lia ]
         | |- _ = _ ∨ _ ∈ _ ∨ _ =>
             repeat match goal with
               | |- context [Z.max ?a ?b] =>
                   destruct (Z.max_spec a b) as [[? ->]|[? ->]]
               | |- context [Z.min ?a ?b] =>
                   destruct (Z.min_spec a b) as [[? ->]|[? ->]]
               end;
             first
               [ exact Hy
               | right; left; eapply JS_get_elem_of; eassumption
               | right; right; eapply JS_get_elem_of; eassumption ]
         end.
Qed.

(** X20: [findLinePosition] looks for room below the line, never above.
    On two well-formed sides whose first track is not below the block
    offset asked for, it returns the vacancy of a line at a block offset
    that is the one asked for or the top of a track below it; the line
    fits into that vacancy, or the offset is at or below the top of every
    track of the two sides. *)
Theorem findLinePosition_lands (bfc : BfcView) (f : FloatContext.t)
    (blockOffset blockSize inlineSize : Z) :
  let L := FloatContext.leftFloats f in
  let R := FloatContext.rightFloats f in
  well_formed L → well_formed R →
  (∀ o, JS.get (FloatSide.blockOffsets L) 0 = Some o → o ≤ blockOffset) →
  (∀ o, JS.get (FloatSide.blockOffsets R) 0 = Some o → o ≤ blockOffset) →
  ∃ y,
    findLinePosition bfc f blockOffset blockSize inlineSize
    = Ok (FloatContext.getVacancyForLine bfc f y blockSize) ∧
    blockOffset ≤ y ∧
    (y = blockOffset ∨ y ∈ FloatSide.blockOffsets L
     ∨ y ∈ FloatSide.blockOffsets R) ∧
    (JS.nle (Some inlineSize)
       (v_inlineSize (FloatContext.getVacancyForLine bfc f y blockSize))
     = true
     ∨ ∀ o, o ∈ FloatSide.blockOffsets L ++ FloatSide.blockOffsets R → o ≤ y).
Proof.
  cbv zeta. intros HL HR HfirstL HfirstR. unfold findLinePosition.
  assert (Hstart : ∀ s,
    well_formed s →
    (∀ o, JS.get (FloatSide.blockOffsets s) 0 = Some o → o ≤ blockOffset) →
    0 ≤ (FloatSide.getTrackRange s blockOffset blockSize).1 ∧
    ∀ j o, j < (FloatSide.getTrackRange s blockOffset blockSize).1 →
           JS.get (FloatSide.blockOffsets s) j = Some o → o ≤ blockOffset).
  { intros s (Hne & Hinc & _) Hfirst.
    pose proof (getTrackRange_start s blockOffset blockSize Hne Hinc)
      as (Hrange & Hle & Hlt).
    set (i := (FloatSide.getTrackRange s blockOffset blockSize).1) in *.
    assert (Hlen : 0 < JS.len (FloatSide.blockOffsets s)).
    { unfold JS.len. destruct (FloatSide.blockOffsets s); [congruence|cbn; lia]. }
    assert (Hi : 0 ≤ i).
    { destruct (Z.eq_dec i (-1)) as [E|]; [|lia]. exfalso.
      destruct (JS_get_is_Some (FloatSide.blockOffsets s) 0) as [o Ho]; [lia|].
      specialize (Hfirst o Ho). rewrite E in Hlt. specialize (Hlt o Ho). lia. }
    split; [exact Hi|]. intros j o Hj Ho.
    destruct (JS_get_is_Some (FloatSide.blockOffsets s) i) as [oi Hoi]; [lia|].
    pose proof (strictly_increasing_get _ j i o oi Hinc Hj Ho Hoi).
    specialize (Hle oi Hoi). lia. }
  destruct (Hstart _ HL HfirstL) as (HiL & HinvL).
  destruct (Hstart _ HR HfirstR) as (HiR & HinvR).
  apply findLinePosition_loop_lands; auto.
  - apply HL.
  - apply HR.
  - lia.
Qed.

Lemma findLinePosition_lands_witness :
  let f := {| FloatContext.leftFloats := wide_float_side;
              FloatContext.rightFloats := FloatSide.new 0;
              FloatContext.misfits := [] |} in
  v_inlineSize (FloatContext.getVacancyForLine (view_at 0) f 0 0) = Some 50 ∧
  findLinePosition (view_at 0) f 0 0 60
  = Ok (FloatContext.getVacancyForLine (view_at 0) f 10 0) ∧
  ∃ y,
    findLinePosition (view_at 0) f 0 0 60
    = Ok (FloatContext.getVacancyForLine (view_at 0) f y 0) ∧ 0 ≤ y.
Proof.
  cbv zeta. split; [reflexivity|]. split; [reflexivity|].
  destruct (findLinePosition_lands (view_at 0)
              {| FloatContext.leftFloats := wide_float_side;
                 FloatContext.rightFloats := FloatSide.new 0;
                 FloatContext.misfits := [] |} 0 0 60)
    as (y & Hy & Hle & _).
  - apply well_formed_placeFloat, well_formed_new.
  - apply well_formed_new.
  - intros o Ho. vm_compute in Ho. injection Ho as <-. lia.
  - intros o Ho. vm_compute in Ho. injection Ho as <-. lia.
  - exists y. split; [exact Hy|exact Hle].
Defined.

(** ** The iterators over inline content *)

Lemma item_turns_pos item : (0 < item_turns item)%nat.
Proof. destruct item; cbn; lia. Qed.

Lemma preorder_run_stack (n : nat) (stack : list InlineLevel) (extra : nat) :
  (list_sum (map item_turns stack) ≤ n)%nat →
  preorder_run (length (flat_map inlines_and_runs stack) + S extra) stack
  = (flat_map inlines_and_runs stack, []).
Proof.
  revert stack extra. induction n as [|n IH]; intros stack extra Hn.
  - destruct stack as [|item stack]; [reflexivity|].
    pose proof (item_turns_pos item). cbn in Hn. lia.
  - destruct stack as [|item stack].
    + cbn. reflexivity.
    + cbn [map list_sum] in Hn. simpl in Hn.
      destruct item as [id children| id | |id isFloat].
      * cbn [flat_map inlines_and_runs]. fold (flat_map inlines_and_runs).
        cbn [app length Nat.add preorder_run preorder_next].
        rewrite <- flat_map_app. rewrite IH; [reflexivity|].
        rewrite map_app, list_sum_app.
        change (item_turns (Inline id children))
          with (S (S (list_sum (map item_turns children)))) in Hn. lia.
      * cbn [flat_map inlines_and_runs app length Nat.add preorder_run
               preorder_next].
        rewrite IH; [reflexivity|]. cbn [item_turns] in Hn. lia.
      * cbn [flat_map inlines_and_runs app].
        cbn [item_turns] in Hn. specialize (IH stack extra ltac:(lia)).
        rewrite Nat.add_succ_r in *. cbn [preorder_run preorder_next] in *.
        exact IH.
      * cbn [flat_map inlines_and_runs app].
        cbn [item_turns] in Hn. specialize (IH stack extra ltac:(lia)).
        rewrite Nat.add_succ_r in *. cbn [preorder_run preorder_next] in *.
        exact IH.
Qed.

(** X21: the preorder iterator yields the inlines and the runs of the
    content in document order, an inline before its content, and skips
    breaks and block containers; one call more returns [{done: true}] and
    leaves the stack empty, whatever the content. *)
Theorem preorder_iterator_document_order (children : list InlineLevel)
    (extra : nat) :
  let values := flat_map inlines_and_runs children in
  preorder_run (length values + S extra)
    (createPreorderInlineIterator children) = (values, []) ∧
  preorder_next (preorder_run (length values + S extra)
                   (createPreorderInlineIterator children)).2 = (None, []).
Proof.
  cbv zeta. unfold createPreorderInlineIterator.
  rewrite (preorder_run_stack _ children extra (Nat.le_refl _)).
  split; reflexivity.
Qed.

Lemma stack_events_items children :
  stack_events (entry_item <$> children) = flat_map events children.
Proof.
  unfold stack_events. induction children as [|c cs IH]; [reflexivity|].
  simpl. f_equal. exact IH.
Qed.

Lemma floats_only_items children :
  forallb entry_floats_only (entry_item <$> children)
  = forallb floats_only children.
Proof.
  induction children as [|c cs IH]; [reflexivity|]. simpl. f_equal. exact IH.
Qed.

Lemma JS_len_snoc {A} (a : list A) x : JS.len (a ++ [x]) = JS.len a + 1.
Proof. unfold JS.len. rewrite length_app. cbn. lia. Qed.

(** The loop of [next()] moves events from the stack to the buffer, in
    their order, and throws only for an inline-block. *)
Lemma inline_fill_spec (it : InlineIterator) :
  shouldFlushBreakop it = false →
  0 ≤ bk it ≤ JS.len (buffered it) →
  match inline_fill it with
  | Throw msg =>
      msg = "Inline block not supported yet"%string ∧
      forallb entry_floats_only (it_stack it) = false
  | Ok it' =>
      pending it' = pending it ∧
      forallb entry_floats_only (it_stack it')
      = forallb entry_floats_only (it_stack it) ∧
      iterator_inv it' ∧
      (buffered it' = [] → it_stack it' = [])
  end.
Proof.
  funelim (inline_fill it); intros Hflag Hbk.
  all: repeat match goal with
         | H : {| pr1 := _; pr2 := _ |} = _ |- _ => clear H
         end.
  all: try clear Heqcall.
  all: unfold pending, iterator_inv in *; rewrite e in *;
       cbn [forallb entry_floats_only floats_only].
  - repeat split; auto; try lia. congruence.
  - match goal with
    | IH : _ → _ → match inline_fill ?x with _ => _ end |- _ =>
        specialize (IH Hflag); destruct (inline_fill x) as [it'|msg]
    end.
    + destruct H as (Hpending & Hfloats & Hinv & Hempty).
      { cbn [bk buffered]. rewrite JS_len_snoc. lia. }
      split; [|split; [|auto]].
      * rewrite Hpending. cbn [buffered it_stack]. unfold stack_events.
        rewrite flat_map_app.
        match goal with
        | |- context [flat_map entry_events (entry_item <$> ?cs)] =>
            fold (stack_events (entry_item <$> cs))
        end.
        rewrite stack_events_items. cbn [flat_map entry_events events].
        fold (flat_map events).
        rewrite <- !app_assoc. cbn [app]. now rewrite <- ?app_assoc.
      * rewrite Hfloats. cbn [it_stack]. rewrite forallb_app, floats_only_items.
        reflexivity.
    + destruct H as (-> & Hfloats).
      { cbn [bk buffered]. rewrite JS_len_snoc. lia. }
      split; [reflexivity|]. rewrite <- Hfloats. cbn [it_stack].
      rewrite forallb_app, floats_only_items. reflexivity.
  - cbn [buffered it_stack bk shouldFlushBreakop]. rewrite JS_len_snoc.
    unfold stack_events. cbn [flat_map entry_events events].
    rewrite <- app_assoc.
    repeat split; auto; try lia. intros H. now apply app_eq_nil in H as [_ H].
  - cbn [buffered it_stack bk shouldFlushBreakop]. rewrite JS_len_snoc.
    unfold stack_events. cbn [flat_map entry_events events].
    rewrite <- app_assoc.
    repeat split; auto; try lia. intros H. now apply app_eq_nil in H as [_ H].
  - cbn [buffered it_stack bk shouldFlushBreakop]. rewrite JS_len_snoc.
    unfold stack_events. cbn [flat_map entry_events events].
    rewrite <- app_assoc.
    repeat split; auto; try lia. intros H. now apply app_eq_nil in H as [_ H].
  - split; reflexivity.
  - match goal with
    | IH : _ → _ → match inline_fill ?x with _ => _ end |- _ =>
        specialize (IH Hflag); destruct (inline_fill x) as [it'|msg]
    end.
    + destruct H as (Hpending & Hfloats & Hinv & Hempty).
      { cbn [bk buffered minlevel]. rewrite JS_len_snoc.
        destruct (_ <=? _); lia. }
      split; [|split; [|auto]].
      * rewrite Hpending. cbn [buffered it_stack]. unfold stack_events.
        cbn [flat_map entry_events]. now rewrite <- !app_assoc.
      * exact Hfloats.
    + destruct H as (-> & Hfloats).
      { cbn [bk buffered minlevel]. rewrite JS_len_snoc.
        destruct (_ <=? _); lia. }
      split; [reflexivity|exact Hfloats].
Qed.

(** One call of [next()] *)
Lemma inline_next_spec (it : InlineIterator) :
  iterator_inv it →
  match inline_next it with
  | Throw msg =>
      msg = "Inline block not supported yet"%string ∧
      forallb entry_floats_only (it_stack it) = false
  | Ok (None, _) =>
      pending it = [] ∧ forallb entry_floats_only (it_stack it) = true
  | Ok (Some value, it') =>
      iterator_inv it' ∧
      (calls_left it' < calls_left it)%nat ∧
      forallb entry_floats_only (it_stack it')
      = forallb entry_floats_only (it_stack it) ∧
      (shouldFlushBreakop it = false → buffered it ≠ [] →
       value ≠ state_breakop) ∧
      match value with
      | buffered_value b => pending it = b :: pending it'
      | state_breakop =>
          pending it' = pending it ∧ shouldFlushBreakop it' = false ∧
          buffered it' ≠ []
      end
  end.
Proof.
  intros (Hbk & Hflag).
  assert (Hemit : ∀ it1,
    iterator_inv it1 → buffered it1 ≠ [] →
    match
      match buffered it1 with
      | [] => Ok (None, it1)
      | value :: rest =>
          if 0 <? bk it1
          then Ok (Some (buffered_value value),
                   {| it_stack := it_stack it1; buffered := rest;
                      minlevel := minlevel it1; it_level := it_level it1;
                      bk := bk it1 - 1;
                      shouldFlushBreakop := shouldFlushBreakop it1 |})
          else if shouldFlushBreakop it1
          then Ok (Some state_breakop,
                   {| it_stack := it_stack it1; buffered := buffered it1;
                      minlevel := minlevel it1; it_level := it_level it1;
                      bk := bk it1;
                      shouldFlushBreakop := false |})
          else Ok (Some (buffered_value value),
                   {| it_stack := it_stack it1; buffered := rest;
                      minlevel := minlevel it1; it_level := it_level it1;
                      bk := bk it1;
                      shouldFlushBreakop := shouldFlushBreakop it1 |})
      end
    with
    | Ok (Some value, it') =>
        iterator_inv it' ∧
        (calls_left it' < calls_left it1)%nat ∧
        it_stack it' = it_stack it1 ∧
        (shouldFlushBreakop it1 = false → value ≠ state_breakop) ∧
        match value with
        | buffered_value b => pending it1 = b :: pending it'
        | state_breakop =>
            pending it' = pending it1 ∧ shouldFlushBreakop it' = false ∧
            buffered it' ≠ []
        end
    | _ => False
    end).
  { intros it1 (Hbk1 & Hflag1) Hne. unfold iterator_inv, calls_left, pending.
    destruct (buffered it1) as [|b rest] eqn:E; [congruence|].
    unfold JS.len in *. cbn [length] in *.
    destruct (Z.ltb_spec 0 (bk it1)).
    - cbn [buffered it_stack bk shouldFlushBreakop].
      repeat split; try lia; try discriminate.
      intros Hf. specialize (Hflag1 Hf). lia.
    - destruct (shouldFlushBreakop it1) eqn:Ef.
      + cbn [buffered it_stack bk shouldFlushBreakop].
        cbn [length]. repeat split; try lia; try discriminate.
      + cbn [buffered it_stack bk shouldFlushBreakop].
        repeat split; try lia; try discriminate. }
  unfold inline_next.
  destruct (bool_decide_reflect (buffered it = [])) as [Hempty|Hne].
  - assert (Hf : shouldFlushBreakop it = false).
    { destruct (shouldFlushBreakop it); [|reflexivity].
      specialize (Hflag eq_refl). rewrite Hempty in Hflag, Hbk.
      unfold JS.len in *. cbn in *. lia. }
    pose proof (inline_fill_spec it Hf Hbk) as Hfill.
    destruct (inline_fill it) as [it1|msg]; [|exact Hfill].
    destruct Hfill as (Hpending & Hfloats & Hinv1 & Hstack).
    destruct (buffered it1) as [|b rest] eqn:E.
    + rewrite <- Hpending, <- Hfloats. unfold pending.
      rewrite E, (Hstack eq_refl). split; reflexivity.
    + specialize (Hemit it1 Hinv1). rewrite E in Hemit.
      specialize (Hemit ltac:(discriminate)).
      match type of Hemit with
      | match ?x with _ => _ end => destruct x as [[[value|] it']|msg]
      end; try contradiction.
      destruct Hemit as (Hinv' & Hcalls & Hst & _ & Hvalue).
      split; [exact Hinv'|]. split.
      { assert (calls_left it1 ≤ calls_left it)%nat; [|lia].
        unfold calls_left. rewrite Hf.
        apply (f_equal length) in Hpending. unfold pending in Hpending.
        rewrite !length_app, E, Hempty in Hpending. cbn [length] in Hpending.
        rewrite E, Hempty. cbn [length].
        destruct (shouldFlushBreakop it1); lia. }
      split; [now rewrite Hst|]. split; [congruence|].
      rewrite <- Hpending. exact Hvalue.
  - specialize (Hemit it (conj Hbk Hflag) Hne).
    destruct (buffered it) as [|b rest] eqn:E; [congruence|].
    match type of Hemit with
    | match ?x with _ => _ end => destruct x as [[[value|] it']|msg]
    end; try contradiction.
    destruct Hemit as (Hinv' & Hcalls & Hst & Hbreak & Hvalue).
    split; [exact Hinv'|]. split; [exact Hcalls|].
    split; [now rewrite Hst|]. split; [auto|exact Hvalue].
Qed.

Lemma inline_run_step (n : nat) (it : InlineIterator) :
  inline_run (S n) it =
  match inline_next it with
  | Throw msg => Some (Throw msg)
  | Ok (None, _) => Some (Ok [])
  | Ok (Some value, it) =>
      match inline_run n it with
      | Some (Ok values) => Some (Ok (value :: values))
      | other => other
      end
  end.
Proof. reflexivity. Qed.

Lemma without_breakops_value b values :
  without_breakops (buffered_value b :: values) = b :: without_breakops values.
Proof. reflexivity. Qed.

Lemma without_breakops_breakop values :
  without_breakops (state_breakop :: values) = without_breakops values.
Proof. reflexivity. Qed.

(** All the calls of [next()] up to [{done: true}] *)
Lemma inline_run_spec (n : nat) (it : InlineIterator) :
  (calls_left it ≤ n)%nat → iterator_inv it →
  if forallb entry_floats_only (it_stack it)
  then ∃ values,
         (∀ extra, inline_run (S n + extra) it = Some (Ok values)) ∧
         without_breakops values = pending it ∧
         breakops_apart values = true ∧
         (shouldFlushBreakop it = false → buffered it ≠ [] →
          ∃ b rest, values = buffered_value b :: rest)
  else ∀ extra,
         inline_run (S n + extra) it
         = Some (Throw "Inline block not supported yet").
Proof.
  revert it. induction n as [|n IH]; intros it Hn Hinv.
  all: pose proof (inline_next_spec it Hinv) as Hnext.
  all: destruct (inline_next it) as [[[value|] it']|msg] eqn:Enext.
  - destruct Hnext as (_ & Hlt & _). lia.
  - destruct Hnext as (Hpending & ->). exists []. split.
    { intros extra. change (1 + extra)%nat with (S extra).
      now rewrite inline_run_step, Enext. }
    split; [now rewrite Hpending|]. split; [reflexivity|].
    intros _ Hne. unfold pending in Hpending.
    now apply app_eq_nil in Hpending as [? _].
  - destruct Hnext as (-> & ->). intros extra.
    change (1 + extra)%nat with (S extra). now rewrite inline_run_step, Enext.
  - destruct Hnext as (Hinv' & Hlt & Hfloats & Hfirst & Hvalue).
    specialize (IH it' ltac:(lia) Hinv'). rewrite Hfloats in IH.
    destruct (forallb entry_floats_only (it_stack it)).
    + destruct IH as (values & Hrun & Hwithout & Hapart & Hhead).
      exists (value :: values). split; [|destruct value as [b|]].
      * intros extra. change (S (S n) + extra)%nat with (S (S n + extra)).
        now rewrite inline_run_step, Enext, (Hrun extra).
      * rewrite without_breakops_value, Hwithout.
        split; [now rewrite Hvalue|]. split; [exact Hapart|eauto].
      * destruct Hvalue as (Hpending & Hf & Hne).
        destruct (Hhead Hf Hne) as (b & rest & ->).
        rewrite without_breakops_breakop, Hwithout, Hpending.
        split; [reflexivity|]. split; [exact Hapart|].
        intros Hf' Hne'. now destruct (Hfirst Hf' Hne').
    + intros extra. change (S (S n) + extra)%nat with (S (S n + extra)).
      now rewrite inline_run_step, Enext, (IH extra).
  - destruct Hnext as (Hpending & ->). exists []. split.
    { intros extra. change (S (S n) + extra)%nat with (S (S n + extra)).
      now rewrite inline_run_step, Enext. }
    split; [now rewrite Hpending|]. split; [reflexivity|].
    intros _ Hne. unfold pending in Hpending.
    now apply app_eq_nil in Hpending as [? _].
  - destruct Hnext as (-> & ->). intros extra.
    change (S (S n) + extra)%nat with (S (S n + extra)).
    now rewrite inline_run_step, Enext.
Qed.

(** X22: on content without inline-blocks the iterator of
    [createInlineIterator] returns, break opportunities apart, the events
    of the content in document order: [pre] for an inline, the events of
    its children, [post] for the inline, [text] for a run, [break] for a
    break and [float] for a float.  Every break opportunity is followed by
    an event, and after at most three calls for each event [next()]
    returns [{done: true}]. *)
Theorem inline_iterator_events (children : list InlineLevel) :
  forallb floats_only children = true →
  ∃ values,
    (∀ extra,
       inline_run (3 * length (flat_map events children) + 1 + extra)
         (createInlineIterator children) = Some (Ok values)) ∧
    without_breakops values = flat_map events children ∧
    breakops_apart values = true.
Proof.
  intros Hfloats.
  pose proof (inline_run_spec (3 * length (flat_map events children))
                (createInlineIterator children)) as H.
  unfold calls_left, pending, iterator_inv in H.
  cbn [createInlineIterator it_stack buffered bk shouldFlushBreakop app length]
    in H.
  rewrite floats_only_items, stack_events_items, Hfloats in H.
  destruct H as (values & Hrun & Hwithout & Hapart & _).
  - lia.
  - unfold JS.len. cbn. split; [lia|discriminate].
  - exists values. split; [|auto]. intros extra.
    rewrite <- (Hrun extra). f_equal. lia.
Qed.

Lemma inline_iterator_events_witness :
  ∃ values,
    inline_run 22
      (createInlineIterator
         [Run 1; Inline 2 [Run 3; Break]; Block 4 true; Run 5])
    = Some (Ok values) ∧
    without_breakops values
    = [state_text (Run 1); state_pre (Inline 2 [Run 3; Break]);
       state_text (Run 3); state_break;
       state_post (Inline 2 [Run 3; Break]); state_float (Block 4 true);
       state_text (Run 5)].
Proof.
  destruct (inline_iterator_events
              [Run 1; Inline 2 [Run 3; Break]; Block 4 true; Run 5] eq_refl)
    as (values & Hrun & Hwithout & _).
  exists values. split; [exact (Hrun 0%nat)|exact Hwithout].
Defined.

(** X23: on content with an inline-block, at any depth, the iteration
    ends with the exception of the inline-block: no call of [next()]
    returns [{done: true}]. *)
Theorem inline_iterator_rejects_inline_block (children : list InlineLevel)
    (extra : nat) :
  forallb floats_only children = false →
  inline_run (3 * length (flat_map events children) + 1 + extra)
    (createInlineIterator children)
  = Some (Throw "Inline block not supported yet").
Proof.
  intros Hfloats.
  pose proof (inline_run_spec (3 * length (flat_map events children))
                (createInlineIterator children)) as H.
  unfold calls_left, pending, iterator_inv in H.
  cbn [createInlineIterator it_stack buffered bk shouldFlushBreakop app length]
    in H.
  rewrite floats_only_items, stack_events_items, Hfloats in H.
  rewrite <- (H ltac:(lia) ltac:(unfold JS.len; cbn; split; [lia|discriminate])
                extra).
  f_equal. lia.
Qed.

Lemma inline_iterator_rejects_inline_block_witness :
  inline_run 7
    (createInlineIterator [Run 1; Inline 2 [Run 3; Block 4 false]])
  = Some (Throw "Inline block not supported yet").
Proof.
  apply (inline_iterator_rejects_inline_block
           [Run 1; Inline 2 [Run 3; Block 4 false]] 0 eq_refl).
Defined.

(** ** The inline box model *)

Lemma box_direction_world direction b w : (box_direction direction b w).2 = w.
Proof.
  unfold box_direction, bind, gets, throw, ret. cbn.
  destruct (containingBlock _); [|reflexivity].
  destruct (a_blockContainer _); reflexivity.
Qed.

(** What the two setters of the inline axis leave in the border area *)
Lemma inline_setters_border b marginLeft size w w' :
  areas_nested (boxes w b) →
  setInlineOuterSize b size (setInlinePosition b (Some marginLeft) w).2
  = (Ok tt, w') →
  a_lineLeft (areas w' (borderArea (boxes w b))) = Some marginLeft ∧
  a_inlineSize (areas w' (borderArea (boxes w b))) = size.
Proof.
  unfold areas_nested, setInlineOuterSize, setInlinePosition. run_monad.
  destruct (containingBlock (boxes w b)) as [cb|] eqn:Hcb; cbn [fst snd].
  2:{ rewrite Hcb. discriminate. }
  cbn [boxes set_area]. rewrite Hcb. cbn [fst snd].
  intros Hnested.
  destruct (bool_decide_reflect (paddingArea (boxes w b) = borderArea (boxes w b)))
    as [Hp|Hp];
    destruct (bool_decide_reflect (contentArea (boxes w b) = paddingArea (boxes w b)))
      as [Hc|Hc];
    cbn [negb fst snd]; intros [= <-]; cbn [areas set_area];
    repeat match goal with
      | |- context [decide (?x = ?y)] => destruct (decide (x = y))
      end; cbn; auto; try congruence.
  all: exfalso; auto.
Qed.

(** What [doInlineBoxModelForBlockBox] has read and written when it
    returns *)
Lemma doInlineBoxModelForBlockBox_steps direction b w w' :
  doInlineBoxModelForBlockBox direction b w = (Ok tt, w') →
  let s := style (boxes w b) in
  let marginLeft := auto_is_zero (marginLineLeft s) in
  let marginRight := auto_is_zero (marginLineRight s) in
  ∃ cb wm cInlineSize left right,
    containingBlock (boxes w b) = Some cb ∧
    box_writingMode b w = (Ok wm, w) ∧
    inlineSizeForWritingMode cb wm w = (Ok cInlineSize, w) ∧
    setInlineOuterSize b (cInlineSize - left - right)
      (setInlinePosition b (Some left) w).2 = (Ok tt, w') ∧
    match inlineSize s with
    | auto => left = marginLeft ∧ right = marginRight
    | px v =>
        let specified := v + inline_edges s + marginLeft + marginRight in
        if (cInlineSize <? specified)
           || (match marginLineLeft s, marginLineRight s with
               | px _, px _ => true
               | _, _ => false
               end)
        then ∃ d, box_direction direction b w = (Ok d, w) ∧
                  match d with
                  | ltr => left = marginLeft
                           ∧ right = cInlineSize - (specified - marginRight)
                  | rtl => left = cInlineSize - (specified - marginRight)
                           ∧ right = marginRight
                  end
        else match marginLineLeft s, marginLineRight s with
             | auto, auto => 2 * left = cInlineSize - specified ∧ right = left
             | auto, px r => left = cInlineSize - specified ∧ right = r
             | px l, _ => left = l ∧ right = cInlineSize - specified
             end
    end.
Proof.
  cbv zeta. unfold doInlineBoxModelForBlockBox, inline_edges.
  unfold bind at 1, gets at 1. cbn [fst snd id].
  destruct (containingBlock (boxes w b)) as [cb|] eqn:Hcb; [|discriminate].
  destruct (negb (isBlockLevel (boxes w b))); [discriminate|].
  unfold bind at 1.
  pose proof (box_writingMode_world b w) as Hwm.
  destruct (box_writingMode b w) as [[wm|msg] w1] eqn:Ewm; cbn in Hwm; subst w1;
    [|discriminate].
  unfold bind at 1.
  pose proof (inlineSizeForWritingMode_world cb wm w) as Hc.
  destruct (inlineSizeForWritingMode cb wm w) as [[c|msg] w1] eqn:Ec;
    cbn in Hc; subst w1; [|discriminate].
  set (s := style (boxes w b)).
  intros H. exists cb, wm, c.
  assert (Hdir : ∀ (k : Direction → M World (Length * Length)) A
                   (k' : Length * Length → M World A) r,
    bind (bind (box_direction direction b) k) k' w = r →
    match box_direction direction b w with
    | (Ok d, _) => bind (k d) k' w = r
    | (Throw msg, _) => r = (Throw msg, w)
    end).
  { intros k A k' r <-. unfold bind.
    pose proof (box_direction_world direction b w) as Hw.
    destruct (box_direction direction b w) as [[d|msg] w1]; cbn in Hw; subst w1;
      reflexivity. }
  assert (Hset : ∀ left right,
    (_ <- setInlinePosition b (Some left) ;;
     setInlineOuterSize b (c - left - right)) w = (Ok tt, w') →
    setInlineOuterSize b (c - left - right)
      (setInlinePosition b (Some left) w).2 = (Ok tt, w')).
  { intros left right. unfold bind.
    destruct (setInlinePosition b (Some left) w) as [[[]|msg] w1];
      [auto|discriminate]. }
  destruct (inlineSize s) as [|v].
  - unfold bind at 1, ret at 1 in H. cbn [fst snd] in H.
    exists (auto_is_zero (marginLineLeft s)), (auto_is_zero (marginLineRight s)).
    split; [reflexivity|]. split; [reflexivity|]. split; [exact Ec|].
    split; [apply Hset, H|]. split; reflexivity.
  - replace (v + borderLineLeftWidth s + paddingLineLeft s + paddingLineRight s
             + borderLineRightWidth s + auto_is_zero (marginLineLeft s)
             + auto_is_zero (marginLineRight s))
      with (v + (borderLineLeftWidth s + paddingLineLeft s + paddingLineRight s
                 + borderLineRightWidth s) + auto_is_zero (marginLineLeft s)
            + auto_is_zero (marginLineRight s)) in H by lia.
    set (specified := v + _ + _ + _) in *.
    destruct (c <? specified) eqn:Hover;
      destruct (marginLineLeft s) as [|l] eqn:Hl;
      destruct (marginLineRight s) as [|r] eqn:Hr;
      cbn [auto_is_zero orb] in *.
    all: try (apply Hdir in H;
              pose proof (box_direction_world direction b w) as Hw;
              destruct (box_direction direction b w) as [[d|msg] w1];
              cbn in Hw; subst w1; [|discriminate];
              destruct d).
    all: try (destruct (Z.even (c - specified)) eqn:Heven;
              [|discriminate]).
    all: unfold bind at 1, ret at 1 in H; cbn [fst snd] in H.
    all: match type of H with
         | context [setInlineOuterSize _ (_ - ?L - ?R)] => exists L, R
         end.
    all: split; [reflexivity|]; split; [reflexivity|]; split; [exact Ec|];
         split; [apply Hset, H|].
    all: try (eexists; split; [reflexivity|]; split; reflexivity).
    all: try (split; reflexivity).
    split; [|reflexivity]. apply Z.even_spec in Heven as [k Hk].
    Z.div_mod_to_equations. lia.
Qed.



(** ** The next track and the block box model *)

(** X25: [getNextTrackOffset] on a well-formed side.  With a track after
    the one of the shelf it returns the top of that track, which is below
    the shelf, and dropping the shelf there moves it; on the last track it
    returns the top of the track of the shelf, which is not below the
    shelf, and dropping the shelf there leaves the side as it is. *)
Theorem next_track_offset_progress (s : FloatSide.t) :
  well_formed s →
  (FloatSide.shelfTrackIndex s + 1 < JS.len (FloatSide.blockOffsets s) →
   ∃ y, FloatSide.getNextTrackOffset s = Some y ∧
        FloatSide.shelfBlockOffset s < y ∧
        FloatSide.shelfBlockOffset (FloatSide.dropShelf y s) = y) ∧
  (0 ≤ FloatSide.shelfTrackIndex s →
   FloatSide.shelfTrackIndex s + 1 = JS.len (FloatSide.blockOffsets s) →
   ∃ y, FloatSide.getNextTrackOffset s = Some y ∧
        y ≤ FloatSide.shelfBlockOffset s ∧
        FloatSide.dropShelf y s = s).
Proof.
  intros (Hne & Hinc & Hlen & (Hrange & Hle & Hlt)).
  unfold FloatSide.getNextTrackOffset, FloatSide.dropShelf. split.
  - intros Hnext.
    destruct (Z.ltb_spec (FloatSide.shelfTrackIndex s + 1)
                (JS.len (FloatSide.blockOffsets s))); [|lia].
    destruct (JS_get_is_Some (FloatSide.blockOffsets s)
                (FloatSide.shelfTrackIndex s + 1)) as [y Hy]; [lia|].
    exists y. specialize (Hlt y Hy). split; [exact Hy|]. split; [exact Hlt|].
    destruct (Z.ltb_spec (FloatSide.shelfBlockOffset s) y); [reflexivity|lia].
  - intros Hidx Hlast.
    destruct (Z.ltb_spec (FloatSide.shelfTrackIndex s + 1)
                (JS.len (FloatSide.blockOffsets s))); [lia|].
    destruct (JS_get_is_Some (FloatSide.blockOffsets s)
                (FloatSide.shelfTrackIndex s)) as [y Hy]; [lia|].
    exists y. specialize (Hle y Hy). split; [exact Hy|]. split; [exact Hle|].
    destruct (Z.ltb_spec (FloatSide.shelfBlockOffset s) y); [lia|reflexivity].
Qed.

Lemma next_track_offset_progress_witness :
  ∃ y, FloatSide.getNextTrackOffset (FloatSide.new 0) = Some y ∧
       y ≤ 0 ∧
       FloatSide.dropShelf y (FloatSide.new 0) = FloatSide.new 0.
Proof.
  apply (proj2 (next_track_offset_progress (FloatSide.new 0)
                  (well_formed_new 0))).
  - cbn. lia.
  - reflexivity.
Defined.

(** X26: the block box model of a block box.  [doBlockBoxModelForBlockBox]
    refuses an inline-level box and leaves a box of [auto] block size with
    children as it is.  For a box with a block size in pixels, and with
    the size [0] for a childless box of [auto] block size, the content box
    gets that size and the border box that size plus the padding, where
    there is a padding area, and the border, where there is a border area;
    no other area and no box changes. *)
Theorem block_box_block_model (b : BoxId) (w : World) :
  let box := boxes w b in
  let s := style box in
  let r := doBlockBoxModelForBlockBox b w in
  (isInline box = true →
   r = (Throw "doBlockBoxModelForBlockBox called with inline", w)) ∧
  (isInline box = false → blockSize s = auto →
   children box ≠ ChildBlocks [] → r = (Ok tt, w)) ∧
  (isInline box = false → is_Some (containingBlock box) → areas_nested box →
   ∀ size,
     blockSize s = px size
     ∨ (blockSize s = auto ∧ children box = ChildBlocks [] ∧ size = 0) →
     r.1 = Ok tt ∧
     boxes r.2 = boxes w ∧
     a_blockSize (areas r.2 (contentArea box)) = size ∧
     a_blockSize (areas r.2 (borderArea box))
     = size
       + (if decide (contentArea box = paddingArea box) then 0
          else paddingBlockStart s + paddingBlockEnd s)
       + (if decide (paddingArea box = borderArea box) then 0
          else borderBlockStartWidth s + borderBlockEndWidth s) ∧
     ∀ a, a ≠ contentArea box → a ≠ paddingArea box → a ≠ borderArea box →
          areas r.2 a = areas w a).
Proof.
  cbv zeta.
  assert (Hrun : doBlockBoxModelForBlockBox b w =
    (if negb (negb (isInline (boxes w b)))
     then throw "doBlockBoxModelForBlockBox called with inline"
     else match blockSize (style (boxes w b)) with
          | auto =>
              match children (boxes w b) with
              | ChildBlocks [] => setBlockSize b 0
              | _ => ret tt
              end
          | px v => setBlockSize b v
          end) w) by reflexivity.
  rewrite Hrun. clear Hrun.
  split; [|split].
  - intros H. destruct (isInline (boxes w b)); [reflexivity|discriminate].
  - intros H Hsize Hchildren.
    destruct (isInline (boxes w b)); [discriminate|].
    destruct (blockSize (style (boxes w b))); [|discriminate]. cbn [negb].
    destruct (children (boxes w b)) as [[|c cs]|hasText]; [congruence|..];
      reflexivity.
  - intros H [cb Hcb] Hnested size Hsize.
    destruct (isInline (boxes w b)) eqn:Hinline; [discriminate|]. cbn [negb].
    assert (Hset : ∀ size,
      (setBlockSize b size w).1 = Ok tt ∧
      boxes (setBlockSize b size w).2 = boxes w ∧
      a_blockSize (areas (setBlockSize b size w).2 (contentArea (boxes w b)))
      = size ∧
      a_blockSize (areas (setBlockSize b size w).2 (borderArea (boxes w b)))
      = size
        + (if decide (contentArea (boxes w b) = paddingArea (boxes w b)) then 0
           else paddingBlockStart (style (boxes w b))
                + paddingBlockEnd (style (boxes w b)))
        + (if decide (paddingArea (boxes w b) = borderArea (boxes w b)) then 0
           else borderBlockStartWidth (style (boxes w b))
                + borderBlockEndWidth (style (boxes w b))) ∧
      ∀ a, a ≠ contentArea (boxes w b) → a ≠ paddingArea (boxes w b) →
           a ≠ borderArea (boxes w b) →
           areas (setBlockSize b size w).2 a = areas w a).
    { intros sz. unfold setBlockSize. run_monad. rewrite Hcb.
      unfold areas_nested in Hnested.
      destruct (bool_decide_reflect
                  (contentArea (boxes w b) = paddingArea (boxes w b)));
        destruct (bool_decide_reflect
                    (paddingArea (boxes w b) = borderArea (boxes w b)));
        cbn [negb fst snd areas boxes set_area];
        repeat match goal with
          | |- context [decide (?x = ?y)] => destruct (decide (x = y))
          end; cbn; repeat split; auto; try lia; try congruence;
        try (intros a H1 H2 H3;
             repeat match goal with
               | |- context [decide (?x = ?y)] => destruct (decide (x = y))
               end; congruence).
      all: exfalso; auto. }
    destruct (blockSize (style (boxes w b))) as [|v];
      destruct Hsize as [Hs|(Hs & Hc & ->)]; try discriminate.
    + destruct (children (boxes w b)) as [[|c cs]|hasText]; try discriminate.
      apply Hset.
    + injection Hs as ->. apply Hset.
Qed.
